(** * Asteroids: the game-state update loop of zapper7/asteroids

    The repository holds three near-duplicate copies of one browser game
    script written against the Babylon.js engine:

    - the cockpit variant (first script of [src/unnamed/part_000], lines
      1-634): velocity damping, a wrap buffer, bounding-sphere collisions,
      a guarded [endGame];
    - [src/game.js] (PascalCase mesh builders), and the second script of
      [src/unnamed/part_000] (camelCase mesh builders), whose game logic
      is that of [game.js] line for line; only the names of the mesh
      builders it probes differ.

    The cockpit variant is embedded in [Module Part000], [game.js] in
    [Module GameJs].  Module-level [let] globals become the fields of one
    [State] record that every function threads explicitly; engine objects
    (meshes, vectors) become records; what the engine computes (vector
    normalisation, a mesh's forward direction, mesh-builder availability,
    [intersectsMesh]) is the [Babylon] interface.

    Numbers: JavaScript numbers that hold coordinates and speeds are
    modelled as rationals [Q]; the rounding of floating-point arithmetic
    is not modelled, and the properties below rest on comparisons,
    assignments and counters, not on it.  Frame counters, lives, score and
    [Date.now()] milliseconds are integers [Z].

    Left to the host, and not part of [State]: materials and colours, the
    GUI text blocks that mirror [score], [lives] and the game-over banner,
    the GUI plane and camera parented to the ship, [rotationQuaternion],
    and what goes to [console.error] and [console.warn]. *)

From Stdlib Require Import String ZArith QArith Qabs List Bool Lia.
Import ListNotations.

#[local] Open Scope Q_scope.

(* ================================================================== *)
(** ** Numbers and comparisons *)

(** [a > b] and [a < b] on JavaScript numbers. *)
Definition Qgtb (a b : Q) : bool := negb (Qle_bool a b).
Definition Qltb (a b : Q) : bool := negb (Qle_bool b a).

(** [Math.PI], the double nearest to pi: 884279719003555 / 2^48. *)
Definition Math_PI : Q := 884279719003555 # 281474976710656.

(** A timestamp variable: a finite millisecond count, or the [Infinity]
    that [endGame] stores in [lastAsteroidSpawnTime]. *)
Inductive Time : Type :=
| Finite (t : Z)
| Infinity.

(** [now > t + delta]; [Infinity + delta] is [Infinity] and nothing is
    greater than it. *)
Definition laterThan (now : Z) (t : Time) (delta : Z) : bool :=
  match t with
  | Finite t0 => (t0 + delta <? now)%Z
  | Infinity => false
  end.

(* ================================================================== *)
(** ** BABYLON.Vector3 *)

Record Vec3 : Type := vec3 { vx : Q; vy : Q; vz : Q }.

Definition Vector3_Zero : Vec3 := vec3 0 0 0.

Definition add (a b : Vec3) : Vec3 :=
  vec3 (vx a + vx b) (vy a + vy b) (vz a + vz b).

Definition subtract (a b : Vec3) : Vec3 :=
  vec3 (vx a - vx b) (vy a - vy b) (vz a - vz b).

Definition scale (a : Vec3) (k : Q) : Vec3 :=
  vec3 (vx a * k) (vy a * k) (vz a * k).

Definition lengthSquared (a : Vec3) : Q :=
  vx a * vx a + vy a * vy a + vz a * vz a.

Inductive Axis : Type := AxisX | AxisY | AxisZ.

Definition coord (ax : Axis) (v : Vec3) : Q :=
  match ax with
  | AxisX => vx v
  | AxisY => vy v
  | AxisZ => vz v
  end.

(* ================================================================== *)
(** ** Meshes and their metadata bags *)

(** A mesh as the game uses it.  [boundingRadius] is the world radius of
    [getBoundingInfo().boundingSphere], whose centre is [position]; the
    type parameter is the shape of the [metadata] bag. *)
Record Mesh (M : Type) : Type := mkMesh {
  position : Vec3;
  rotation : Vec3;
  isVisible : bool;
  isEnabled : bool;
  isDisposed : bool;
  boundingRadius : Q;
  metadata : option M
}.

Arguments mkMesh {M}.
Arguments position {M}.
Arguments rotation {M}.
Arguments isVisible {M}.
Arguments isEnabled {M}.
Arguments isDisposed {M}.
Arguments boundingRadius {M}.
Arguments metadata {M}.

(** [{ velocity, life, type: "bullet" }] *)
Record BulletMeta : Type := mkBulletMeta {
  bulletVelocity : Vec3;
  life : Z
}.

(** [{ velocity, type: "asteroid", size, rotationSpeed }]; the asteroids of
    [game.js] carry no [rotationSpeed] and never read it. *)
Record AsteroidMeta : Type := mkAsteroidMeta {
  asteroidVelocity : Vec3;
  size : Q;
  rotationSpeed : Q
}.

(** [{ type: "player" }] *)
Definition PlayerMeta : Type := unit.

Definition Bullet : Type := Mesh BulletMeta.
Definition Asteroid : Type := Mesh AsteroidMeta.
Definition Ship : Type := Mesh PlayerMeta.

Section MeshUpdates.
Context {M : Type}.

Definition set_position (p : Vec3) (m : Mesh M) : Mesh M :=
  mkMesh p (rotation m) (isVisible m) (isEnabled m) (isDisposed m)
         (boundingRadius m) (metadata m).

Definition set_rotation (r : Vec3) (m : Mesh M) : Mesh M :=
  mkMesh (position m) r (isVisible m) (isEnabled m) (isDisposed m)
         (boundingRadius m) (metadata m).

Definition set_isVisible (b : bool) (m : Mesh M) : Mesh M :=
  mkMesh (position m) (rotation m) b (isEnabled m) (isDisposed m)
         (boundingRadius m) (metadata m).

Definition setEnabled (b : bool) (m : Mesh M) : Mesh M :=
  mkMesh (position m) (rotation m) (isVisible m) b (isDisposed m)
         (boundingRadius m) (metadata m).

Definition set_metadata (md : option M) (m : Mesh M) : Mesh M :=
  mkMesh (position m) (rotation m) (isVisible m) (isEnabled m)
         (isDisposed m) (boundingRadius m) md.
End MeshUpdates.

(** Modelled from the spec: the engine's [BoundingSphere.intersectsSphere],
    which is not part of this repository.  Two spheres intersect when the
    distance of their centres is at most the sum of their radii, compared
    on squares. *)
Definition intersectsSphere {M N : Type} (a : Mesh M) (b : Mesh N) : bool :=
  let radiusSum := boundingRadius a + boundingRadius b in
  negb (Qltb (radiusSum * radiusSum)
             (lengthSquared (subtract (position a) (position b)))).

(** What the game asks of the rendering engine. *)
Class Babylon : Type := {
  (** [Vector3.normalize] *)
  normalize : Vec3 -> Vec3;
  (** [mesh.forward], a function of the mesh's [rotation] *)
  forward : Vec3 -> Vec3;
  (** [typeof BABYLON.MeshBuilder?.CreateSphere === 'function'] *)
  hasCreateSphere : bool;
  (** bounding-sphere radius of [CreateSphere("bullet", { diameter })] *)
  sphereBoundingRadius : Q -> Q;
  (** [a.intersectsMesh(b, false)] *)
  intersectsMesh : forall {M N : Type}, Mesh M -> Mesh N -> bool
}.

(* ================================================================== *)
(** ** Arrays and loops *)

(** [arr.splice(i, 1)]: nothing happens when [i] is out of range. *)
Definition splice {A : Type} (i : nat) (l : list A) : list A :=
  firstn i l ++ skipn (S i) l.

(** The in-place mutation of the object stored at index [i]. *)
Definition store {A : Type} (i : nat) (x : A) (l : list A) : list A :=
  firstn i l ++ x :: skipn (S i) l.

(** [for (let i = n - 1; i >= 0; i--) body], without [break]. *)
Fixpoint forDown {S : Type} (n : nat) (body : nat -> S -> S) (s : S) : S :=
  match n with
  | O => s
  | Datatypes.S i => forDown i body (body i s)
  end.

(* ================================================================== *)
(** ** The module-level globals *)

Record State : Type := mkState {
  score : Z;
  lives : Z;
  isGameOver : bool;
  playerShip : option Ship;
  bullets : list Bullet;
  asteroids : list Asteroid;
  lastAsteroidSpawnTime : Time;
  playerVelocity : Vec3;
  playerInvincible : bool;
  playerRespawnTime : Z;
  (** the lines written by [console.log] from the game logic, oldest first *)
  console : list string
}.

Definition set_score (v : Z) (s : State) : State :=
  mkState v (lives s) (isGameOver s) (playerShip s) (bullets s) (asteroids s)
          (lastAsteroidSpawnTime s) (playerVelocity s) (playerInvincible s)
          (playerRespawnTime s) (console s).

Definition set_lives (v : Z) (s : State) : State :=
  mkState (score s) v (isGameOver s) (playerShip s) (bullets s) (asteroids s)
          (lastAsteroidSpawnTime s) (playerVelocity s) (playerInvincible s)
          (playerRespawnTime s) (console s).

Definition set_isGameOver (v : bool) (s : State) : State :=
  mkState (score s) (lives s) v (playerShip s) (bullets s) (asteroids s)
          (lastAsteroidSpawnTime s) (playerVelocity s) (playerInvincible s)
          (playerRespawnTime s) (console s).

Definition set_playerShip (v : option Ship) (s : State) : State :=
  mkState (score s) (lives s) (isGameOver s) v (bullets s) (asteroids s)
          (lastAsteroidSpawnTime s) (playerVelocity s) (playerInvincible s)
          (playerRespawnTime s) (console s).

Definition set_bullets (v : list Bullet) (s : State) : State :=
  mkState (score s) (lives s) (isGameOver s) (playerShip s) v (asteroids s)
          (lastAsteroidSpawnTime s) (playerVelocity s) (playerInvincible s)
          (playerRespawnTime s) (console s).

Definition set_asteroids (v : list Asteroid) (s : State) : State :=
  mkState (score s) (lives s) (isGameOver s) (playerShip s) (bullets s) v
          (lastAsteroidSpawnTime s) (playerVelocity s) (playerInvincible s)
          (playerRespawnTime s) (console s).

Definition set_lastAsteroidSpawnTime (v : Time) (s : State) : State :=
  mkState (score s) (lives s) (isGameOver s) (playerShip s) (bullets s)
          (asteroids s) v (playerVelocity s) (playerInvincible s)
          (playerRespawnTime s) (console s).

Definition set_playerVelocity (v : Vec3) (s : State) : State :=
  mkState (score s) (lives s) (isGameOver s) (playerShip s) (bullets s)
          (asteroids s) (lastAsteroidSpawnTime s) v (playerInvincible s)
          (playerRespawnTime s) (console s).

Definition set_playerInvincible (v : bool) (s : State) : State :=
  mkState (score s) (lives s) (isGameOver s) (playerShip s) (bullets s)
          (asteroids s) (lastAsteroidSpawnTime s) (playerVelocity s) v
          (playerRespawnTime s) (console s).

Definition set_playerRespawnTime (v : Z) (s : State) : State :=
  mkState (score s) (lives s) (isGameOver s) (playerShip s) (bullets s)
          (asteroids s) (lastAsteroidSpawnTime s) (playerVelocity s)
          (playerInvincible s) v (console s).

(** [console.log(msg)] *)
Definition console_log (msg : string) (s : State) : State :=
  mkState (score s) (lives s) (isGameOver s) (playerShip s) (bullets s)
          (asteroids s) (lastAsteroidSpawnTime s) (playerVelocity s)
          (playerInvincible s) (playerRespawnTime s) (console s ++ [msg]).

(** What one rendered frame reads from outside the game state: the clock
    ([Date.now()]; every call within one frame reads the same
    millisecond) and the mesh that [createAsteroid] with [setupAsteroid]
    would build from the engine and [Math.random]: its size, its place on
    a face of the play cube, its velocity and spin.  [created] is [None]
    when the scene or the mesh builder is missing, or creation throws.
    The sampling loop of the cockpit [setupAsteroid] repeats until the
    place is far enough from the ship; a frame in which it never ends is
    not a frame of this model. *)
Record Frame : Type := mkFrame {
  now : Z;
  created : option Asteroid
}.

(** One axis of [wrapAround]:
    [if (c > limit) c = -limit; else if (c < -limit) c = limit;] *)
Definition wrapAxis (limit c : Q) : Q :=
  if Qgtb c limit then - limit
  else if Qltb c (- limit) then limit
  else c.

(** The constants shared by the scripts. *)
Definition ASTEROID_SPAWN_INTERVAL : Z := 1000.
Definition ASTEROID_MAX_COUNT : nat := 15.
Definition PLAY_AREA_SIZE : Q := 30.
Definition INITIAL_LIVES : Z := 3.
Definition RESPAWN_INVINCIBILITY_TIME : Z := 3000.
Definition PLAYER_SPEED : Q := 8 # 100.
Definition PLAYER_ROTATION_SPEED : Q := 5 # 100.

(** The orientation the ship is created with and reset to. *)
Definition spawnRotation : Vec3 := vec3 (Math_PI / 2) 0 0.

(** The state [initializeGame] and [createScene] leave behind; [ship] is
    [None] when the ship mesh could not be created. *)
Definition initialState (ship : option Ship) : State :=
  mkState 0 INITIAL_LIVES false ship [] [] (Finite 0) Vector3_Zero false 0 [].

(** The ship [createScene] builds; [radius] is the bounding radius the
    engine gives the cone. *)
Definition theShip (radius : Q) : Ship :=
  mkMesh Vector3_Zero spawnRotation true true false radius (Some tt).

(** The states a session can start in. *)
Inductive started : State -> Prop :=
| started_with_ship : forall radius,
    started (initialState (Some (theShip radius)))
| started_without_ship : started (initialState None).

(* ================================================================== *)
(** ** The cockpit variant: first script of [src/unnamed/part_000] *)

Module Part000.

Definition PLAYER_MAX_SPEED : Q := 15 # 10.
Definition PLAYER_DAMPING : Q := 98 # 100.
Definition BULLET_SPEED : Q := 7 # 10.
Definition BULLET_LIFETIME : Z := 80.

(** [const buffer = 2; const limit = PLAY_AREA_SIZE + buffer;] *)
Definition wrapLimit : Q := PLAY_AREA_SIZE + 2.

(** [wrapAround(mesh)]; the argument is a mesh, so the
    [!mesh || !mesh.position] guard does not fire. *)
Definition wrapAround {M : Type} (mesh : Mesh M) : Mesh M :=
  let p := position mesh in
  set_position (vec3 (wrapAxis wrapLimit (vx p))
                     (wrapAxis wrapLimit (vy p))
                     (wrapAxis wrapLimit (vz p))) mesh.

(** [isOutOfBounds(position)] with [limit = PLAY_AREA_SIZE + 10]. *)
Definition isOutOfBounds (p : Vec3) : bool :=
  let limit := PLAY_AREA_SIZE + 10 in
  Qgtb (Qabs (vx p)) limit || Qgtb (Qabs (vy p)) limit
  || Qgtb (Qabs (vz p)) limit.

(** The body of the loop of [updateBullets] at index [i]. *)
Definition updateBullets_body (i : nat) (bs : list Bullet) : list Bullet :=
  match nth_error bs i with
  | None => splice i bs
  | Some bullet =>
      match metadata bullet with
      | None => splice i bs
      | Some md =>
          let p := add (position bullet) (bulletVelocity md) in
          let md' := mkBulletMeta (bulletVelocity md) (life md - 1) in
          if (life md' <=? 0)%Z || isOutOfBounds p
          then splice i bs
          else store i (set_metadata (Some md') (set_position p bullet)) bs
      end
  end.

Definition updateBullets (bs : list Bullet) : list Bullet :=
  forDown (length bs) updateBullets_body bs.

(** The body of the loop of [updateAsteroids] at index [i]. *)
Definition updateAsteroids_body (i : nat) (l : list Asteroid)
  : list Asteroid :=
  match nth_error l i with
  | None => splice i l
  | Some asteroid =>
      match metadata asteroid with
      | None => splice i l
      | Some md =>
          let v := asteroidVelocity md in
          let r := rotation asteroid in
          let moved := set_position (add (position asteroid) v) asteroid in
          let turned :=
            set_rotation (vec3 (vx r + rotationSpeed md * vy v)
                               (vy r + rotationSpeed md * vz v)
                               (vz r + rotationSpeed md * vx v)) moved in
          store i (wrapAround turned) l
      end
  end.

Definition updateAsteroids (l : list Asteroid) : list Asteroid :=
  forDown (length l) updateAsteroids_body l.

(** [createAsteroid()] with [setupAsteroid]: the configured mesh is the
    frame's [created] value and is pushed on [asteroids]. *)
Definition createAsteroid (f : Frame) (s : State) : State :=
  match created f with
  | None => s
  | Some asteroid => set_asteroids (asteroids s ++ [asteroid]) s
  end.

Definition spawnAsteroidsIfNeeded (f : Frame) (s : State) : State :=
  if laterThan (now f) (lastAsteroidSpawnTime s) ASTEROID_SPAWN_INTERVAL
     && (length (asteroids s) <? ASTEROID_MAX_COUNT)%nat
     && negb (isGameOver s)
  then set_lastAsteroidSpawnTime (Finite (now f)) (createAsteroid f s)
  else s.

(** [endGame()] *)
Definition endGame (s : State) : State :=
  if isGameOver s then s
  else
    let s1 := console_log "Game Over!" s in
    let s2 := set_isGameOver true s1 in
    let s3 := set_lastAsteroidSpawnTime Infinity s2 in
    let s4 := match playerShip s3 with
              | Some ship =>
                  if negb (isDisposed ship) then set_playerShip None s3
                  else s3
              | None => s3
              end in
    let s5 := set_asteroids [] s4 in
    let s6 := set_bullets [] s5 in
    console_log "Cleaned up game objects." s6.

(** [playerHit()]; [t] is the reading of [Date.now()]. *)
Definition playerHit (t : Z) (s : State) : State :=
  let s1 := set_lives (lives s - 1) s in
  let s2 := set_playerVelocity Vector3_Zero s1 in
  if (0 <? lives s2)%Z then
    match playerShip s2 with
    | Some ship =>
        let ship1 := set_position Vector3_Zero ship in
        let ship2 := set_rotation spawnRotation ship1 in
        let ship3 := setEnabled false (set_isVisible false ship2) in
        let s3 := set_playerShip (Some ship3) s2 in
        let s4 := set_playerInvincible true s3 in
        let s5 := set_playerRespawnTime t s4 in
        console_log "Player respawned, invincible for 3 sec" s5
    | None => s2
    end
  else
    let s3 := match playerShip s2 with
              | Some ship =>
                  if negb (isDisposed ship) then set_playerShip None s2
                  else s2
              | None => s2
              end in
    endGame s3.

(** The inner loop over asteroids, from index [n - 1] down: the index of
    the first live asteroid that [mesh] intersects, where the loop
    [break]s. *)
Fixpoint findHit {M : Type} (mesh : Mesh M) (n : nat) (l : list Asteroid)
  : option nat :=
  match n with
  | O => None
  | S j =>
      match nth_error l j with
      | None => findHit mesh j l
      | Some asteroid =>
          if isDisposed asteroid then findHit mesh j l
          else if intersectsSphere mesh asteroid then Some j
          else findHit mesh j l
      end
  end.

(** The body of the bullet loop of [checkCollisions] at index [i]. *)
Definition bulletLoop_body (i : nat) (s : State) : State :=
  match nth_error (bullets s) i with
  | None => s
  | Some bullet =>
      if negb (isDisposed bullet) then s
      else
        match findHit bullet (length (asteroids s)) (asteroids s) with
        | Some j =>
            let s1 := set_asteroids (splice j (asteroids s)) s in
            let s2 := set_bullets (splice i (bullets s1)) s1 in
            set_score (score s2 + 100) s2
        | None => s
        end
  end.

(** The player loop of [checkCollisions]. *)
Definition playerLoop (t : Z) (s : State) : State :=
  match playerShip s with
  | Some ship =>
      if isEnabled ship && negb (playerInvincible s) then
        match findHit ship (length (asteroids s)) (asteroids s) with
        | Some j =>
            let s1 := console_log "Player hit by asteroid!" s in
            let s2 := set_asteroids (splice j (asteroids s1)) s1 in
            playerHit t s2
        | None => s
        end
      else s
  | None => s
  end.

Definition checkCollisions (t : Z) (s : State) : State :=
  playerLoop t (forDown (length (bullets s)) bulletLoop_body s).

Section WithEngine.
Context {E : Babylon}.

(** [fireBullet()]; a mesh always has a scene, so of the guard only
    the ship's presence and [isEnabled()] remain. *)
Definition fireBullet (s : State) : State :=
  match playerShip s with
  | None => s
  | Some ship =>
      if negb (isEnabled ship) then s
      else if negb hasCreateSphere then s
      else
        let forwardDirection :=
          normalize (scale (forward (rotation ship)) (-1)) in
        let bulletOffset := scale forwardDirection (6 # 10) in
        let bullet : Bullet :=
          mkMesh (add (position ship) bulletOffset) Vector3_Zero true
                 true false (sphereBoundingRadius (2 # 10))
                 (Some (mkBulletMeta (scale forwardDirection BULLET_SPEED)
                                     BULLET_LIFETIME)) in
        set_bullets (bullets s ++ [bullet]) s
  end.

(** The player block at the head of [updateGameLogic]:
    damp, clamp, integrate, wrap. *)
Definition movePlayer (s : State) : State :=
  match playerShip s with
  | Some ship =>
      if isEnabled ship then
        let v1 := scale (playerVelocity s) PLAYER_DAMPING in
        let v2 :=
          if Qgtb (lengthSquared v1) (PLAYER_MAX_SPEED * PLAYER_MAX_SPEED)
          then scale (normalize v1) PLAYER_MAX_SPEED
          else v1 in
        let ship1 := set_position (add (position ship) v2) ship in
        set_playerShip (Some (wrapAround ship1)) (set_playerVelocity v2 s)
      else s
  | None => s
  end.

(** The invincibility block at the tail of [updateGameLogic]. *)
Definition updateInvincibility (t : Z) (s : State) : State :=
  match playerShip s with
  | Some ship =>
      if playerInvincible s then
        if (playerRespawnTime s + RESPAWN_INVINCIBILITY_TIME <? t)%Z then
          let s1 := set_playerInvincible false s in
          let s2 := set_playerShip
                      (Some (setEnabled true (set_isVisible true ship)))
                      s1 in
          console_log "Player no longer invincible" s2
        else
          let visible :=
            (Z.rem ((t - playerRespawnTime s) / 150) 2 =? 0)%Z in
          set_playerShip (Some (set_isVisible visible ship)) s
      else s
  | None => s
  end.

(** [updateGameLogic()], the per-frame callback. *)
Definition updateGameLogic (f : Frame) (s : State) : State :=
  if isGameOver s then s
  else
    let s1 := movePlayer s in
    let s2 := set_bullets (updateBullets (bullets s1)) s1 in
    let s3 := set_asteroids (updateAsteroids (asteroids s2)) s2 in
    let s4 := spawnAsteroidsIfNeeded f s3 in
    let s5 := checkCollisions (now f) s4 in
    let s6 := if (lives s5 <=? 0)%Z && negb (isGameOver s5)
              then endGame s5 else s5 in
    updateInvincibility (now f) s6.

(** The trigger callback of [setupXRInput]; [pressed] is
    [component.changes.pressed?.current === true]. *)
Definition onTrigger (pressed : bool) (s : State) : State :=
  match playerShip s with
  | Some ship =>
      if pressed && negb (isGameOver s) && isEnabled ship
      then fireBullet s else s
  | None => s
  end.

(** The left-thumbstick callback of [setupXRInput]. *)
Definition onThumbstick (axes_x axes_y : Q) (s : State) : State :=
  if isGameOver s then s
  else
    match playerShip s with
    | None => s
    | Some ship =>
        if negb (isEnabled ship) then s
        else
          let r := rotation ship in
          let ship1 :=
            if Qltb axes_x (- (1 # 10))
            then set_rotation
                   (vec3 (vx r) (vy r - PLAYER_ROTATION_SPEED) (vz r)) ship
            else if Qgtb axes_x (1 # 10)
            then set_rotation
                   (vec3 (vx r) (vy r + PLAYER_ROTATION_SPEED) (vz r)) ship
            else ship in
          let s1 := set_playerShip (Some ship1) s in
          if Qltb axes_y (- (1 # 10)) then
            let forwardDirection :=
              normalize (scale (forward (rotation ship1)) (-1)) in
            let thrust :=
              scale forwardDirection (- axes_y * PLAYER_SPEED) in
            set_playerVelocity (add (playerVelocity s1) thrust) s1
          else s1
    end.

(** What the host can do to the game: render a frame, or deliver an
    input event between frames. *)
Inductive Action : Type :=
| Render (f : Frame)
| TriggerChanged (pressed : bool)
| ThumbstickMoved (axes_x axes_y : Q).

Definition perform (a : Action) (s : State) : State :=
  match a with
  | Render f => updateGameLogic f s
  | TriggerChanged pressed => onTrigger pressed s
  | ThumbstickMoved x y => onThumbstick x y s
  end.

(** A session from state [s]: the actions of [acts] in order. *)
Definition run (acts : list Action) (s : State) : State :=
  fold_left (fun st a => perform a st) acts s.

Inductive reachable : State -> Prop :=
| reachable_init : forall s, started s -> reachable s
| reachable_step : forall a s, reachable s -> reachable (perform a s).
End WithEngine.

End Part000.

(* ================================================================== *)
(** ** [src/game.js] *)

Module GameJs.

Definition BULLET_SPEED : Q := 5 # 10.
Definition BULLET_LIFETIME : Z := 60.

(** [wrapAround(mesh)], with [PLAY_AREA_SIZE] itself as the limit. *)
Definition wrapAround {M : Type} (mesh : Mesh M) : Mesh M :=
  let p := position mesh in
  set_position (vec3 (wrapAxis PLAY_AREA_SIZE (vx p))
                     (wrapAxis PLAY_AREA_SIZE (vy p))
                     (wrapAxis PLAY_AREA_SIZE (vz p))) mesh.

(** [isOutOfBounds(position)] *)
Definition isOutOfBounds (p : Vec3) : bool :=
  Qgtb (Qabs (vx p)) (PLAY_AREA_SIZE + 5)
  || Qgtb (Qabs (vy p)) (PLAY_AREA_SIZE + 5)
  || Qgtb (Qabs (vz p)) (PLAY_AREA_SIZE + 5).

(** The body of the loop of [updateBullets] at index [i]. *)
Definition updateBullets_body (i : nat) (bs : list Bullet) : list Bullet :=
  match nth_error bs i with
  | None => splice i bs
  | Some bullet =>
      match metadata bullet with
      | None => splice i bs
      | Some md =>
          let p := add (position bullet) (bulletVelocity md) in
          let md' := mkBulletMeta (bulletVelocity md) (life md - 1) in
          if (life md' <=? 0)%Z || isOutOfBounds p
          then splice i bs
          else store i (set_metadata (Some md') (set_position p bullet)) bs
      end
  end.

Definition updateBullets (bs : list Bullet) : list Bullet :=
  forDown (length bs) updateBullets_body bs.

(** The body of the loop of [updateAsteroids] at index [i]. *)
Definition updateAsteroids_body (i : nat) (l : list Asteroid)
  : list Asteroid :=
  match nth_error l i with
  | None => splice i l
  | Some asteroid =>
      match metadata asteroid with
      | None => splice i l
      | Some md =>
          let v := asteroidVelocity md in
          let r := rotation asteroid in
          let moved := set_position (add (position asteroid) v) asteroid in
          let turned :=
            set_rotation (vec3 (vx r + vz v * (1 # 10))
                               (vy r + vx v * (1 # 10))
                               (vz r)) moved in
          store i (wrapAround turned) l
      end
  end.

Definition updateAsteroids (l : list Asteroid) : list Asteroid :=
  forDown (length l) updateAsteroids_body l.

(** [createAsteroid()] with [setupAsteroid]. *)
Definition createAsteroid (f : Frame) (s : State) : State :=
  match created f with
  | None => s
  | Some asteroid => set_asteroids (asteroids s ++ [asteroid]) s
  end.

Definition spawnAsteroidsIfNeeded (f : Frame) (s : State) : State :=
  if laterThan (now f) (lastAsteroidSpawnTime s) ASTEROID_SPAWN_INTERVAL
     && (length (asteroids s) <? ASTEROID_MAX_COUNT)%nat
  then set_lastAsteroidSpawnTime (Finite (now f)) (createAsteroid f s)
  else s.

(** [endGame()] *)
Definition endGame (s : State) : State :=
  let s1 := console_log "Game Over!" s in
  let s2 := set_isGameOver true s1 in
  let s3 := set_playerShip None s2 in
  let s4 := set_asteroids [] s3 in
  let s5 := set_bullets [] s4 in
  console_log "Cleaned up game objects." s5.

(** [playerHit()]; [t] is the reading of [Date.now()]. *)
Definition playerHit (t : Z) (s : State) : State :=
  let s1 := set_lives (lives s - 1) s in
  let s2 := set_playerVelocity Vector3_Zero s1 in
  if (0 <? lives s2)%Z then
    match playerShip s2 with
    | Some ship =>
        let ship1 := set_position Vector3_Zero ship in
        let ship2 := set_rotation spawnRotation ship1 in
        let s3 := set_playerVelocity Vector3_Zero s2 in
        let ship3 := setEnabled false (set_isVisible false ship2) in
        let s4 := set_playerShip (Some ship3) s3 in
        let s5 := set_playerInvincible true s4 in
        let s6 := set_playerRespawnTime t s5 in
        console_log "Player respawned, invincible for 3 sec" s6
    | None => s2
    end
  else
    match playerShip s2 with
    | Some ship =>
        set_playerShip (Some (setEnabled false (set_isVisible false ship)))
                       s2
    | None => s2
    end.

Section WithEngine.
Context {E : Babylon}.

(** The inner loop over asteroids, from index [n - 1] down: the index
    of the first asteroid that [mesh] intersects, where the loop
    [break]s. *)
Fixpoint findHit {M : Type} (mesh : Mesh M) (n : nat) (l : list Asteroid)
  : option nat :=
  match n with
  | O => None
  | S j =>
      match nth_error l j with
      | None => findHit mesh j l
      | Some asteroid =>
          if intersectsMesh mesh asteroid then Some j
          else findHit mesh j l
      end
  end.

(** The body of the bullet loop of [checkCollisions] at index [i]. *)
Definition bulletLoop_body (i : nat) (s : State) : State :=
  match nth_error (bullets s) i with
  | None => s
  | Some bullet =>
      match findHit bullet (length (asteroids s)) (asteroids s) with
      | Some j =>
          let s1 := set_asteroids (splice j (asteroids s)) s in
          let s2 := set_bullets (splice i (bullets s1)) s1 in
          set_score (score s2 + 100) s2
      | None => s
      end
  end.

(** The player loop of [checkCollisions]. *)
Definition playerLoop (t : Z) (s : State) : State :=
  match playerShip s with
  | Some ship =>
      if isEnabled ship && negb (playerInvincible s) then
        match findHit ship (length (asteroids s)) (asteroids s) with
        | Some j =>
            let s1 := console_log "Player hit by asteroid!" s in
            let s2 := playerHit t s1 in
            set_asteroids (splice j (asteroids s2)) s2
        | None => s
        end
      else s
  | None => s
  end.

Definition checkCollisions (t : Z) (s : State) : State :=
  playerLoop t (forDown (length (bullets s)) bulletLoop_body s).

(** [fireBullet()] *)
Definition fireBullet (s : State) : State :=
  match playerShip s with
  | None => s
  | Some ship =>
      if negb (isEnabled ship) then s
      else if negb hasCreateSphere then s
      else
        let forwardDirection :=
          normalize (scale (forward (rotation ship)) (-1)) in
        let bullet : Bullet :=
          mkMesh (position ship) Vector3_Zero true true false
                 (sphereBoundingRadius (2 # 10))
                 (Some (mkBulletMeta (scale forwardDirection BULLET_SPEED)
                                     BULLET_LIFETIME)) in
        set_bullets (bullets s ++ [bullet]) s
  end.

(** The player block at the head of [updateGameLogic]. *)
Definition movePlayer (s : State) : State :=
  match playerShip s with
  | Some ship =>
      if isEnabled ship then
        let ship1 :=
          set_position (add (position ship) (playerVelocity s)) ship in
        set_playerShip (Some (wrapAround ship1)) s
      else s
  | None => s
  end.

(** The invincibility block at the tail of [updateGameLogic]. *)
Definition updateInvincibility (t : Z) (s : State) : State :=
  match playerShip s with
  | Some ship =>
      if playerInvincible s then
        if (playerRespawnTime s + RESPAWN_INVINCIBILITY_TIME <? t)%Z then
          let s1 := set_playerInvincible false s in
          let s2 := set_playerShip
                      (Some (setEnabled true (set_isVisible true ship)))
                      s1 in
          console_log "Player no longer invincible" s2
        else
          let visible := (Z.rem (t / 150) 2 =? 0)%Z in
          set_playerShip (Some (set_isVisible visible ship)) s
      else s
  | None => s
  end.

(** [updateGameLogic()], the per-frame callback. *)
Definition updateGameLogic (f : Frame) (s : State) : State :=
  if isGameOver s then s
  else
    let s1 := movePlayer s in
    let s2 := set_bullets (updateBullets (bullets s1)) s1 in
    let s3 := set_asteroids (updateAsteroids (asteroids s2)) s2 in
    let s4 := spawnAsteroidsIfNeeded f s3 in
    let s5 := checkCollisions (now f) s4 in
    let s6 := if (lives s5 <=? 0)%Z && negb (isGameOver s5)
              then endGame s5 else s5 in
    updateInvincibility (now f) s6.

(** The trigger callback of [setupXRInput]. *)
Definition onTrigger (pressed : bool) (s : State) : State :=
  match playerShip s with
  | Some ship =>
      if pressed && negb (isGameOver s) && isEnabled ship
      then fireBullet s else s
  | None => s
  end.

(** The thumbstick callback of [setupXRInput]. *)
Definition onThumbstick (axes_x axes_y : Q) (s : State) : State :=
  if isGameOver s then s
  else
    match playerShip s with
    | None => s
    | Some ship =>
        if negb (isEnabled ship) then s
        else
          let r := rotation ship in
          let ship1 :=
            if Qltb axes_x (- (1 # 10))
            then set_rotation
                   (vec3 (vx r) (vy r - PLAYER_ROTATION_SPEED) (vz r)) ship
            else if Qgtb axes_x (1 # 10)
            then set_rotation
                   (vec3 (vx r) (vy r + PLAYER_ROTATION_SPEED) (vz r)) ship
            else ship in
          let s1 := set_playerShip (Some ship1) s in
          if Qltb axes_y (- (1 # 10)) then
            let fwd := scale (forward (rotation ship1)) (- PLAYER_SPEED) in
            set_playerVelocity
              (scale (add (playerVelocity s1) fwd) (98 # 100)) s1
          else s1
    end.

Inductive Action : Type :=
| Render (f : Frame)
| TriggerChanged (pressed : bool)
| ThumbstickMoved (axes_x axes_y : Q).

Definition perform (a : Action) (s : State) : State :=
  match a with
  | Render f => updateGameLogic f s
  | TriggerChanged pressed => onTrigger pressed s
  | ThumbstickMoved x y => onThumbstick x y s
  end.

Definition run (acts : list Action) (s : State) : State :=
  fold_left (fun st a => perform a st) acts s.

Inductive reachable : State -> Prop :=
| reachable_init : forall s, started s -> reachable s
| reachable_step : forall a s, reachable s -> reachable (perform a s).
End WithEngine.

End GameJs.

(* ================================================================== *)
(** ** A concrete engine for running the model

    Exact on what the examples use: a vector along one coordinate axis is
    divided by its length; a mesh at the ship's spawn rotation (a quarter
    turn about X) faces along -Y, up to the rounding of the cosine, and
    any other is taken as unrotated, facing along +Z; [intersectsMesh]
    is decided on bounding spheres. *)

Definition isZero (q : Q) : bool := Qeq_bool q 0.

Definition exampleNormalize (v : Vec3) : Vec3 :=
  let n := Qabs (vx v) + Qabs (vy v) + Qabs (vz v) in
  let onAxis :=
    (isZero (vx v) && isZero (vy v)) || (isZero (vx v) && isZero (vz v))
    || (isZero (vy v) && isZero (vz v)) in
  if onAxis && negb (isZero n) then scale v (/ n) else v.

Definition exampleForward (r : Vec3) : Vec3 :=
  if Qeq_bool (vx r) (Math_PI / 2) && isZero (vy r) && isZero (vz r)
  then vec3 0 (-1) 0
  else vec3 0 0 1.

Definition exampleEngine : Babylon := {|
  normalize := exampleNormalize;
  forward := exampleForward;
  hasCreateSphere := true;
  sphereBoundingRadius := fun d => d / 2;
  intersectsMesh := fun _ _ a b => intersectsSphere a b
|}.

(** The same engine in a build without [MeshBuilder.CreateSphere]. *)
Definition engineWithoutCreateSphere : Babylon := {|
  normalize := exampleNormalize;
  forward := exampleForward;
  hasCreateSphere := false;
  sphereBoundingRadius := fun d => d / 2;
  intersectsMesh := fun _ _ a b => intersectsSphere a b
|}.

(* ================================================================== *)
(** ** Vocabulary of the statements, and example data *)

(** A ship that has left the play area on two sides: x = 32.5, z = -40. *)
Definition wrapExampleMesh : Ship :=
  mkMesh (vec3 (65 # 2) 0 (- (40))) spawnRotation true true false 1 (Some tt).

(** What one pass of the loop of [updateBullets] leaves of one bullet. *)
Definition Part000_bulletAfter (bullet : Bullet) : list Bullet :=
  match metadata bullet with
  | None => []
  | Some md =>
      let p := add (position bullet) (bulletVelocity md) in
      if (life md - 1 <=? 0)%Z || Part000.isOutOfBounds p then []
      else [set_metadata (Some (mkBulletMeta (bulletVelocity md) (life md - 1)))
                         (set_position p bullet)]
  end.

Definition GameJs_bulletAfter (bullet : Bullet) : list Bullet :=
  match metadata bullet with
  | None => []
  | Some md =>
      let p := add (position bullet) (bulletVelocity md) in
      if (life md - 1 <=? 0)%Z || GameJs.isOutOfBounds p then []
      else [set_metadata (Some (mkBulletMeta (bulletVelocity md) (life md - 1)))
                         (set_position p bullet)]
  end.

(** A bullet resting at the origin with [n] frames left. *)
Definition restingBullet (n : Z) : Bullet :=
  mkMesh Vector3_Zero Vector3_Zero true true false (1 # 10)
         (Some (mkBulletMeta Vector3_Zero n)).

(** The player state machine of the specification, read off the globals:
    no ship is Dead; a ship under [playerInvincible] is Invincible; an
    enabled ship is Alive; a disabled ship that is not invincible (what
    [game.js] leaves after the last life) is Dead. *)
Inductive PlayerState : Type := Alive | Invincible | Dead.

Definition playerState (s : State) : PlayerState :=
  match playerShip s with
  | None => Dead
  | Some ship =>
      if playerInvincible s then Invincible
      else if isEnabled ship then Alive
      else Dead
  end.

(** The instant the scripts compare [Date.now()] with. *)
Definition invincibleUntil (s : State) : Z :=
  (playerRespawnTime s + RESPAWN_INVINCIBILITY_TIME)%Z.

(** How often the game-over effect has been emitted. *)
Definition gameOverCount (s : State) : nat :=
  count_occ string_dec (console s) "Game Over!"%string.

(** The ship stands at its spawn pose. *)
Definition atSpawn (s : State) : Prop :=
  exists ship, playerShip s = Some ship
               /\ position ship = Vector3_Zero
               /\ rotation ship = spawnRotation.

(** The score moved from [a] to [b] by whole rewards of 100. *)
Definition rewarded (a b : Z) : Prop :=
  exists k : Z, (0 <= k)%Z /\ b = (a + 100 * k)%Z.

(** A mesh that has not been disposed of. *)
Definition live {M : Type} (m : Mesh M) : Prop := isDisposed m = false.

(** What holds of every state the cockpit variant can reach. *)
Record Part000_Inv (s : State) : Prop := mkPart000_Inv {
  p_count : (length (asteroids s) <= ASTEROID_MAX_COUNT)%nat;
  p_bullets : Forall live (bullets s);
  p_score : score s = 0%Z;
  p_invincible : forall ship,
      playerShip s = Some ship -> playerInvincible s = true ->
      isEnabled ship = false;
  p_ship : forall ship, playerShip s = Some ship -> live ship;
  p_over : isGameOver s = true ->
           playerShip s = None /\ bullets s = [] /\ asteroids s = [];
  p_once : gameOverCount s = if isGameOver s then 1%nat else 0%nat
}.

(** What holds of every state [game.js] can reach. *)
Record GameJs_Inv (s : State) : Prop := mkGameJs_Inv {
  g_count : (length (asteroids s) <= ASTEROID_MAX_COUNT)%nat;
  g_score : rewarded 0 (score s);
  g_invincible : forall ship,
      playerShip s = Some ship -> playerInvincible s = true ->
      isEnabled ship = false;
  g_over : isGameOver s = true ->
           playerShip s = None /\ bullets s = [] /\ asteroids s = [];
  g_once : gameOverCount s = if isGameOver s then 1%nat else 0%nat
}.

(** A phase of the frame that keeps an invariant, adds no asteroid and
    only rewards. *)
Definition gentle (Inv : State -> Prop) (phase : State -> State) : Prop :=
  forall s,
    (Inv s -> Inv (phase s))
    /\ (length (asteroids (phase s)) <= length (asteroids s))%nat
    /\ rewarded (score s) (score (phase s)).

(** The globals of the player state machine, and the console, agree in
    two states. *)
Definition samePlayer (s s' : State) : Prop :=
  playerShip s' = playerShip s
  /\ playerInvincible s' = playerInvincible s
  /\ playerRespawnTime s' = playerRespawnTime s
  /\ lives s' = lives s
  /\ isGameOver s' = isGameOver s
  /\ console s' = console s.

(** The ship after a hit that leaves lives: at its spawn pose, hidden and
    disabled. *)
Definition respawnedShip (ship : Ship) : Ship :=
  setEnabled false
    (set_isVisible false
       (set_rotation spawnRotation (set_position Vector3_Zero ship))).

(** A session that has just started. *)
Definition freshGame : State := initialState (Some (theShip 1)).



(** A game in which a live bullet has flown into a live asteroid, far
    from the ship: the bullet (bounding radius 0.1), 28 frames after it
    was fired from the origin, is at (0, 20.2, 0), the asteroid (bounding
    radius 1) at (0, 20.5, 0). *)
Definition overlappingBullet : Bullet :=
  mkMesh (vec3 0 (101 # 5) 0) Vector3_Zero true true false (1 # 10)
         (Some (mkBulletMeta (vec3 0 (7 # 10) 0) 52)).

Definition overlappingAsteroid : Asteroid :=
  mkMesh (vec3 0 (41 # 2) 0) Vector3_Zero true true false 1
         (Some (mkAsteroidMeta (vec3 (1 # 100) 0 0) 1 0)).

Definition overlapGame : State :=
  mkState 0 3 false (Some (theShip 1)) [overlappingBullet]
          [overlappingAsteroid] (Finite 7000) Vector3_Zero false 0 [].

(** An asteroid as [createAsteroid] may build it, on the +X face. *)
Definition newAsteroid : Asteroid :=
  mkMesh (vec3 30 4 (-7)) Vector3_Zero true true false 2
         (Some (mkAsteroidMeta (vec3 (- (3 # 100)) 0 0) 2 (1 # 100))).

(* ================================================================== *)
(** * The code around the claims *)

From Stdlib Require Import Qround Lqa.

(** Every coordinate of [p] lies between [- limit] and [limit]. *)
Definition within (limit : Q) (p : Vec3) : Prop :=
  forall ax, - limit <= coord ax p /\ coord ax p <= limit.

(** What one pass of the loop of [updateAsteroids] leaves of one
    asteroid. *)
Definition Part000_asteroidAfter (asteroid : Asteroid) : list Asteroid :=
  match metadata asteroid with
  | None => []
  | Some md =>
      let v := asteroidVelocity md in
      let r := rotation asteroid in
      [Part000.wrapAround
         (set_rotation (vec3 (vx r + rotationSpeed md * vy v)
                             (vy r + rotationSpeed md * vz v)
                             (vz r + rotationSpeed md * vx v))
                       (set_position (add (position asteroid) v) asteroid))]
  end.

Definition GameJs_asteroidAfter (asteroid : Asteroid) : list Asteroid :=
  match metadata asteroid with
  | None => []
  | Some md =>
      let v := asteroidVelocity md in
      let r := rotation asteroid in
      [GameJs.wrapAround
         (set_rotation (vec3 (vx r + vz v * (1 # 10))
                             (vy r + vx v * (1 # 10))
                             (vz r))
                       (set_position (add (position asteroid) v) asteroid))]
  end.

(** What holds of the player's globals in every state a script can
    reach; [limit] is the script's wrap limit. *)
Record Pilot_Inv (limit : Q) (s : State) : Prop := mkPilot_Inv {
  i_lives : (0 <= lives s <= INITIAL_LIVES)%Z;
  i_over : isGameOver s = true <-> (lives s <= 0)%Z;
  i_rest : playerInvincible s = true ->
           isGameOver s = false /\ playerVelocity s = Vector3_Zero
           /\ exists ship, playerShip s = Some ship
                           /\ position ship = Vector3_Zero
                           /\ rotation ship = spawnRotation
                           /\ isEnabled ship = false;
  i_enabled : forall ship,
      playerShip s = Some ship -> playerInvincible s = false ->
      isEnabled ship = true;
  i_box : forall ship,
      playerShip s = Some ship -> within limit (position ship)
}.

(** An asteroid of radius 2 lying still at the ship's spawn place. *)
Definition restingAsteroid : Asteroid :=
  mkMesh Vector3_Zero Vector3_Zero true true false 2
         (Some (mkAsteroidMeta Vector3_Zero 2 0)).

(** A session that is lost: an asteroid appears on top of the ship three
    times, each time as soon as the invincibility of the last hit is
    over. *)
Definition losingFrames : list Frame :=
  [mkFrame 1001 (Some restingAsteroid);
   mkFrame 4002 (Some restingAsteroid); mkFrame 4003 None;
   mkFrame 7004 (Some restingAsteroid); mkFrame 7005 None].

(** The same session after its first frame: two lives left, the player
    invincible. *)
Definition firstHitFrames : list Frame := [mkFrame 1001 (Some restingAsteroid)].

(** A short flight: the thumbstick pushed forward once, then two
    frames without input. *)
Definition flight : list Part000.Action :=
  [Part000.ThumbstickMoved 0 (- (1)); Part000.Render (mkFrame 16 None);
   Part000.Render (mkFrame 32 None)].

(** The bullets [fireBullet] makes for [ship]. *)
Definition Part000_bulletOf {E : Babylon} (ship : Ship) : Bullet :=
  let heading := normalize (scale (forward (rotation ship)) (-1)) in
  mkMesh (add (position ship) (scale heading (6 # 10))) Vector3_Zero true
         true false (sphereBoundingRadius (2 # 10))
         (Some (mkBulletMeta (scale heading Part000.BULLET_SPEED)
                             Part000.BULLET_LIFETIME)).

Definition GameJs_bulletOf {E : Babylon} (ship : Ship) : Bullet :=
  let heading := normalize (scale (forward (rotation ship)) (-1)) in
  mkMesh (position ship) Vector3_Zero true true false
         (sphereBoundingRadius (2 # 10))
         (Some (mkBulletMeta (scale heading GameJs.BULLET_SPEED)
                             GameJs.BULLET_LIFETIME)).

(* ================================================================== *)
(** * Building an asteroid: [createAsteroid] and [setupAsteroid]

    [Math.random] is modelled by the list of the numbers it returns next,
    each in [0, 1); a computation consumes a prefix of the list and is
    undefined when the list is too short to finish it. *)

Definition Random (A : Type) : Type := list Q -> option (A * list Q).

Definition ret {A : Type} (a : A) : Random A :=
  fun draws => Some (a, draws).

Definition bind {A B : Type} (m : Random A) (k : A -> Random B)
  : Random B :=
  fun draws =>
    match m draws with
    | Some (a, rest) => k a rest
    | None => None
    end.

(** [Math.random()] *)
Definition Math_random : Random Q :=
  fun draws =>
    match draws with
    | d :: rest => Some (d, rest)
    | [] => None
    end.

(** [Math.floor] *)
Definition Math_floor (q : Q) : Z := Qfloor q.

(** [new BABYLON.Vector3(f(Math.random()), f(Math.random()),
    f(Math.random()))]: the arguments are evaluated from left to right. *)
Definition randomVector (f : Q -> Q) : Random Vec3 :=
  bind Math_random (fun rx =>
  bind Math_random (fun ry =>
  bind Math_random (fun rz =>
  ret (vec3 (f rx) (f ry) (f rz))))).

(** The numbers [Math.random] may return. *)
Definition unitDraws (draws : list Q) : Prop :=
  Forall (fun d => 0 <= d /\ d < 1) draws.

Definition ASTEROID_MIN_SPEED : Q := 1 # 100.
Definition ASTEROID_MAX_SPEED : Q := 4 # 100.

(** [ASTEROID_MIN_SPEED + Math.random() * (ASTEROID_MAX_SPEED -
    ASTEROID_MIN_SPEED)] *)
Definition randomSpeed : Random Q :=
  bind Math_random (fun r =>
  ret (ASTEROID_MIN_SPEED + r * (ASTEROID_MAX_SPEED - ASTEROID_MIN_SPEED))).

(** [v.x = c], [v.y = c], [v.z = c] *)
Definition set_coord (ax : Axis) (c : Q) (v : Vec3) : Vec3 :=
  match ax with
  | AxisX => vec3 c (vy v) (vz v)
  | AxisY => vec3 (vx v) c (vz v)
  | AxisZ => vec3 (vx v) (vy v) c
  end.

(** The point lies on a face of the cube of half side [PLAY_AREA_SIZE]. *)
Definition onFace (p : Vec3) : Prop :=
  within PLAY_AREA_SIZE p
  /\ exists ax, coord ax p = PLAY_AREA_SIZE \/ coord ax p = - PLAY_AREA_SIZE.

(** ** [src/game.js] *)

Module GameJsSpawn.

(** The [switch (edge)] of [setupAsteroid]; no case matches an [edge]
    outside 0..5. *)
Definition placeOnEdge (edge : Z) (spawnPos : Vec3) : Vec3 :=
  match edge with
  | 0%Z => set_coord AxisX PLAY_AREA_SIZE spawnPos
  | 1%Z => set_coord AxisX (- PLAY_AREA_SIZE) spawnPos
  | 2%Z => set_coord AxisY PLAY_AREA_SIZE spawnPos
  | 3%Z => set_coord AxisY (- PLAY_AREA_SIZE) spawnPos
  | 4%Z => set_coord AxisZ PLAY_AREA_SIZE spawnPos
  | 5%Z => set_coord AxisZ (- PLAY_AREA_SIZE) spawnPos
  | _ => spawnPos
  end.

Section WithEngine.
Context {E : Babylon}.

(** [setupAsteroid(asteroid, size, scene)] up to the push on
    [asteroids]; the material is not part of the model.  The metadata of
    [game.js] has no [rotationSpeed]; the field is never read and is set
    to 0 here. *)
Definition setupAsteroid (asteroid : Asteroid) (size : Q) : Random Asteroid :=
  bind Math_random (fun r =>
  let edge := Math_floor (r * 6) in
  bind (randomVector (fun c => (c * 2 - 1) * PLAY_AREA_SIZE)) (fun spawnPos =>
  let placed := set_position (placeOnEdge edge spawnPos) asteroid in
  bind randomSpeed (fun speed =>
  bind (randomVector (fun c => c - (1 # 2))) (fun direction =>
  let velocity := scale (normalize direction) speed in
  ret (set_metadata (Some (mkAsteroidMeta velocity size 0)) placed))))).

(** [createAsteroid()] in an engine that has its scene, up to the push:
    [builder] is [MeshBuilder.CreateIcosahedron] or, failing that,
    [CreateIcoSphere], as a function of the radius, and [None] when
    neither exists; nothing is drawn then. *)
Definition createAsteroid (builder : option (Q -> Asteroid))
  : Random (option Asteroid) :=
  match builder with
  | None => ret None
  | Some build =>
      bind Math_random (fun r =>
      let size := 1 + r * 2 in
      bind (setupAsteroid (build size) size) (fun asteroid =>
      ret (Some asteroid)))
  end.
End WithEngine.

End GameJsSpawn.

(** ** The cockpit variant *)

Module Part000Spawn.

(** One pass of the body of the [do ... while] loop of [setupAsteroid]. *)
Definition samplePosition : Random Vec3 :=
  let edgeDist := PLAY_AREA_SIZE * (8 # 10) in
  bind (randomVector (fun c => (c * 2 - 1) * edgeDist)) (fun spawnPos =>
  bind Math_random (fun ra =>
  let axis := Math_floor (ra * 3) in
  bind Math_random (fun rs =>
  let side := if Qltb rs (1 # 2) then - (1) else 1 in
  ret (if (axis =? 0)%Z then set_coord AxisX (PLAY_AREA_SIZE * side) spawnPos
       else if (axis =? 1)%Z
       then set_coord AxisY (PLAY_AREA_SIZE * side) spawnPos
       else set_coord AxisZ (PLAY_AREA_SIZE * side) spawnPos)))).

(** The loop condition:
    [playerShip && spawnPos.subtract(playerShip.position).lengthSquared()
    < 100]. *)
Definition tooClose (ship : option Ship) (spawnPos : Vec3) : bool :=
  match ship with
  | Some sh => Qltb (lengthSquared (subtract spawnPos (position sh))) 100
  | None => false
  end.

(** The [do ... while] loop, at most [passes] times. *)
Fixpoint sampleLoop (passes : nat) (ship : option Ship) : Random Vec3 :=
  match passes with
  | O => fun _ => None
  | S n =>
      bind samplePosition (fun spawnPos =>
      if tooClose ship spawnPos then sampleLoop n ship else ret spawnPos)
  end.

Section WithEngine.
Context {E : Babylon}.

(** [setupAsteroid(asteroid, size, scene)] up to the push on
    [asteroids]; [ship] is the global [playerShip].  Every pass of the
    loop draws five numbers, so the loop makes no more passes than there
    are numbers.  [standardMaterial] is
    [typeof BABYLON.StandardMaterial === 'function']: the material is not
    part of the model, but colouring it draws three more numbers. *)
Definition setupAsteroid (ship : option Ship) (standardMaterial : bool)
           (asteroid : Asteroid) (size : Q) : Random Asteroid :=
  fun draws =>
    bind (sampleLoop (length draws) ship) (fun spawnPos =>
    let placed := set_position spawnPos asteroid in
    bind randomSpeed (fun speed =>
    bind (randomVector
            (fun c => (c - (1 # 2)) * PLAY_AREA_SIZE * (1 # 2)))
         (fun targetPoint =>
    let velocity :=
      scale (normalize (subtract targetPoint (position placed))) speed in
    bind Math_random (fun rr =>
    let rotationSpeed := (rr - (1 # 2)) * (1 # 10) in
    let made :=
      set_metadata (Some (mkAsteroidMeta velocity size rotationSpeed))
                   placed in
    if standardMaterial
    then bind (randomVector (fun c => (c - (1 # 2)) * (2 # 10)))
              (fun _ => ret made)
    else ret made)))) draws.

(** [createAsteroid()] in an engine that has its scene, up to the push,
    with a builder that does not throw: the size is drawn before the
    builders are looked up. *)
Definition createAsteroid (ship : option Ship) (standardMaterial : bool)
           (builder : option (Q -> Asteroid)) : Random (option Asteroid) :=
  bind Math_random (fun r =>
  let size := 1 + r * 2 in
  match builder with
  | None => ret None
  | Some build =>
      bind (setupAsteroid ship standardMaterial (build size) size)
           (fun asteroid => ret (Some asteroid))
  end).
End WithEngine.

End Part000Spawn.

(** The engine's icosahedron of radius [r], as the examples use it: at
    the origin, unrotated, with bounding radius [r]. *)
Definition exampleIcosahedron (r : Q) : Asteroid :=
  mkMesh Vector3_Zero Vector3_Zero true true false r None.

(** Numbers [Math.random] may return. *)
Definition exampleDraws : list Q :=
  [1 # 2; 1 # 4; 1 # 10; 9 # 10; 1 # 2; 0; 3 # 4; 1 # 2; 1 # 2; 1 # 3;
   7 # 10; 2 # 10; 6 # 10; 1 # 2].

(** A bullet that carries its metadata, with between 1 and [lifetime]
    frames left. *)
Definition inFlight (lifetime : Z) (b : Bullet) : Prop :=
  exists md, metadata b = Some md /\ (1 <= life md <= lifetime)%Z.




(* ================================================================== *)
(** * Properties *)

(** ** Comparisons *)

Lemma Qgtb_true_iff (a b : Q) : Qgtb a b = true <-> b < a.
Proof.
  unfold Qgtb. rewrite negb_true_iff. split; intro H.
  - apply Qnot_le_lt. intro Hle. apply Qle_bool_iff in Hle. congruence.
  - destruct (Qle_bool a b) eqn:Hb; [|reflexivity].
    apply Qle_bool_iff in Hb. exfalso. exact (Qlt_not_le _ _ H Hb).
Qed.

Lemma Qltb_true_iff (a b : Q) : Qltb a b = true <-> a < b.
Proof. exact (Qgtb_true_iff b a). Qed.

Lemma Qgtb_false_iff (a b : Q) : Qgtb a b = false <-> a <= b.
Proof.
  unfold Qgtb. rewrite negb_false_iff. apply Qle_bool_iff.
Qed.

(** ** Wrap-around *)

Lemma wrapAxis_above (limit c : Q) : limit < c -> wrapAxis limit c = - limit.
Proof.
  intro H. unfold wrapAxis.
  apply Qgtb_true_iff in H. now rewrite H.
Qed.

Lemma wrapAxis_below (limit c : Q) :
  0 <= limit -> c < - limit -> wrapAxis limit c = limit.
Proof.
  intros Hpos H. unfold wrapAxis.
  assert (Hle : c <= limit).
  { apply Qlt_le_weak. eapply Qlt_le_trans; [exact H|].
    apply Qle_trans with 0; [|exact Hpos].
    rewrite <- (Qopp_involutive 0). apply Qopp_le_compat. exact Hpos. }
  apply Qgtb_false_iff in Hle. rewrite Hle.
  apply Qltb_true_iff in H. now rewrite H.
Qed.

Lemma wrapAxis_inside (limit c : Q) :
  - limit <= c -> c <= limit -> wrapAxis limit c = c.
Proof.
  intros Hlo Hhi. unfold wrapAxis.
  apply Qgtb_false_iff in Hhi. rewrite Hhi.
  apply (Qgtb_false_iff (- limit) c) in Hlo.
  unfold Qltb. unfold Qgtb in Hlo. now rewrite Hlo.
Qed.

Lemma Part000_wrapAround_coord {M : Type} (mesh : Mesh M) (ax : Axis) :
  coord ax (position (Part000.wrapAround mesh))
  = wrapAxis Part000.wrapLimit (coord ax (position mesh)).
Proof. destruct ax; reflexivity. Qed.

Lemma GameJs_wrapAround_coord {M : Type} (mesh : Mesh M) (ax : Axis) :
  coord ax (position (GameJs.wrapAround mesh))
  = wrapAxis PLAY_AREA_SIZE (coord ax (position mesh)).
Proof. destruct ax; reflexivity. Qed.

(** C2.  One application of [wrapAround] teleports: on every axis, a
    coordinate above the half extent becomes exactly minus the half
    extent, a coordinate below minus the half extent becomes exactly the
    half extent, and a coordinate [halfExtent + eps] with [eps > 0]
    becomes [- halfExtent].  The half extent is [PLAY_AREA_SIZE + 2] in the
    cockpit variant and [PLAY_AREA_SIZE] in [game.js]. *)
Theorem wrapAround_teleports {M : Type} (mesh : Mesh M) (ax : Axis) :
  let c := coord ax (position mesh) in
  let c1 := coord ax (position (Part000.wrapAround mesh)) in
  let c2 := coord ax (position (GameJs.wrapAround mesh)) in
  (Part000.wrapLimit < c -> c1 = - Part000.wrapLimit)
  /\ (c < - Part000.wrapLimit -> c1 = Part000.wrapLimit)
  /\ (forall eps, 0 < eps -> c == Part000.wrapLimit + eps ->
      c1 = - Part000.wrapLimit)
  /\ (PLAY_AREA_SIZE < c -> c2 = - PLAY_AREA_SIZE)
  /\ (c < - PLAY_AREA_SIZE -> c2 = PLAY_AREA_SIZE)
  /\ (forall eps, 0 < eps -> c == PLAY_AREA_SIZE + eps ->
      c2 = - PLAY_AREA_SIZE).
Proof.
  cbv zeta.
  rewrite Part000_wrapAround_coord, GameJs_wrapAround_coord.
  assert (Hgrow : forall l eps, 0 < eps -> l < l + eps).
  { intros l eps Heps. rewrite <- (Qplus_0_r l) at 1.
    apply Qplus_lt_r. exact Heps. }
  repeat split.
  - apply wrapAxis_above.
  - apply wrapAxis_below. discriminate.
  - intros eps Heps Hc. apply wrapAxis_above. rewrite Hc. now apply Hgrow.
  - apply wrapAxis_above.
  - apply wrapAxis_below. discriminate.
  - intros eps Heps Hc. apply wrapAxis_above. rewrite Hc. now apply Hgrow.
Qed.

Lemma wrapAround_teleports_witness :
  vx (position (Part000.wrapAround wrapExampleMesh)) = - Part000.wrapLimit
  /\ vz (position (Part000.wrapAround wrapExampleMesh)) = Part000.wrapLimit.
Proof.
  split.
  - apply (proj1 (wrapAround_teleports wrapExampleMesh AxisX)).
    reflexivity.
  - apply (proj1 (proj2 (wrapAround_teleports wrapExampleMesh AxisZ))).
    reflexivity.
Defined.

(** ** Arrays traversed from the last index down *)

Lemma nth_error_middle {A : Type} (l1 : list A) (x : A) (l2 : list A) :
  nth_error (l1 ++ x :: l2) (length l1) = Some x.
Proof.
  rewrite nth_error_app2 by lia. now rewrite Nat.sub_diag.
Qed.

Lemma firstn_middle {A : Type} (l1 l2 : list A) :
  firstn (length l1) (l1 ++ l2) = l1.
Proof.
  rewrite firstn_app, Nat.sub_diag, firstn_all. simpl. apply app_nil_r.
Qed.

Lemma skipn_middle {A : Type} (l1 : list A) (x : A) (l2 : list A) :
  skipn (S (length l1)) (l1 ++ x :: l2) = l2.
Proof.
  induction l1 as [|y l1 IH]; simpl; [reflexivity|exact IH].
Qed.

Lemma splice_middle {A : Type} (l1 : list A) (x : A) (l2 : list A) :
  splice (length l1) (l1 ++ x :: l2) = l1 ++ l2.
Proof.
  unfold splice. now rewrite firstn_middle, skipn_middle.
Qed.

Lemma store_middle {A : Type} (l1 : list A) (x y : A) (l2 : list A) :
  store (length l1) y (l1 ++ x :: l2) = l1 ++ y :: l2.
Proof.
  unfold store. now rewrite firstn_middle, skipn_middle.
Qed.

Lemma splice_length_le {A : Type} (i : nat) (l : list A) :
  (length (splice i l) <= length l)%nat.
Proof.
  unfold splice. rewrite length_app, length_firstn, length_skipn. lia.
Qed.

Lemma splice_nil {A : Type} (i : nat) : splice i (@nil A) = [].
Proof. unfold splice. now rewrite firstn_nil, skipn_nil. Qed.

(** A loop whose body replaces the element at its index by the elements
    [f] gives for it computes [flat_map f]. *)
Lemma forDown_flat_map {A : Type} (body : nat -> list A -> list A)
      (f : A -> list A) :
  (forall l1 x l2, body (length l1) (l1 ++ x :: l2) = l1 ++ f x ++ l2) ->
  forall l1 l2, forDown (length l1) body (l1 ++ l2) = flat_map f l1 ++ l2.
Proof.
  intros Hbody l1. induction l1 as [|x l IH] using rev_ind; intro l2.
  - reflexivity.
  - rewrite length_app, Nat.add_1_r. simpl forDown.
    rewrite <- app_assoc. simpl app. rewrite Hbody, IH.
    rewrite flat_map_app. simpl. now rewrite app_nil_r, <- app_assoc.
Qed.

Lemma forDown_invariant {S : Type} (P : S -> Prop) (body : nat -> S -> S) :
  (forall i s, P s -> P (body i s)) ->
  forall n s, P s -> P (forDown n body s).
Proof.
  intros Hbody n. induction n as [|n IH]; intros s Hs; simpl.
  - exact Hs.
  - apply IH, Hbody, Hs.
Qed.

Lemma forDown_fixed {S : Type} (body : nat -> S -> S) (s : S) :
  (forall i, body i s = s) -> forall n, forDown n body s = s.
Proof.
  intros Hbody n. induction n as [|n IH]; simpl.
  - reflexivity.
  - now rewrite Hbody.
Qed.

(** ** Bullets: movement and lifetime *)

Lemma Part000_updateBullets_flat_map (bs : list Bullet) :
  Part000.updateBullets bs = flat_map Part000_bulletAfter bs.
Proof.
  unfold Part000.updateBullets.
  rewrite <- (app_nil_r bs) at 2.
  rewrite (forDown_flat_map Part000.updateBullets_body Part000_bulletAfter).
  - apply app_nil_r.
  - intros l1 x l2. unfold Part000.updateBullets_body, Part000_bulletAfter.
    rewrite nth_error_middle.
    destruct (metadata x) as [md|]; [|apply splice_middle].
    cbv zeta. simpl life.
    destruct ((life md - 1 <=? 0)%Z || Part000.isOutOfBounds _).
    + apply splice_middle.
    + apply store_middle.
Qed.

Lemma GameJs_updateBullets_flat_map (bs : list Bullet) :
  GameJs.updateBullets bs = flat_map GameJs_bulletAfter bs.
Proof.
  unfold GameJs.updateBullets.
  rewrite <- (app_nil_r bs) at 2.
  rewrite (forDown_flat_map GameJs.updateBullets_body GameJs_bulletAfter).
  - apply app_nil_r.
  - intros l1 x l2. unfold GameJs.updateBullets_body, GameJs_bulletAfter.
    rewrite nth_error_middle.
    destruct (metadata x) as [md|]; [|apply splice_middle].
    cbv zeta. simpl life.
    destruct ((life md - 1 <=? 0)%Z || GameJs.isOutOfBounds _).
    + apply splice_middle.
    + apply store_middle.
Qed.





(** *** A frame without asteroids *)

Section QuietFrame.
Context {E : Babylon}.

Lemma Part000_findHit_nil {M : Type} (mesh : Mesh M) (n : nat) :
  Part000.findHit mesh n [] = None.
Proof.
  induction n as [|n IH]; simpl; [reflexivity|].
  now rewrite nth_error_nil.
Qed.

Lemma Part000_bulletLoop_no_asteroids (n : nat) (s : State) :
  asteroids s = [] -> forDown n Part000.bulletLoop_body s = s.
Proof.
  intro Hnil. apply forDown_fixed. intro i.
  unfold Part000.bulletLoop_body.
  destruct (nth_error (bullets s) i) as [b|]; [|reflexivity].
  destruct (negb (isDisposed b)); [reflexivity|].
  now rewrite Hnil, Part000_findHit_nil.
Qed.

Lemma Part000_checkCollisions_no_asteroids (t : Z) (s : State) :
  asteroids s = [] -> Part000.checkCollisions t s = s.
Proof.
  intro Hnil. unfold Part000.checkCollisions.
  rewrite Part000_bulletLoop_no_asteroids by exact Hnil.
  unfold Part000.playerLoop.
  destruct (playerShip s) as [ship|]; [|reflexivity].
  destruct (isEnabled ship && negb (playerInvincible s)); [|reflexivity].
  now rewrite Hnil, Part000_findHit_nil.
Qed.

Lemma Part000_quiet_frame (f : Frame) (s : State) :
  isGameOver s = false -> (0 < lives s)%Z -> asteroids s = [] ->
  created f = None ->
  bullets (Part000.updateGameLogic f s) = Part000.updateBullets (bullets s).
Proof.
  intros Hover Hlives Hnil Hnone.
  unfold Part000.updateGameLogic. rewrite Hover.
  set (s1 := Part000.movePlayer s).
  assert (H1 : bullets s1 = bullets s /\ asteroids s1 = [] /\
               lives s1 = lives s /\ isGameOver s1 = false).
  { unfold s1, Part000.movePlayer.
    destruct (playerShip s) as [ship|]; [|now repeat split].
    destruct (isEnabled ship); now repeat split. }
  destruct H1 as (Hb1 & Ha1 & Hl1 & Ho1).
  set (s2 := set_bullets (Part000.updateBullets (bullets s1)) s1).
  set (s3 := set_asteroids (Part000.updateAsteroids (asteroids s2)) s2).
  assert (Ha3 : asteroids s3 = []).
  { unfold s3, s2. simpl. now rewrite Ha1. }
  set (s4 := Part000.spawnAsteroidsIfNeeded f s3).
  assert (H4 : bullets s4 = bullets s3 /\ asteroids s4 = [] /\
               lives s4 = lives s3 /\ isGameOver s4 = false).
  { unfold s4, Part000.spawnAsteroidsIfNeeded, Part000.createAsteroid.
    rewrite Hnone.
    destruct (_ && _ && _); simpl; now repeat split. }
  destruct H4 as (Hb4 & Ha4 & Hl4 & Ho4).
  rewrite Part000_checkCollisions_no_asteroids by exact Ha4.
  assert (Hl : (lives s4 <=? 0)%Z = false).
  { apply Z.leb_gt. rewrite Hl4. unfold s3, s2. simpl. now rewrite Hl1. }
  rewrite Hl. simpl andb. cbv iota.
  assert (Hinv : forall t st,
             bullets (Part000.updateInvincibility t st) = bullets st).
  { intros t st. unfold Part000.updateInvincibility.
    destruct (playerShip st); [|reflexivity].
    destruct (playerInvincible st); [|reflexivity].
    destruct (_ <? _)%Z; reflexivity. }
  rewrite Hinv, Hb4. unfold s3, s2. simpl. now rewrite Hb1.
Qed.

Lemma GameJs_findHit_nil {M : Type} (mesh : Mesh M) (n : nat) :
  GameJs.findHit mesh n [] = None.
Proof.
  induction n as [|n IH]; simpl; [reflexivity|].
  now rewrite nth_error_nil.
Qed.

Lemma GameJs_checkCollisions_no_asteroids (t : Z) (s : State) :
  asteroids s = [] -> GameJs.checkCollisions t s = s.
Proof.
  intro Hnil. unfold GameJs.checkCollisions.
  rewrite forDown_fixed.
  - unfold GameJs.playerLoop.
    destruct (playerShip s) as [ship|]; [|reflexivity].
    destruct (isEnabled ship && negb (playerInvincible s)); [|reflexivity].
    now rewrite Hnil, GameJs_findHit_nil.
  - intro i. unfold GameJs.bulletLoop_body.
    destruct (nth_error (bullets s) i) as [b|]; [|reflexivity].
    now rewrite Hnil, GameJs_findHit_nil.
Qed.

Lemma GameJs_quiet_frame (f : Frame) (s : State) :
  isGameOver s = false -> (0 < lives s)%Z -> asteroids s = [] ->
  created f = None ->
  bullets (GameJs.updateGameLogic f s) = GameJs.updateBullets (bullets s).
Proof.
  intros Hover Hlives Hnil Hnone.
  unfold GameJs.updateGameLogic. rewrite Hover.
  set (s1 := GameJs.movePlayer s).
  assert (H1 : bullets s1 = bullets s /\ asteroids s1 = [] /\
               lives s1 = lives s /\ isGameOver s1 = false).
  { unfold s1, GameJs.movePlayer.
    destruct (playerShip s) as [ship|]; [|now repeat split].
    destruct (isEnabled ship); now repeat split. }
  destruct H1 as (Hb1 & Ha1 & Hl1 & Ho1).
  set (s2 := set_bullets (GameJs.updateBullets (bullets s1)) s1).
  set (s3 := set_asteroids (GameJs.updateAsteroids (asteroids s2)) s2).
  assert (Ha3 : asteroids s3 = []).
  { unfold s3, s2. simpl. now rewrite Ha1. }
  set (s4 := GameJs.spawnAsteroidsIfNeeded f s3).
  assert (H4 : bullets s4 = bullets s3 /\ asteroids s4 = [] /\
               lives s4 = lives s3 /\ isGameOver s4 = false).
  { unfold s4, GameJs.spawnAsteroidsIfNeeded, GameJs.createAsteroid.
    rewrite Hnone.
    destruct (_ && _); simpl; now repeat split. }
  destruct H4 as (Hb4 & Ha4 & Hl4 & Ho4).
  rewrite GameJs_checkCollisions_no_asteroids by exact Ha4.
  assert (Hl : (lives s4 <=? 0)%Z = false).
  { apply Z.leb_gt. rewrite Hl4. unfold s3, s2. simpl. now rewrite Hl1. }
  rewrite Hl. simpl andb. cbv iota.
  assert (Hinv : forall t st,
             bullets (GameJs.updateInvincibility t st) = bullets st).
  { intros t st. unfold GameJs.updateInvincibility.
    destruct (playerShip st); [|reflexivity].
    destruct (playerInvincible st); [|reflexivity].
    destruct (_ <? _)%Z; reflexivity. }
  rewrite Hinv, Hb4. unfold s3, s2. simpl. now rewrite Hb1.
Qed.
End QuietFrame.

(** ** Phases of a frame *)

Ltac break_match :=
  match goal with
  | |- context [match ?x with _ => _ end] => destruct x eqn:?
  end.

Lemma rewarded_refl (a : Z) : rewarded a a.
Proof. exists 0%Z. split; lia. Qed.

Lemma rewarded_trans (a b c : Z) : rewarded a b -> rewarded b c -> rewarded a c.
Proof.
  intros (k & Hk & ->) (m & Hm & ->). exists (k + m)%Z. split; lia.
Qed.

Lemma rewarded_once (a : Z) : rewarded a (a + 100).
Proof. exists 1%Z. split; lia. Qed.

Lemma rewarded_le (a b : Z) : rewarded a b -> (a <= b)%Z.
Proof. intros (k & Hk & ->). lia. Qed.

Lemma rewarded_mod (a b : Z) :
  rewarded a b -> (b mod 100 = a mod 100)%Z.
Proof.
  intros (k & Hk & ->). rewrite Z.mul_comm. apply Z_mod_plus_full.
Qed.

Create HintDb game.
#[export] Hint Resolve rewarded_refl rewarded_once : game.

Lemma gentle_id (Inv : State -> Prop) : gentle Inv (fun s => s).
Proof. intro s. repeat split; auto with game. Qed.

Lemma gentle_compose (Inv : State -> Prop) (f g : State -> State) :
  gentle Inv f -> gentle Inv g -> gentle Inv (fun s => g (f s)).
Proof.
  intros Hf Hg s. destruct (Hf s) as (If & Lf & Sf).
  destruct (Hg (f s)) as (Ig & Lg & Sg). repeat split.
  - auto.
  - lia.
  - eapply rewarded_trans; eassumption.
Qed.

Lemma gentle_forDown (Inv : State -> Prop) (body : nat -> State -> State) :
  (forall i, gentle Inv (body i)) ->
  forall n, gentle Inv (forDown n body).
Proof.
  intros Hbody n. induction n as [|n IH].
  - apply gentle_id.
  - simpl. apply (gentle_compose Inv (body n) (forDown n body)); auto.
Qed.

Lemma store_length {A : Type} (i : nat) (x y : A) (l : list A) :
  nth_error l i = Some x -> length (store i y l) = length l.
Proof.
  intro H. apply nth_error_split in H. destruct H as (l1 & l2 & -> & <-).
  now rewrite store_middle, !length_app.
Qed.

Lemma forDown_length_le {A : Type} (body : nat -> list A -> list A) :
  (forall i l, length (body i l) <= length l)%nat ->
  forall n l, (length (forDown n body l) <= length l)%nat.
Proof.
  intros Hbody n. induction n as [|n IH]; intro l; simpl; [lia|].
  specialize (IH (body n l)). specialize (Hbody n l). lia.
Qed.

Lemma Part000_updateAsteroids_length (l : list Asteroid) :
  (length (Part000.updateAsteroids l) <= length l)%nat.
Proof.
  apply forDown_length_le. clear l. intros i l.
  unfold Part000.updateAsteroids_body.
  destruct (nth_error l i) as [a|] eqn:Hi; [|apply splice_length_le].
  destruct (metadata a); [|apply splice_length_le].
  cbv zeta. erewrite store_length by exact Hi. lia.
Qed.

Lemma GameJs_updateAsteroids_length (l : list Asteroid) :
  (length (GameJs.updateAsteroids l) <= length l)%nat.
Proof.
  apply forDown_length_le. clear l. intros i l.
  unfold GameJs.updateAsteroids_body.
  destruct (nth_error l i) as [a|] eqn:Hi; [|apply splice_length_le].
  destruct (metadata a); [|apply splice_length_le].
  cbv zeta. erewrite store_length by exact Hi. lia.
Qed.

Lemma Part000_bulletAfter_live (b : Bullet) :
  live b -> Forall live (Part000_bulletAfter b).
Proof.
  intro Hb. unfold Part000_bulletAfter.
  destruct (metadata b) as [md|]; [|constructor].
  cbv zeta. destruct (_ || _); constructor; [exact Hb|constructor].
Qed.

Lemma Part000_updateBullets_live (bs : list Bullet) :
  Forall live bs -> Forall live (Part000.updateBullets bs).
Proof.
  intro H. rewrite Part000_updateBullets_flat_map.
  induction H as [|b l Hb Hl IH]; simpl; [constructor|].
  apply Forall_app. split; [now apply Part000_bulletAfter_live|exact IH].
Qed.

Lemma gentle_inv (Inv : State -> Prop) (f : State -> State) :
  gentle Inv f -> forall s, Inv s -> Inv (f s).
Proof. intros H s. apply (H s). Qed.

Lemma gentle_count (Inv : State -> Prop) (f : State -> State) :
  gentle Inv f ->
  forall s, (length (asteroids (f s)) <= length (asteroids s))%nat.
Proof. intros H s. apply (H s). Qed.

Lemma gentle_score (Inv : State -> Prop) (f : State -> State) :
  gentle Inv f -> forall s, rewarded (score s) (score (f s)).
Proof. intros H s. apply (H s). Qed.

Lemma count_game_over_app (l1 l2 : list string) :
  count_occ string_dec (l1 ++ l2) "Game Over!"%string
  = (count_occ string_dec l1 "Game Over!"%string
     + count_occ string_dec l2 "Game Over!"%string)%nat.
Proof. apply count_occ_app. Qed.

(** Tactics for the phases: expose the branches of a phase, then close
    what each leaves; fields a phase did not touch are the old ones. *)
Ltac use_flags :=
  repeat match goal with
         | H : isGameOver ?s = ?b, K : context [isGameOver ?s] |- _ =>
             lazymatch K with
             | H => fail
             | _ => rewrite H in K
             end
         end.

Ltac game_over_case :=
  match goal with
  | Hover : isGameOver ?s = true -> _, H : isGameOver ?s = true |- _ =>
      destruct (Hover H) as (? & ? & ?)
  end.

Ltac ship_case :=
  intros; simpl in *; try discriminate;
  try game_over_case;
  repeat match goal with
         | H : Some _ = Some _ |- _ => injection H as <-
         end;
  simpl; unfold live in *; simpl; try congruence; eauto.

Ltac disposed_case :=
  match goal with
  | Hl : forall ship, playerShip ?s = Some ship -> live ship,
    Hs : playerShip ?s = Some ?x |- _ =>
      specialize (Hl x Hs); unfold live in Hl; rewrite Hl in *;
      simpl in *; discriminate
  end.

Ltac over_lists :=
  game_over_case;
  repeat match goal with
         | H : _ = [] |- _ => rewrite H
         end;
  simpl; rewrite ?splice_nil; reflexivity.

Ltac count_case :=
  unfold gameOverCount in *; simpl in *; use_flags;
  rewrite ?count_game_over_app; simpl; try lia.

Ltac phase_goals :=
  repeat split;
  try match goal with
      | H : Part000_Inv _ |- _ =>
          destruct H as [Hcount Hbullets Hscore Hinvinc Hlive Hover Honce]
      end;
  try match goal with
      | H : GameJs_Inv _ |- _ =>
          destruct H as [Hcount Hscore Hinvinc Hover Honce]
      end;
  simpl in *; try assumption; try lia; auto with game;
  try solve [ship_case]; try solve [count_case]; try solve [disposed_case];
  try solve [over_lists].

Ltac crush := cbv zeta; simpl; repeat (break_match; simpl); phase_goals.
(** *** The cockpit variant *)

Section Part000Phases.
Context {E : Babylon}.

Lemma Part000_movePlayer_gentle :
  gentle Part000_Inv Part000.movePlayer.
Proof.
  intro s. unfold Part000.movePlayer.
  destruct (playerShip s) as [ship|] eqn:Hship;
    [destruct (isEnabled ship) eqn:Hen|]; phase_goals.
Qed.

Lemma Part000_bulletPhase_gentle :
  gentle Part000_Inv
         (fun s => set_bullets (Part000.updateBullets (bullets s)) s).
Proof.
  intro s. phase_goals.
  now apply Part000_updateBullets_live.
Qed.

Lemma Part000_asteroidPhase_gentle :
  gentle Part000_Inv
         (fun s => set_asteroids (Part000.updateAsteroids (asteroids s)) s).
Proof.
  intro s. pose proof (Part000_updateAsteroids_length (asteroids s)) as Hl.
  phase_goals.
Qed.

Lemma Part000_spawn_count (f : Frame) (s : State) :
  let s' := Part000.spawnAsteroidsIfNeeded f s in
  (length (asteroids s') <= length (asteroids s) + 1)%nat
  /\ (length (asteroids s) <= length (asteroids s'))%nat
  /\ ((ASTEROID_MAX_COUNT <= length (asteroids s))%nat -> s' = s)
  /\ (isGameOver s = true -> s' = s)
  /\ (lastAsteroidSpawnTime s = Infinity -> s' = s).
Proof.
  cbv zeta. unfold Part000.spawnAsteroidsIfNeeded, Part000.createAsteroid.
  destruct (laterThan _ _ _) eqn:Hlater;
    destruct (length (asteroids s) <? ASTEROID_MAX_COUNT)%nat eqn:Hlt;
    destruct (isGameOver s) eqn:Hover; simpl;
    try (repeat split; intros; (lia || reflexivity || discriminate)).
  apply Nat.ltb_lt in Hlt.
  destruct (created f); simpl; rewrite ?length_app; simpl;
    repeat split; intros; try lia; try discriminate.
  all: match goal with
       | H : lastAsteroidSpawnTime _ = Infinity |- _ =>
           rewrite H in Hlater; discriminate
       end.
Qed.

Lemma Part000_spawn_inv (f : Frame) (s : State) :
  Part000_Inv s -> Part000_Inv (Part000.spawnAsteroidsIfNeeded f s).
Proof.
  intro HI.
  unfold Part000.spawnAsteroidsIfNeeded, Part000.createAsteroid.
  destruct (laterThan _ _ _);
    destruct (length (asteroids s) <? ASTEROID_MAX_COUNT)%nat eqn:Hlt;
    destruct (isGameOver s) eqn:Ho; simpl; try exact HI.
  apply Nat.ltb_lt in Hlt.
  destruct (created f); phase_goals.
  rewrite length_app. simpl. lia.
Qed.

Lemma Part000_spawn_score (f : Frame) (s : State) :
  score (Part000.spawnAsteroidsIfNeeded f s) = score s.
Proof.
  unfold Part000.spawnAsteroidsIfNeeded, Part000.createAsteroid.
  destruct (_ && _ && _); [|reflexivity].
  destruct (created f); reflexivity.
Qed.

Lemma Part000_bulletLoop_body_gentle (i : nat) :
  gentle Part000_Inv (Part000.bulletLoop_body i).
Proof.
  intro s. unfold Part000.bulletLoop_body.
  destruct (nth_error (bullets s) i) as [b|] eqn:Hn; [|phase_goals].
  destruct (negb (isDisposed b)) eqn:Hd; [phase_goals|].
  destruct (Part000.findHit b _ _) as [j|]; [|phase_goals].
  pose proof (splice_length_le j (asteroids s)) as Hl.
  apply negb_false_iff in Hd.
  phase_goals.
  all: exfalso; apply nth_error_In in Hn;
    rewrite Forall_forall in Hbullets;
    specialize (Hbullets b Hn); unfold live in Hbullets; congruence.
Qed.

Lemma Part000_endGame_gentle : gentle Part000_Inv Part000.endGame.
Proof.
  intro s. unfold Part000.endGame. crush.
Qed.

Lemma Part000_playerHit_gentle (t : Z) :
  gentle Part000_Inv (Part000.playerHit t).
Proof.
  intro s. unfold Part000.playerHit, Part000.endGame. crush.
Qed.

Lemma Part000_playerLoop_gentle (t : Z) :
  gentle Part000_Inv (Part000.playerLoop t).
Proof.
  intro s. unfold Part000.playerLoop.
  destruct (playerShip s) as [ship|] eqn:Hship; [|phase_goals].
  destruct (isEnabled ship && negb (playerInvincible s)); [|phase_goals].
  destruct (Part000.findHit ship _ _) as [j|]; [|phase_goals].
  assert (H1 : gentle Part000_Inv
                 (fun s0 => set_asteroids
                    (splice j (asteroids
                                 (console_log "Player hit by asteroid!" s0)))
                    (console_log "Player hit by asteroid!" s0))).
  { intro s0. pose proof (splice_length_le j (asteroids s0)). phase_goals. }
  exact (gentle_compose Part000_Inv _ (Part000.playerHit t) H1
                        (Part000_playerHit_gentle t) s).
Qed.

Lemma Part000_checkCollisions_gentle (t : Z) :
  gentle Part000_Inv (Part000.checkCollisions t).
Proof.
  intro s. unfold Part000.checkCollisions.
  exact (gentle_compose Part000_Inv
           (forDown (length (bullets s)) Part000.bulletLoop_body)
           (Part000.playerLoop t)
           (gentle_forDown _ _ Part000_bulletLoop_body_gentle _)
           (Part000_playerLoop_gentle t) s).
Qed.

Lemma Part000_updateInvincibility_gentle (t : Z) :
  gentle Part000_Inv (Part000.updateInvincibility t).
Proof.
  intro s. unfold Part000.updateInvincibility. crush.
Qed.

Lemma Part000_fireBullet_gentle : gentle Part000_Inv Part000.fireBullet.
Proof.
  intro s. unfold Part000.fireBullet. crush.
  apply Forall_app. split; [assumption|]. repeat constructor.
Qed.

Lemma Part000_onTrigger_gentle (pressed : bool) :
  gentle Part000_Inv (Part000.onTrigger pressed).
Proof.
  intro s. unfold Part000.onTrigger.
  destruct (playerShip s) as [ship|]; [|phase_goals].
  destruct (_ && _ && _); [apply Part000_fireBullet_gentle|phase_goals].
Qed.

Lemma Part000_onThumbstick_gentle (x y : Q) :
  gentle Part000_Inv (Part000.onThumbstick x y).
Proof.
  intro s. unfold Part000.onThumbstick. crush.
Qed.

Lemma Part000_endPhase_gentle :
  gentle Part000_Inv
         (fun s => if (lives s <=? 0)%Z && negb (isGameOver s)
                   then Part000.endGame s else s).
Proof.
  intro s. destruct (_ && _); [apply Part000_endGame_gentle|phase_goals].
Qed.

(** The frame up to the spawn, and the frame after it. *)
Lemma Part000_beforeSpawn_gentle :
  gentle Part000_Inv
    (fun s =>
       let s1 := Part000.movePlayer s in
       let s2 := set_bullets (Part000.updateBullets (bullets s1)) s1 in
       set_asteroids (Part000.updateAsteroids (asteroids s2)) s2).
Proof.
  apply (gentle_compose Part000_Inv Part000.movePlayer
           (fun s1 =>
              let s2 := set_bullets (Part000.updateBullets (bullets s1)) s1 in
              set_asteroids (Part000.updateAsteroids (asteroids s2)) s2)).
  - apply Part000_movePlayer_gentle.
  - apply (gentle_compose Part000_Inv
             (fun s1 => set_bullets (Part000.updateBullets (bullets s1)) s1)
             (fun s2 =>
                set_asteroids (Part000.updateAsteroids (asteroids s2)) s2)).
    + apply Part000_bulletPhase_gentle.
    + apply Part000_asteroidPhase_gentle.
Qed.

Lemma Part000_afterSpawn_gentle (t : Z) :
  gentle Part000_Inv
    (fun s4 =>
       let s5 := Part000.checkCollisions t s4 in
       let s6 := if (lives s5 <=? 0)%Z && negb (isGameOver s5)
                 then Part000.endGame s5 else s5 in
       Part000.updateInvincibility t s6).
Proof.
  apply (gentle_compose Part000_Inv (Part000.checkCollisions t)
           (fun s5 =>
              Part000.updateInvincibility t
                (if (lives s5 <=? 0)%Z && negb (isGameOver s5)
                 then Part000.endGame s5 else s5))).
  - apply Part000_checkCollisions_gentle.
  - apply (gentle_compose Part000_Inv
             (fun s5 => if (lives s5 <=? 0)%Z && negb (isGameOver s5)
                        then Part000.endGame s5 else s5)
             (Part000.updateInvincibility t)).
    + apply Part000_endPhase_gentle.
    + apply Part000_updateInvincibility_gentle.
Qed.

Lemma Part000_updateGameLogic_inv (f : Frame) (s : State) :
  Part000_Inv s -> Part000_Inv (Part000.updateGameLogic f s).
Proof.
  intro HI. unfold Part000.updateGameLogic.
  destruct (isGameOver s); [exact HI|].
  apply (gentle_inv _ _ (Part000_afterSpawn_gentle (now f))).
  apply Part000_spawn_inv.
  apply (gentle_inv _ _ Part000_beforeSpawn_gentle). exact HI.
Qed.

Lemma Part000_updateGameLogic_count (f : Frame) (s : State) :
  (length (asteroids (Part000.updateGameLogic f s))
   <= length (asteroids s) + 1)%nat.
Proof.
  unfold Part000.updateGameLogic.
  destruct (isGameOver s); [lia|]. cbv zeta.
  pose proof (gentle_count _ _ Part000_beforeSpawn_gentle s) as H1.
  cbv beta zeta in H1.
  set (s3 := set_asteroids _ _) in *.
  pose proof (Part000_spawn_count f s3) as (H2 & _). cbv zeta in H2.
  set (s4 := Part000.spawnAsteroidsIfNeeded f s3) in *.
  pose proof (gentle_count _ _ (Part000_afterSpawn_gentle (now f)) s4) as H3.
  cbv beta zeta in H3. lia.
Qed.

Lemma Part000_updateGameLogic_score (f : Frame) (s : State) :
  rewarded (score s) (score (Part000.updateGameLogic f s)).
Proof.
  unfold Part000.updateGameLogic.
  destruct (isGameOver s); [apply rewarded_refl|]. cbv zeta.
  pose proof (gentle_score _ _ Part000_beforeSpawn_gentle s) as H1.
  cbv beta zeta in H1.
  set (s3 := set_asteroids _ _) in *.
  pose proof (Part000_spawn_score f s3) as H2.
  set (s4 := Part000.spawnAsteroidsIfNeeded f s3) in *.
  pose proof (gentle_score _ _ (Part000_afterSpawn_gentle (now f)) s4) as H3.
  cbv beta zeta in H3. rewrite H2 in H3.
  eapply rewarded_trans; eassumption.
Qed.

Lemma Part000_perform_inv (a : Part000.Action) (s : State) :
  Part000_Inv s -> Part000_Inv (Part000.perform a s).
Proof.
  destruct a as [f|pressed|x y]; simpl.
  - apply Part000_updateGameLogic_inv.
  - apply (gentle_inv _ _ (Part000_onTrigger_gentle pressed)).
  - apply (gentle_inv _ _ (Part000_onThumbstick_gentle x y)).
Qed.

Lemma Part000_input_keeps_asteroids (s : State) :
  (forall pressed, asteroids (Part000.onTrigger pressed s) = asteroids s)
  /\ (forall x y, asteroids (Part000.onThumbstick x y s) = asteroids s).
Proof.
  split; intros.
  - unfold Part000.onTrigger, Part000.fireBullet.
    repeat (break_match; simpl); reflexivity.
  - unfold Part000.onThumbstick.
    repeat (break_match; simpl); reflexivity.
Qed.

Lemma Part000_perform_score (a : Part000.Action) (s : State) :
  rewarded (score s) (score (Part000.perform a s)).
Proof.
  destruct a as [f|pressed|x y]; simpl.
  - apply Part000_updateGameLogic_score.
  - apply (gentle_score _ _ (Part000_onTrigger_gentle pressed)).
  - apply (gentle_score _ _ (Part000_onThumbstick_gentle x y)).
Qed.

Lemma started_Part000_Inv (s : State) : started s -> Part000_Inv s.
Proof.
  intros [radius|]; constructor; simpl;
    try (unfold ASTEROID_MAX_COUNT; lia); try constructor;
    try discriminate; try reflexivity; ship_case.
Qed.

Lemma Part000_reachable_inv (s : State) :
  Part000.reachable s -> Part000_Inv s.
Proof.
  induction 1 as [s Hs|a s _ IH].
  - now apply started_Part000_Inv.
  - now apply Part000_perform_inv.
Qed.

Lemma Part000_game_over_frozen (a : Part000.Action) (s : State) :
  isGameOver s = true -> Part000.perform a s = s.
Proof.
  intro Hover. destruct a as [f|pressed|x y]; simpl.
  - unfold Part000.updateGameLogic. now rewrite Hover.
  - unfold Part000.onTrigger. rewrite Hover.
    destruct (playerShip s); [|reflexivity].
    now rewrite andb_false_r.
  - unfold Part000.onThumbstick. now rewrite Hover.
Qed.

Lemma Part000_run_frozen (acts : list Part000.Action) (s : State) :
  isGameOver s = true -> Part000.run acts s = s.
Proof.
  intro Hover. induction acts as [|a acts IH]; simpl; [reflexivity|].
  rewrite Part000_game_over_frozen by exact Hover. exact IH.
Qed.
End Part000Phases.
(** *** [game.js] *)

Section GameJsPhases.
Context {E : Babylon}.

Lemma GameJs_movePlayer_gentle :
  gentle GameJs_Inv GameJs.movePlayer.
Proof.
  intro s. unfold GameJs.movePlayer.
  destruct (playerShip s) as [ship|] eqn:Hship;
    [destruct (isEnabled ship) eqn:Hen|]; phase_goals.
Qed.

Lemma GameJs_bulletPhase_gentle :
  gentle GameJs_Inv
         (fun s => set_bullets (GameJs.updateBullets (bullets s)) s).
Proof.
  intro s. phase_goals.
Qed.

Lemma GameJs_asteroidPhase_gentle :
  gentle GameJs_Inv
         (fun s => set_asteroids (GameJs.updateAsteroids (asteroids s)) s).
Proof.
  intro s. pose proof (GameJs_updateAsteroids_length (asteroids s)) as Hl.
  phase_goals.
Qed.

Lemma GameJs_spawn_count (f : Frame) (s : State) :
  let s' := GameJs.spawnAsteroidsIfNeeded f s in
  (length (asteroids s') <= length (asteroids s) + 1)%nat
  /\ (length (asteroids s) <= length (asteroids s'))%nat
  /\ ((ASTEROID_MAX_COUNT <= length (asteroids s))%nat -> s' = s).
Proof.
  cbv zeta. unfold GameJs.spawnAsteroidsIfNeeded, GameJs.createAsteroid.
  destruct (laterThan _ _ _) eqn:Hlater;
    destruct (length (asteroids s) <? ASTEROID_MAX_COUNT)%nat eqn:Hlt;
    simpl;
    try (repeat split; intros; (lia || reflexivity || discriminate)).
  apply Nat.ltb_lt in Hlt.
  destruct (created f); simpl; rewrite ?length_app; simpl;
    repeat split; intros; try lia; try discriminate.
Qed.

Lemma GameJs_spawn_inv (f : Frame) (s : State) :
  isGameOver s = false ->
  GameJs_Inv s -> GameJs_Inv (GameJs.spawnAsteroidsIfNeeded f s).
Proof.
  intros Ho HI.
  unfold GameJs.spawnAsteroidsIfNeeded, GameJs.createAsteroid.
  destruct (laterThan _ _ _);
    destruct (length (asteroids s) <? ASTEROID_MAX_COUNT)%nat eqn:Hlt;
    simpl; try exact HI.
  apply Nat.ltb_lt in Hlt.
  destruct (created f); phase_goals.
  rewrite length_app. simpl. lia.
Qed.

Lemma GameJs_spawn_score (f : Frame) (s : State) :
  score (GameJs.spawnAsteroidsIfNeeded f s) = score s.
Proof.
  unfold GameJs.spawnAsteroidsIfNeeded, GameJs.createAsteroid.
  destruct (_ && _); [|reflexivity].
  destruct (created f); reflexivity.
Qed.

Lemma GameJs_bulletLoop_body_gentle (i : nat) :
  gentle GameJs_Inv (GameJs.bulletLoop_body i).
Proof.
  intro s. unfold GameJs.bulletLoop_body.
  destruct (nth_error (bullets s) i) as [b|] eqn:Hn; [|phase_goals].
  destruct (GameJs.findHit b _ _) as [j|]; [|phase_goals].
  pose proof (splice_length_le j (asteroids s)) as Hl.
  phase_goals.
  eapply rewarded_trans; [eassumption|apply rewarded_once].
Qed.

Lemma GameJs_playerHit_gentle (t : Z) :
  gentle GameJs_Inv (GameJs.playerHit t).
Proof.
  intro s. unfold GameJs.playerHit. crush.
Qed.

Lemma GameJs_playerLoop_gentle (t : Z) :
  gentle GameJs_Inv (GameJs.playerLoop t).
Proof.
  intro s. unfold GameJs.playerLoop.
  destruct (playerShip s) as [ship|] eqn:Hship; [|phase_goals].
  destruct (isEnabled ship && negb (playerInvincible s)); [|phase_goals].
  destruct (GameJs.findHit ship _ _) as [j|]; [|phase_goals].
  assert (H1 : gentle GameJs_Inv
                 (fun s0 => GameJs.playerHit t
                    (console_log "Player hit by asteroid!" s0))).
  { apply (gentle_compose GameJs_Inv
             (console_log "Player hit by asteroid!") (GameJs.playerHit t)).
    - intro s0. phase_goals.
    - apply GameJs_playerHit_gentle. }
  assert (H2 : gentle GameJs_Inv
                 (fun s0 => set_asteroids (splice j (asteroids s0)) s0)).
  { intro s0. pose proof (splice_length_le j (asteroids s0)). phase_goals. }
  exact (gentle_compose GameJs_Inv _ _ H1 H2 s).
Qed.

Lemma GameJs_checkCollisions_gentle (t : Z) :
  gentle GameJs_Inv (GameJs.checkCollisions t).
Proof.
  intro s. unfold GameJs.checkCollisions.
  exact (gentle_compose GameJs_Inv
           (forDown (length (bullets s)) GameJs.bulletLoop_body)
           (GameJs.playerLoop t)
           (gentle_forDown _ _ GameJs_bulletLoop_body_gentle _)
           (GameJs_playerLoop_gentle t) s).
Qed.

Lemma GameJs_updateInvincibility_gentle (t : Z) :
  gentle GameJs_Inv (GameJs.updateInvincibility t).
Proof.
  intro s. unfold GameJs.updateInvincibility. crush.
Qed.

Lemma GameJs_fireBullet_gentle : gentle GameJs_Inv GameJs.fireBullet.
Proof.
  intro s. unfold GameJs.fireBullet. crush.
Qed.

Lemma GameJs_onTrigger_gentle (pressed : bool) :
  gentle GameJs_Inv (GameJs.onTrigger pressed).
Proof.
  intro s. unfold GameJs.onTrigger.
  destruct (playerShip s) as [ship|]; [|phase_goals].
  destruct (_ && _ && _); [apply GameJs_fireBullet_gentle|phase_goals].
Qed.

Lemma GameJs_onThumbstick_gentle (x y : Q) :
  gentle GameJs_Inv (GameJs.onThumbstick x y).
Proof.
  intro s. unfold GameJs.onThumbstick. crush.
Qed.

Lemma GameJs_endPhase_gentle :
  gentle GameJs_Inv
         (fun s => if (lives s <=? 0)%Z && negb (isGameOver s)
                   then GameJs.endGame s else s).
Proof.
  intro s.
  destruct (lives s <=? 0)%Z; destruct (isGameOver s) eqn:Ho; simpl;
    phase_goals.
Qed.

(** The frame up to the spawn, and the frame after it. *)
Lemma GameJs_beforeSpawn_gentle :
  gentle GameJs_Inv
    (fun s =>
       let s1 := GameJs.movePlayer s in
       let s2 := set_bullets (GameJs.updateBullets (bullets s1)) s1 in
       set_asteroids (GameJs.updateAsteroids (asteroids s2)) s2).
Proof.
  apply (gentle_compose GameJs_Inv GameJs.movePlayer
           (fun s1 =>
              let s2 := set_bullets (GameJs.updateBullets (bullets s1)) s1 in
              set_asteroids (GameJs.updateAsteroids (asteroids s2)) s2)).
  - apply GameJs_movePlayer_gentle.
  - apply (gentle_compose GameJs_Inv
             (fun s1 => set_bullets (GameJs.updateBullets (bullets s1)) s1)
             (fun s2 =>
                set_asteroids (GameJs.updateAsteroids (asteroids s2)) s2)).
    + apply GameJs_bulletPhase_gentle.
    + apply GameJs_asteroidPhase_gentle.
Qed.

Lemma GameJs_afterSpawn_gentle (t : Z) :
  gentle GameJs_Inv
    (fun s4 =>
       let s5 := GameJs.checkCollisions t s4 in
       let s6 := if (lives s5 <=? 0)%Z && negb (isGameOver s5)
                 then GameJs.endGame s5 else s5 in
       GameJs.updateInvincibility t s6).
Proof.
  apply (gentle_compose GameJs_Inv (GameJs.checkCollisions t)
           (fun s5 =>
              GameJs.updateInvincibility t
                (if (lives s5 <=? 0)%Z && negb (isGameOver s5)
                 then GameJs.endGame s5 else s5))).
  - apply GameJs_checkCollisions_gentle.
  - apply (gentle_compose GameJs_Inv
             (fun s5 => if (lives s5 <=? 0)%Z && negb (isGameOver s5)
                        then GameJs.endGame s5 else s5)
             (GameJs.updateInvincibility t)).
    + apply GameJs_endPhase_gentle.
    + apply GameJs_updateInvincibility_gentle.
Qed.

Lemma GameJs_beforeSpawn_running (s : State) :
  isGameOver
    (let s1 := GameJs.movePlayer s in
     let s2 := set_bullets (GameJs.updateBullets (bullets s1)) s1 in
     set_asteroids (GameJs.updateAsteroids (asteroids s2)) s2)
  = isGameOver s.
Proof.
  cbv zeta. simpl. unfold GameJs.movePlayer.
  repeat (break_match; simpl); reflexivity.
Qed.

Lemma GameJs_updateGameLogic_inv (f : Frame) (s : State) :
  GameJs_Inv s -> GameJs_Inv (GameJs.updateGameLogic f s).
Proof.
  intro HI. unfold GameJs.updateGameLogic.
  destruct (isGameOver s) eqn:Ho; [exact HI|].
  apply (gentle_inv _ _ (GameJs_afterSpawn_gentle (now f))).
  apply GameJs_spawn_inv.
  - rewrite <- Ho. apply GameJs_beforeSpawn_running.
  - apply (gentle_inv _ _ GameJs_beforeSpawn_gentle). exact HI.
Qed.

Lemma GameJs_updateGameLogic_count (f : Frame) (s : State) :
  (length (asteroids (GameJs.updateGameLogic f s))
   <= length (asteroids s) + 1)%nat.
Proof.
  unfold GameJs.updateGameLogic.
  destruct (isGameOver s); [lia|]. cbv zeta.
  pose proof (gentle_count _ _ GameJs_beforeSpawn_gentle s) as H1.
  cbv beta zeta in H1.
  set (s3 := set_asteroids _ _) in *.
  pose proof (GameJs_spawn_count f s3) as (H2 & _). cbv zeta in H2.
  set (s4 := GameJs.spawnAsteroidsIfNeeded f s3) in *.
  pose proof (gentle_count _ _ (GameJs_afterSpawn_gentle (now f)) s4) as H3.
  cbv beta zeta in H3. lia.
Qed.

Lemma GameJs_updateGameLogic_score (f : Frame) (s : State) :
  rewarded (score s) (score (GameJs.updateGameLogic f s)).
Proof.
  unfold GameJs.updateGameLogic.
  destruct (isGameOver s); [apply rewarded_refl|]. cbv zeta.
  pose proof (gentle_score _ _ GameJs_beforeSpawn_gentle s) as H1.
  cbv beta zeta in H1.
  set (s3 := set_asteroids _ _) in *.
  pose proof (GameJs_spawn_score f s3) as H2.
  set (s4 := GameJs.spawnAsteroidsIfNeeded f s3) in *.
  pose proof (gentle_score _ _ (GameJs_afterSpawn_gentle (now f)) s4) as H3.
  cbv beta zeta in H3. rewrite H2 in H3.
  eapply rewarded_trans; eassumption.
Qed.

Lemma GameJs_perform_inv (a : GameJs.Action) (s : State) :
  GameJs_Inv s -> GameJs_Inv (GameJs.perform a s).
Proof.
  destruct a as [f|pressed|x y]; simpl.
  - apply GameJs_updateGameLogic_inv.
  - apply (gentle_inv _ _ (GameJs_onTrigger_gentle pressed)).
  - apply (gentle_inv _ _ (GameJs_onThumbstick_gentle x y)).
Qed.

Lemma GameJs_input_keeps_asteroids (s : State) :
  (forall pressed, asteroids (GameJs.onTrigger pressed s) = asteroids s)
  /\ (forall x y, asteroids (GameJs.onThumbstick x y s) = asteroids s).
Proof.
  split; intros.
  - unfold GameJs.onTrigger, GameJs.fireBullet.
    repeat (break_match; simpl); reflexivity.
  - unfold GameJs.onThumbstick.
    repeat (break_match; simpl); reflexivity.
Qed.

Lemma GameJs_perform_score (a : GameJs.Action) (s : State) :
  rewarded (score s) (score (GameJs.perform a s)).
Proof.
  destruct a as [f|pressed|x y]; simpl.
  - apply GameJs_updateGameLogic_score.
  - apply (gentle_score _ _ (GameJs_onTrigger_gentle pressed)).
  - apply (gentle_score _ _ (GameJs_onThumbstick_gentle x y)).
Qed.

Lemma started_GameJs_Inv (s : State) : started s -> GameJs_Inv s.
Proof.
  intros [radius|]; constructor; simpl;
    try (unfold ASTEROID_MAX_COUNT; lia); try apply rewarded_refl;
    try discriminate; try reflexivity; ship_case.
Qed.

Lemma GameJs_reachable_inv (s : State) :
  GameJs.reachable s -> GameJs_Inv s.
Proof.
  induction 1 as [s Hs|a s _ IH].
  - now apply started_GameJs_Inv.
  - now apply GameJs_perform_inv.
Qed.

Lemma GameJs_game_over_frozen (a : GameJs.Action) (s : State) :
  isGameOver s = true -> GameJs.perform a s = s.
Proof.
  intro Hover. destruct a as [f|pressed|x y]; simpl.
  - unfold GameJs.updateGameLogic. now rewrite Hover.
  - unfold GameJs.onTrigger. rewrite Hover.
    destruct (playerShip s); [|reflexivity].
    now rewrite andb_false_r.
  - unfold GameJs.onThumbstick. now rewrite Hover.
Qed.

Lemma GameJs_run_frozen (acts : list GameJs.Action) (s : State) :
  isGameOver s = true -> GameJs.run acts s = s.
Proof.
  intro Hover. induction acts as [|a acts IH]; simpl; [reflexivity|].
  rewrite GameJs_game_over_frozen by exact Hover. exact IH.
Qed.
End GameJsPhases.
Lemma samePlayer_refl (s : State) : samePlayer s s.
Proof. repeat split. Qed.

Lemma samePlayer_trans (a b c : State) :
  samePlayer a b -> samePlayer b c -> samePlayer a c.
Proof.
  unfold samePlayer.
  intros (H1 & H2 & H3 & H4 & H5 & H6) (K1 & K2 & K3 & K4 & K5 & K6).
  repeat split; congruence.
Qed.

Section DisabledShip.
Context {E : Babylon}.

Lemma Part000_bulletLoop_samePlayer (n : nat) (s : State) :
  samePlayer s (forDown n Part000.bulletLoop_body s).
Proof.
  apply (forDown_invariant (samePlayer s)); [|apply samePlayer_refl].
  intros i s' H. eapply samePlayer_trans; [exact H|].
  unfold Part000.bulletLoop_body.
  repeat (break_match; simpl); repeat split.
Qed.

Lemma Part000_beforeCollisions_samePlayer (f : Frame) (s : State)
      (ship : Ship) :
  playerShip s = Some ship -> isEnabled ship = false ->
  samePlayer s
    (Part000.spawnAsteroidsIfNeeded f
       (let s1 := Part000.movePlayer s in
        let s2 := set_bullets (Part000.updateBullets (bullets s1)) s1 in
        set_asteroids (Part000.updateAsteroids (asteroids s2)) s2)).
Proof.
  intros Hship Hen. unfold Part000.movePlayer. rewrite Hship, Hen.
  cbv zeta. unfold Part000.spawnAsteroidsIfNeeded, Part000.createAsteroid.
  repeat (break_match; simpl); repeat split.
Qed.

Lemma Part000_disabled_frame_end (f : Frame) (s : State) (ship : Ship) :
  playerShip s = Some ship -> isEnabled ship = false ->
  isGameOver s = false ->
  exists s5, samePlayer s s5
             /\ Part000.updateGameLogic f s
                = Part000.updateInvincibility (now f)
                    (if (lives s5 <=? 0)%Z && negb (isGameOver s5)
                     then Part000.endGame s5 else s5).
Proof.
  intros Hship Hen Hover.
  unfold Part000.updateGameLogic. rewrite Hover.
  pose proof (Part000_beforeCollisions_samePlayer f s ship Hship Hen) as H4.
  cbv zeta in *.
  set (s4 := Part000.spawnAsteroidsIfNeeded f _) in *.
  pose proof (Part000_bulletLoop_samePlayer (length (bullets s4)) s4) as H5.
  exists (Part000.checkCollisions (now f) s4). split; [|reflexivity].
  unfold Part000.checkCollisions.
  set (s5 := forDown _ _ s4) in *.
  assert (H : samePlayer s s5) by (eapply samePlayer_trans; eauto).
  destruct H as (K1 & K2 & K3 & K4 & K5 & K6).
  unfold Part000.playerLoop. rewrite K1, Hship, Hen. simpl.
  repeat split; assumption.
Qed.

Lemma Part000_disabled_frame (f : Frame) (s : State) (ship : Ship) :
  playerShip s = Some ship -> isEnabled ship = false ->
  isGameOver s = false -> (0 < lives s)%Z ->
  exists s6, Part000.updateGameLogic f s
             = Part000.updateInvincibility (now f) s6
             /\ samePlayer s s6.
Proof.
  intros Hship Hen Hover Hlives.
  destruct (Part000_disabled_frame_end f s ship Hship Hen Hover)
    as (s5 & Hsame & ->).
  pose proof Hsame as (K1 & K2 & K3 & K4 & K5 & K6).
  assert (Hl : (lives s5 <=? 0)%Z = false) by (apply Z.leb_gt; lia).
  rewrite Hl. simpl. exists s5. split; [reflexivity|exact Hsame].
Qed.

Lemma GameJs_bulletLoop_samePlayer (n : nat) (s : State) :
  samePlayer s (forDown n GameJs.bulletLoop_body s).
Proof.
  apply (forDown_invariant (samePlayer s)); [|apply samePlayer_refl].
  intros i s' H. eapply samePlayer_trans; [exact H|].
  unfold GameJs.bulletLoop_body.
  repeat (break_match; simpl); repeat split.
Qed.

Lemma GameJs_beforeCollisions_samePlayer (f : Frame) (s : State)
      (ship : Ship) :
  playerShip s = Some ship -> isEnabled ship = false ->
  samePlayer s
    (GameJs.spawnAsteroidsIfNeeded f
       (let s1 := GameJs.movePlayer s in
        let s2 := set_bullets (GameJs.updateBullets (bullets s1)) s1 in
        set_asteroids (GameJs.updateAsteroids (asteroids s2)) s2)).
Proof.
  intros Hship Hen. unfold GameJs.movePlayer. rewrite Hship, Hen.
  cbv zeta. unfold GameJs.spawnAsteroidsIfNeeded, GameJs.createAsteroid.
  repeat (break_match; simpl); repeat split.
Qed.

Lemma GameJs_disabled_frame_end (f : Frame) (s : State) (ship : Ship) :
  playerShip s = Some ship -> isEnabled ship = false ->
  isGameOver s = false ->
  exists s5, samePlayer s s5
             /\ GameJs.updateGameLogic f s
                = GameJs.updateInvincibility (now f)
                    (if (lives s5 <=? 0)%Z && negb (isGameOver s5)
                     then GameJs.endGame s5 else s5).
Proof.
  intros Hship Hen Hover.
  unfold GameJs.updateGameLogic. rewrite Hover.
  pose proof (GameJs_beforeCollisions_samePlayer f s ship Hship Hen) as H4.
  cbv zeta in *.
  set (s4 := GameJs.spawnAsteroidsIfNeeded f _) in *.
  pose proof (GameJs_bulletLoop_samePlayer (length (bullets s4)) s4) as H5.
  exists (GameJs.checkCollisions (now f) s4). split; [|reflexivity].
  unfold GameJs.checkCollisions.
  set (s5 := forDown _ _ s4) in *.
  assert (H : samePlayer s s5) by (eapply samePlayer_trans; eauto).
  destruct H as (K1 & K2 & K3 & K4 & K5 & K6).
  unfold GameJs.playerLoop. rewrite K1, Hship, Hen. simpl.
  repeat split; assumption.
Qed.

Lemma GameJs_disabled_frame (f : Frame) (s : State) (ship : Ship) :
  playerShip s = Some ship -> isEnabled ship = false ->
  isGameOver s = false -> (0 < lives s)%Z ->
  exists s6, GameJs.updateGameLogic f s
             = GameJs.updateInvincibility (now f) s6
             /\ samePlayer s s6.
Proof.
  intros Hship Hen Hover Hlives.
  destruct (GameJs_disabled_frame_end f s ship Hship Hen Hover)
    as (s5 & Hsame & ->).
  pose proof Hsame as (K1 & K2 & K3 & K4 & K5 & K6).
  assert (Hl : (lives s5 <=? 0)%Z = false) by (apply Z.leb_gt; lia).
  rewrite Hl. simpl. exists s5. split; [reflexivity|exact Hsame].
Qed.

(** The player state after the invincibility block depends on the
    player globals only. *)
Lemma Part000_updateInvincibility_state (t : Z) (s : State) (ship : Ship) :
  playerShip s = Some ship -> playerInvincible s = true ->
  playerState (Part000.updateInvincibility t s)
  = if (invincibleUntil s <? t)%Z then Alive else Invincible.
Proof.
  intros Hship Hinv. unfold Part000.updateInvincibility, invincibleUntil.
  rewrite Hship, Hinv.
  destruct (_ <? _)%Z; unfold playerState; simpl; [reflexivity|].
  now rewrite Hinv.
Qed.

Lemma GameJs_updateInvincibility_state (t : Z) (s : State) (ship : Ship) :
  playerShip s = Some ship -> playerInvincible s = true ->
  playerState (GameJs.updateInvincibility t s)
  = if (invincibleUntil s <? t)%Z then Alive else Invincible.
Proof.
  intros Hship Hinv. unfold GameJs.updateInvincibility, invincibleUntil.
  rewrite Hship, Hinv.
  destruct (_ <? _)%Z; unfold playerState; simpl; [reflexivity|].
  now rewrite Hinv.
Qed.
End DisabledShip.
(** ** The player state machine *)

Section PlayerStateMachine.
Context {E : Babylon}.

Lemma Part000_playerHit_respawn (t : Z) (s : State) (ship : Ship) :
  playerShip s = Some ship -> (1 < lives s)%Z ->
  Part000.playerHit t s
  = mkState (score s) (lives s - 1) (isGameOver s)
            (Some (respawnedShip ship)) (bullets s) (asteroids s)
            (lastAsteroidSpawnTime s) Vector3_Zero true t
            (console s ++ ["Player respawned, invincible for 3 sec"%string]).
Proof.
  intros Hship Hlives. unfold Part000.playerHit. cbv zeta. simpl.
  assert (Hpos : (0 <? lives s - 1)%Z = true) by (apply Z.ltb_lt; lia).
  now rewrite Hpos, Hship.
Qed.

Lemma GameJs_playerHit_respawn (t : Z) (s : State) (ship : Ship) :
  playerShip s = Some ship -> (1 < lives s)%Z ->
  GameJs.playerHit t s
  = mkState (score s) (lives s - 1) (isGameOver s)
            (Some (respawnedShip ship)) (bullets s) (asteroids s)
            (lastAsteroidSpawnTime s) Vector3_Zero true t
            (console s ++ ["Player respawned, invincible for 3 sec"%string]).
Proof.
  intros Hship Hlives. unfold GameJs.playerHit. cbv zeta. simpl.
  assert (Hpos : (0 <? lives s - 1)%Z = true) by (apply Z.ltb_lt; lia).
  now rewrite Hpos, Hship.
Qed.

Lemma Part000_frame_while_invincible (f : Frame) (s : State) (ship : Ship) :
  playerShip s = Some ship -> isEnabled ship = false ->
  playerInvincible s = true -> isGameOver s = false -> (0 < lives s)%Z ->
  playerState (Part000.updateGameLogic f s)
  = if (invincibleUntil s <? now f)%Z then Alive else Invincible.
Proof.
  intros Hship Hen Hinv Hover Hlives.
  destruct (Part000_disabled_frame f s ship Hship Hen Hover Hlives)
    as (s6 & -> & K1 & K2 & K3 & K4 & K5 & K6).
  rewrite (Part000_updateInvincibility_state (now f) s6 ship)
    by congruence.
  unfold invincibleUntil. now rewrite K3.
Qed.

Lemma GameJs_frame_while_invincible (f : Frame) (s : State) (ship : Ship) :
  playerShip s = Some ship -> isEnabled ship = false ->
  playerInvincible s = true -> isGameOver s = false -> (0 < lives s)%Z ->
  playerState (GameJs.updateGameLogic f s)
  = if (invincibleUntil s <? now f)%Z then Alive else Invincible.
Proof.
  intros Hship Hen Hinv Hover Hlives.
  destruct (GameJs_disabled_frame f s ship Hship Hen Hover Hlives)
    as (s6 & -> & K1 & K2 & K3 & K4 & K5 & K6).
  rewrite (GameJs_updateInvincibility_state (now f) s6 ship)
    by congruence.
  unfold invincibleUntil. now rewrite K3.
Qed.

(** C4, as the code has it.  A hit that leaves lives makes the player
    Invincible with [invincibleUntil = now + RESPAWN_INVINCIBILITY_TIME];
    a frame whose clock is at most [invincibleUntil] (so also
    [invincibleUntil - 1] and [invincibleUntil] itself) leaves the
    player Invincible, and a frame whose clock is past it (from
    [invincibleUntil + 1] on) makes the player Alive again.  Both
    scripts. *)
Theorem invincibility_window (t : Z) (s : State) (f : Frame) (ship : Ship) :
  playerShip s = Some ship -> (1 < lives s)%Z -> isGameOver s = false ->
  let hit := Part000.playerHit t s in
  let hit' := GameJs.playerHit t s in
  playerState hit = Invincible
  /\ invincibleUntil hit = (t + RESPAWN_INVINCIBILITY_TIME)%Z
  /\ ((now f <= invincibleUntil hit)%Z ->
      playerState (Part000.updateGameLogic f hit) = Invincible)
  /\ ((invincibleUntil hit < now f)%Z ->
      playerState (Part000.updateGameLogic f hit) = Alive)
  /\ playerState hit' = Invincible
  /\ invincibleUntil hit' = (t + RESPAWN_INVINCIBILITY_TIME)%Z
  /\ ((now f <= invincibleUntil hit')%Z ->
      playerState (GameJs.updateGameLogic f hit') = Invincible)
  /\ ((invincibleUntil hit' < now f)%Z ->
      playerState (GameJs.updateGameLogic f hit') = Alive).
Proof.
  intros Hship Hlives Hover. cbv zeta.
  rewrite (Part000_playerHit_respawn t s ship Hship Hlives).
  rewrite (GameJs_playerHit_respawn t s ship Hship Hlives).
  set (hit := mkState _ _ _ _ _ _ _ _ _ _ _).
  assert (Hf : forall f0,
             playerState (Part000.updateGameLogic f0 hit)
             = if (invincibleUntil hit <? now f0)%Z then Alive
               else Invincible).
  { intro f0.
    apply (Part000_frame_while_invincible f0 hit (respawnedShip ship));
      try reflexivity; simpl; try assumption; lia. }
  assert (Hg : forall f0,
             playerState (GameJs.updateGameLogic f0 hit)
             = if (invincibleUntil hit <? now f0)%Z then Alive
               else Invincible).
  { intro f0.
    apply (GameJs_frame_while_invincible f0 hit (respawnedShip ship));
      try reflexivity; simpl; try assumption; lia. }
  rewrite Hf, Hg.
  repeat split; try reflexivity; intro H.
  - apply Z.ltb_ge in H. now rewrite H.
  - apply Z.ltb_lt in H. now rewrite H.
  - apply Z.ltb_ge in H. now rewrite H.
  - apply Z.ltb_lt in H. now rewrite H.
Qed.
End PlayerStateMachine.

Lemma invincibility_window_witness :
  playerState (@Part000.updateGameLogic exampleEngine (mkFrame 3999 None)
                 (Part000.playerHit 1000 freshGame)) = Invincible
  /\ playerState (@Part000.updateGameLogic exampleEngine (mkFrame 4001 None)
                    (Part000.playerHit 1000 freshGame)) = Alive.
Proof.
  split.
  - apply (@invincibility_window exampleEngine 1000 freshGame
             (mkFrame 3999 None) (theShip 1) eq_refl);
      [reflexivity|reflexivity|now vm_compute].
  - apply (@invincibility_window exampleEngine 1000 freshGame
             (mkFrame 4001 None) (theShip 1) eq_refl);
      [reflexivity|reflexivity|now vm_compute].
Defined.

(** C4 as the specification states it fails at the boundary: with the hit
    at 1000, [invincibleUntil] is 4000, and the frame whose clock reads
    4000 leaves the player Invincible in both scripts. *)
Lemma invincibility_boundary_counterexample :
  let hit := Part000.playerHit 1000 freshGame in
  let hit' := GameJs.playerHit 1000 freshGame in
  invincibleUntil hit = 4000%Z
  /\ playerState hit = Invincible
  /\ playerState (@Part000.updateGameLogic exampleEngine
                    (mkFrame (invincibleUntil hit) None) hit) <> Alive
  /\ playerState (@GameJs.updateGameLogic exampleEngine
                    (mkFrame (invincibleUntil hit') None) hit') <> Alive.
Proof.
  vm_compute. repeat split; discriminate.
Qed.
(** ** Losing the last life *)


Section LastLife.
Context {E : Babylon}.


Lemma GameJs_playerHit_last (t : Z) (s : State) (ship : Ship) :
  playerShip s = Some ship -> lives s = 1%Z ->
  GameJs.playerHit t s
  = mkState (score s) 0 (isGameOver s)
            (Some (setEnabled false (set_isVisible false ship)))
            (bullets s) (asteroids s) (lastAsteroidSpawnTime s)
            Vector3_Zero (playerInvincible s) (playerRespawnTime s)
            (console s).
Proof.
  intros Hship Hlives. unfold GameJs.playerHit. cbv zeta. simpl.
  now rewrite Hlives, Hship.
Qed.


End LastLife.


(** ** Firing *)

Section Firing.
Context {E : Babylon}.

Lemma fireBullet_idle (s : State) :
  (forall ship, playerShip s = Some ship -> playerInvincible s = true ->
                isEnabled ship = false) ->
  playerState s <> Alive ->
  Part000.fireBullet s = s /\ GameJs.fireBullet s = s.
Proof.
  intros Hinv Hstate.
  unfold Part000.fireBullet, GameJs.fireBullet, playerState in *.
  destruct (playerShip s) as [ship|]; [|split; reflexivity].
  destruct (isEnabled ship) eqn:Hen; [|split; reflexivity].
  destruct (playerInvincible s) eqn:Hi.
  - specialize (Hinv ship eq_refl eq_refl). congruence.
  - congruence.
Qed.

(** C8, as the code has it.  In every reachable state in which the player
    is not Alive, [fireBullet] leaves the whole state as it is.  When the
    player is Alive and the engine has its sphere builder, [fireBullet]
    appends exactly one live bullet, flying along the ship's heading
    with the full [BULLET_LIFETIME]: the cockpit variant places it 0.6
    ahead of the ship's position along that heading, [game.js] at the
    ship's position. *)
Theorem fireBullet_needs_a_live_player (s : State) :
  (Part000.reachable s -> playerState s <> Alive ->
   Part000.fireBullet s = s)
  /\ (GameJs.reachable s -> playerState s <> Alive ->
      GameJs.fireBullet s = s)
  /\ (forall ship,
         playerShip s = Some ship -> playerState s = Alive ->
         hasCreateSphere = true ->
         let heading := normalize (scale (forward (rotation ship)) (-1)) in
         (exists bullet,
             Part000.fireBullet s = set_bullets (bullets s ++ [bullet]) s
             /\ position bullet
                = add (position ship) (scale heading (6 # 10))
             /\ metadata bullet
                = Some (mkBulletMeta (scale heading Part000.BULLET_SPEED)
                                     Part000.BULLET_LIFETIME)
             /\ live bullet)
         /\ (exists bullet,
                GameJs.fireBullet s = set_bullets (bullets s ++ [bullet]) s
                /\ position bullet = position ship
                /\ metadata bullet
                   = Some (mkBulletMeta (scale heading GameJs.BULLET_SPEED)
                                        GameJs.BULLET_LIFETIME)
                /\ live bullet)).
Proof.
  split; [|split].
  - intros Hr Hs. apply fireBullet_idle; [|exact Hs].
    apply Part000_reachable_inv in Hr. now destruct Hr.
  - intros Hr Hs. apply fireBullet_idle; [|exact Hs].
    apply GameJs_reachable_inv in Hr. now destruct Hr.
  - intros ship Hship Hs Hcs. cbv zeta.
    unfold playerState in Hs. rewrite Hship in Hs.
    destruct (playerInvincible s); [discriminate|].
    destruct (isEnabled ship) eqn:Hen; [|discriminate].
    unfold Part000.fireBullet, GameJs.fireBullet.
    rewrite Hship, Hen, Hcs. simpl.
    split; eexists; repeat split.
Qed.
End Firing.

Lemma fireBullet_needs_a_live_player_witness :
  @Part000.fireBullet exampleEngine (initialState None) = initialState None
  /\ length (bullets (@Part000.fireBullet exampleEngine freshGame)) = 1%nat.
Proof.
  split.
  - apply (proj1 (@fireBullet_needs_a_live_player exampleEngine
                           (initialState None))).
    + apply Part000.reachable_init, started_without_ship.
    + discriminate.
  - destruct (proj2 (proj2 (@fireBullet_needs_a_live_player exampleEngine
                             freshGame)) (theShip 1) eq_refl eq_refl eq_refl)
      as ((bullet & -> & _) & _).
    reflexivity.
Defined.

(** C8 as the specification states it fails on where the bullet appears:
    in the cockpit variant the bullet of an Alive player at the origin
    starts 0.6 ahead of the ship, not at its position; and in an engine
    build without the sphere builder an Alive player fires nothing. *)
Lemma fireBullet_counterexample :
  playerState freshGame = Alive
  /\ (exists bullet,
         bullets (@Part000.fireBullet exampleEngine freshGame) = [bullet]
         /\ position (theShip 1) = Vector3_Zero
         /\ vy (position bullet) == 6 # 10
         /\ position bullet <> position (theShip 1))
  /\ bullets (@Part000.fireBullet engineWithoutCreateSphere freshGame) = [].
Proof.
  split; [reflexivity|]. split; [|reflexivity].
  eexists. split; [reflexivity|]. split; [reflexivity|].
  split; [reflexivity|]. intro H. discriminate H.
Qed.

(** ** Collisions *)

Section CockpitCollisions.
Context {E : Babylon}.

(** The bullet loop of the cockpit variant passes over every bullet
    that is not disposed. *)
Lemma Part000_bulletLoop_skips_live (n : nat) (s : State) :
  Forall live (bullets s) ->
  forDown n Part000.bulletLoop_body s = s.
Proof.
  intro Hlive. apply forDown_fixed. intro i.
  unfold Part000.bulletLoop_body.
  destruct (nth_error (bullets s) i) as [b|] eqn:Hn; [|reflexivity].
  apply nth_error_In in Hn. rewrite Forall_forall in Hlive.
  specialize (Hlive b Hn). unfold live in Hlive. now rewrite Hlive.
Qed.

(** No state the cockpit variant reaches has a score. *)
Lemma Part000_score_stays_zero (s : State) :
  Part000.reachable s -> score s = 0%Z.
Proof.
  intro Hr. apply Part000_reachable_inv in Hr. now destruct Hr.
Qed.
End CockpitCollisions.


Section GameJsCollisions.
Context {E : Babylon}.




(** A bullet that intersects the only asteroid: both go, for 100. *)
Lemma GameJs_single_hit (s : State) (b : Bullet) (a : Asteroid) :
  bullets s = [b] -> asteroids s = [a] -> intersectsMesh b a = true ->
  let s' := forDown (length (bullets s)) GameJs.bulletLoop_body s in
  bullets s' = [] /\ asteroids s' = [] /\ score s' = (score s + 100)%Z.
Proof.
  intros Hb Ha Hhit. cbv zeta. rewrite Hb. simpl.
  unfold GameJs.bulletLoop_body. rewrite Hb, Ha. simpl. rewrite Hhit.
  simpl. rewrite Hb. repeat split.
Qed.
End GameJsCollisions.

(** C1 at a live bullet overlapping a live asteroid: [checkCollisions] of
    the cockpit variant skips the bullet, because its guard
    [!bullet.isDisposed()] passes over every bullet that is not disposed:
    bullet, asteroid and score stay.  [game.js] on the same state destroys
    both and adds 100. *)
Theorem checkCollisions_skips_live_bullets :
  live overlappingBullet /\ live overlappingAsteroid
  /\ intersectsSphere overlappingBullet overlappingAsteroid = true
  /\ Part000.checkCollisions 1000 overlapGame = overlapGame
  /\ bullets (@GameJs.checkCollisions exampleEngine 1000 overlapGame) = []
  /\ asteroids (@GameJs.checkCollisions exampleEngine 1000 overlapGame) = []
  /\ score (@GameJs.checkCollisions exampleEngine 1000 overlapGame)
     = (score overlapGame + 100)%Z.
Proof. repeat split. Qed.
(** ** The asteroid population *)

Section Population.
Context {E : Babylon}.

Lemma Part000_quiet_spawn (f : Frame) (s : State) :
  created f = None ->
  asteroids (Part000.spawnAsteroidsIfNeeded f s) = asteroids s.
Proof.
  intro Hnone. unfold Part000.spawnAsteroidsIfNeeded, Part000.createAsteroid.
  rewrite Hnone. now destruct (_ && _ && _).
Qed.

Lemma GameJs_quiet_spawn (f : Frame) (s : State) :
  created f = None ->
  asteroids (GameJs.spawnAsteroidsIfNeeded f s) = asteroids s.
Proof.
  intro Hnone. unfold GameJs.spawnAsteroidsIfNeeded, GameJs.createAsteroid.
  rewrite Hnone. now destruct (_ && _).
Qed.

Lemma Part000_frame_without_spawn (f : Frame) (s : State) :
  created f = None ->
  (length (asteroids (Part000.updateGameLogic f s))
   <= length (asteroids s))%nat.
Proof.
  intro Hnone. unfold Part000.updateGameLogic.
  destruct (isGameOver s); [lia|]. cbv zeta.
  pose proof (gentle_count _ _ Part000_beforeSpawn_gentle s) as H1.
  cbv beta zeta in H1.
  set (s3 := set_asteroids _ _) in *.
  pose proof (Part000_quiet_spawn f s3 Hnone) as H2.
  set (s4 := Part000.spawnAsteroidsIfNeeded f s3) in *.
  pose proof (gentle_count _ _ (Part000_afterSpawn_gentle (now f)) s4) as H3.
  cbv beta zeta in H3. rewrite H2 in H3. lia.
Qed.

Lemma GameJs_frame_without_spawn (f : Frame) (s : State) :
  created f = None ->
  (length (asteroids (GameJs.updateGameLogic f s))
   <= length (asteroids s))%nat.
Proof.
  intro Hnone. unfold GameJs.updateGameLogic.
  destruct (isGameOver s); [lia|]. cbv zeta.
  pose proof (gentle_count _ _ GameJs_beforeSpawn_gentle s) as H1.
  cbv beta zeta in H1.
  set (s3 := set_asteroids _ _) in *.
  pose proof (GameJs_quiet_spawn f s3 Hnone) as H2.
  set (s4 := GameJs.spawnAsteroidsIfNeeded f s3) in *.
  pose proof (gentle_count _ _ (GameJs_afterSpawn_gentle (now f)) s4) as H3.
  cbv beta zeta in H3. rewrite H2 in H3. lia.
Qed.

(** C3.  No reachable state holds more than [ASTEROID_MAX_COUNT] = 15
    asteroids.  [spawnAsteroidsIfNeeded] adds at most one asteroid and
    changes nothing once the count has reached the maximum; a frame adds
    at most one asteroid, and none when [createAsteroid] builds none;
    the input callbacks leave the asteroids alone.  Both scripts. *)
Theorem asteroid_count_bounded :
  (forall s, Part000.reachable s ->
             (length (asteroids s) <= ASTEROID_MAX_COUNT)%nat)
  /\ (forall f s,
         let s' := Part000.spawnAsteroidsIfNeeded f s in
         (length (asteroids s') <= length (asteroids s) + 1)%nat
         /\ ((ASTEROID_MAX_COUNT <= length (asteroids s))%nat -> s' = s))
  /\ (forall f s,
         (length (asteroids (Part000.updateGameLogic f s))
          <= length (asteroids s) + 1)%nat
         /\ (created f = None ->
             (length (asteroids (Part000.updateGameLogic f s))
              <= length (asteroids s))%nat))
  /\ (forall s pressed x y,
         asteroids (Part000.onTrigger pressed s) = asteroids s
         /\ asteroids (Part000.onThumbstick x y s) = asteroids s)
  /\ (forall s, GameJs.reachable s ->
                (length (asteroids s) <= ASTEROID_MAX_COUNT)%nat)
  /\ (forall f s,
         let s' := GameJs.spawnAsteroidsIfNeeded f s in
         (length (asteroids s') <= length (asteroids s) + 1)%nat
         /\ ((ASTEROID_MAX_COUNT <= length (asteroids s))%nat -> s' = s))
  /\ (forall f s,
         (length (asteroids (GameJs.updateGameLogic f s))
          <= length (asteroids s) + 1)%nat
         /\ (created f = None ->
             (length (asteroids (GameJs.updateGameLogic f s))
              <= length (asteroids s))%nat))
  /\ (forall s pressed x y,
         asteroids (GameJs.onTrigger pressed s) = asteroids s
         /\ asteroids (GameJs.onThumbstick x y s) = asteroids s).
Proof.
  repeat apply conj.
  - intros s Hr. apply Part000_reachable_inv in Hr. now destruct Hr.
  - intros f s. cbv zeta.
    pose proof (Part000_spawn_count f s) as (H1 & _ & H2 & _).
    split; assumption.
  - intros f s. split.
    + apply Part000_updateGameLogic_count.
    + apply Part000_frame_without_spawn.
  - intros s pressed x y.
    destruct (Part000_input_keeps_asteroids s) as (H1 & H2).
    split; [apply H1|apply H2].
  - intros s Hr. apply GameJs_reachable_inv in Hr. now destruct Hr.
  - intros f s. cbv zeta.
    pose proof (GameJs_spawn_count f s) as (H1 & _ & H2).
    split; assumption.
  - intros f s. split.
    + apply GameJs_updateGameLogic_count.
    + apply GameJs_frame_without_spawn.
  - intros s pressed x y.
    destruct (GameJs_input_keeps_asteroids s) as (H1 & H2).
    split; [apply H1|apply H2].
Qed.
End Population.

Lemma asteroid_count_bounded_witness :
  (length (asteroids (@Part000.perform exampleEngine
                        (Part000.Render (mkFrame 2000 (Some newAsteroid)))
                        freshGame)) <= ASTEROID_MAX_COUNT)%nat.
Proof.
  apply (proj1 (@asteroid_count_bounded exampleEngine)).
  apply Part000.reachable_step, Part000.reachable_init, started_with_ship.
Defined.

(** ** Game over *)

Section GameOver.
Context {E : Babylon}.

(** C6.  Teardown run on a state that teardown has produced changes
    nothing: the cockpit variant returns the very same state, and
    [game.js] rewrites every global to the value it has and only logs
    again.  After teardown the game is over and both collections are
    empty: from any state that was not over, and from every state the
    cockpit variant reaches. *)
Theorem endGame_idempotent (s : State) :
  Part000.endGame (Part000.endGame s) = Part000.endGame s
  /\ isGameOver (Part000.endGame s) = true
  /\ (isGameOver s = false ->
      bullets (Part000.endGame s) = []
      /\ asteroids (Part000.endGame s) = []
      /\ score (Part000.endGame s) = score s
      /\ lives (Part000.endGame s) = lives s)
  /\ (Part000.reachable s ->
      bullets (Part000.endGame s) = []
      /\ asteroids (Part000.endGame s) = [])
  /\ (let once := GameJs.endGame s in
      let twice := GameJs.endGame once in
      score twice = score once /\ lives twice = lives once
      /\ isGameOver twice = isGameOver once
      /\ playerShip twice = playerShip once
      /\ bullets twice = bullets once /\ asteroids twice = asteroids once
      /\ lastAsteroidSpawnTime twice = lastAsteroidSpawnTime once
      /\ playerVelocity twice = playerVelocity once
      /\ playerInvincible twice = playerInvincible once
      /\ playerRespawnTime twice = playerRespawnTime once
      /\ isGameOver once = true /\ bullets once = []
      /\ asteroids once = []
      /\ score once = score s /\ lives once = lives s).
Proof.
  assert (Hover : isGameOver (Part000.endGame s) = true).
  { unfold Part000.endGame.
    destruct (isGameOver s) eqn:Hs; [exact Hs|].
    simpl. repeat (break_match; simpl); reflexivity. }
  assert (Hempty : isGameOver s = false ->
                   bullets (Part000.endGame s) = []
                   /\ asteroids (Part000.endGame s) = []
                   /\ score (Part000.endGame s) = score s
                   /\ lives (Part000.endGame s) = lives s).
  { intro Hs. unfold Part000.endGame. rewrite Hs. simpl.
    repeat split; repeat (break_match; simpl); reflexivity. }
  split; [|split; [|split; [|split]]].
  - unfold Part000.endGame at 1. now rewrite Hover.
  - exact Hover.
  - exact Hempty.
  - intro Hr. destruct (isGameOver s) eqn:Hs.
    + apply Part000_reachable_inv in Hr.
      destruct Hr as [_ _ _ _ _ Ho _]. destruct (Ho Hs) as (_ & Hb & Ha).
      unfold Part000.endGame. rewrite Hs. now split.
    + destruct (Hempty eq_refl) as (Hb & Ha & _). now split.
  - cbv zeta. unfold GameJs.endGame. simpl. repeat split.
Qed.

(** C7, as the code has it.  Once [isGameOver] holds, no asteroid is
    spawned any more because the frame returns at once: every frame and
    every input callback leaves the state as it is, so the asteroids stay
    as they are and [isGameOver] stays set, in both scripts; in a state
    either script has reached there is none, and none appears.  In the
    cockpit variant, in addition, [spawnAsteroidsIfNeeded] itself does
    nothing once [isGameOver] holds, and teardown sets the spawn clock to
    [Infinity], which alone already disables the spawn.  In [game.js]
    neither holds: the trigger does not look at [isGameOver], so called
    on a state that is over, with the interval passed and room left, it
    still appends the asteroid that is built, and teardown leaves the
    spawn clock as it was. *)
Theorem no_spawn_after_game_over (s : State) :
  isGameOver s = true ->
  (forall f, Part000.spawnAsteroidsIfNeeded f s = s)
  /\ (forall acts,
         asteroids (Part000.run acts s) = asteroids s
         /\ isGameOver (Part000.run acts s) = true)
  /\ (forall acts,
         asteroids (GameJs.run acts s) = asteroids s
         /\ isGameOver (GameJs.run acts s) = true)
  /\ (Part000.reachable s ->
      forall acts, asteroids (Part000.run acts s) = [])
  /\ (GameJs.reachable s ->
      forall acts, asteroids (GameJs.run acts s) = [])
  /\ (forall s0, isGameOver s0 = false ->
         lastAsteroidSpawnTime (Part000.endGame s0) = Infinity
         /\ isGameOver (Part000.endGame s0) = true
         /\ asteroids (Part000.endGame s0) = [])
  /\ (forall f s1, lastAsteroidSpawnTime s1 = Infinity ->
         Part000.spawnAsteroidsIfNeeded f s1 = s1)
  /\ (forall f,
         Part000.updateGameLogic f s = s /\ GameJs.updateGameLogic f s = s)
  /\ (forall f t0 made,
         lastAsteroidSpawnTime s = Finite t0 ->
         (t0 + ASTEROID_SPAWN_INTERVAL < now f)%Z ->
         (length (asteroids s) < ASTEROID_MAX_COUNT)%nat ->
         created f = Some made ->
         asteroids (GameJs.spawnAsteroidsIfNeeded f s)
         = asteroids s ++ [made]
         /\ isGameOver (GameJs.spawnAsteroidsIfNeeded f s) = true)
  /\ (forall s0,
         lastAsteroidSpawnTime (GameJs.endGame s0) = lastAsteroidSpawnTime s0
         /\ isGameOver (GameJs.endGame s0) = true
         /\ asteroids (GameJs.endGame s0) = []).
Proof.
  intro Hover. repeat apply conj.
  - intro f.
    pose proof (Part000_spawn_count f s) as (_ & _ & _ & H & _). auto.
  - intro acts. now rewrite Part000_run_frozen.
  - intro acts. now rewrite GameJs_run_frozen.
  - intros Hr acts. rewrite Part000_run_frozen by exact Hover.
    apply Part000_reachable_inv in Hr.
    destruct Hr as [_ _ _ _ _ Ho _]. now destruct (Ho Hover) as (_ & _ & Ha).
  - intros Hr acts. rewrite GameJs_run_frozen by exact Hover.
    apply GameJs_reachable_inv in Hr.
    destruct Hr as [_ _ _ Ho _]. now destruct (Ho Hover) as (_ & _ & Ha).
  - intros s0 H0. unfold Part000.endGame. rewrite H0. simpl.
    repeat split; repeat (break_match; simpl); reflexivity.
  - intros f s1 H1.
    pose proof (Part000_spawn_count f s1) as (_ & _ & _ & _ & H). auto.
  - intro f. unfold Part000.updateGameLogic, GameJs.updateGameLogic.
    now rewrite Hover.
  - intros f t0 made Hclock Hlate Hroom Hmade.
    unfold GameJs.spawnAsteroidsIfNeeded, GameJs.createAsteroid, laterThan.
    rewrite Hclock, Hmade.
    assert (L : (t0 + ASTEROID_SPAWN_INTERVAL <? now f)%Z = true)
      by now apply Z.ltb_lt.
    assert (R : (length (asteroids s) <? ASTEROID_MAX_COUNT)%nat = true)
      by now apply Nat.ltb_lt.
    rewrite L, R. simpl. split; [reflexivity|exact Hover].
  - intro s0. repeat split.
Qed.
End GameOver.

Lemma endGame_idempotent_witness :
  bullets (Part000.endGame freshGame) = []
  /\ asteroids (Part000.endGame freshGame) = [].
Proof.
  apply (@endGame_idempotent exampleEngine freshGame).
  apply Part000.reachable_init, started_with_ship.
Defined.

(** A game that is over, both scripts: two frames whose clock and
    [created] would spawn leave no asteroid; the trigger of [game.js],
    called by itself on that state, would append one. *)
Lemma no_spawn_after_game_over_witness :
  let frames := [mkFrame 5000 (Some newAsteroid);
                 mkFrame 9000 (Some newAsteroid)] in
  asteroids (@Part000.run exampleEngine (map Part000.Render frames)
               (Part000.endGame freshGame)) = []
  /\ asteroids (@GameJs.run exampleEngine (map GameJs.Render frames)
                  (GameJs.endGame freshGame)) = []
  /\ asteroids (GameJs.spawnAsteroidsIfNeeded
                  (mkFrame 5000 (Some newAsteroid))
                  (GameJs.endGame freshGame)) = [newAsteroid].
Proof.
  cbv zeta.
  destruct (@no_spawn_after_game_over exampleEngine (Part000.endGame freshGame)
              eq_refl) as (_ & Hrun & _).
  destruct (@no_spawn_after_game_over exampleEngine (GameJs.endGame freshGame)
              eq_refl) as (_ & _ & Grun & _ & _ & _ & _ & _ & Gspawn & _).
  split; [rewrite (proj1 (Hrun _)); reflexivity|].
  split; [rewrite (proj1 (Grun _)); reflexivity|].
  apply (Gspawn (mkFrame 5000 (Some newAsteroid)) 0%Z newAsteroid eq_refl);
    [now vm_compute|unfold ASTEROID_MAX_COUNT; simpl; lia|reflexivity].
Defined.

(** C7 as the specification states it fails on the mechanism in
    [game.js]: after teardown the game is over but the spawn clock still
    holds its old time instead of being frozen, and the spawn trigger,
    which has no [isGameOver] condition, appends an asteroid to a game
    that is over. *)
Lemma no_spawn_after_game_over_counterexample :
  let over := GameJs.endGame freshGame in
  let f := mkFrame 1001 (Some newAsteroid) in
  isGameOver over = true
  /\ asteroids over = []
  /\ lastAsteroidSpawnTime over = Finite 0
  /\ lastAsteroidSpawnTime over <> Infinity
  /\ asteroids (GameJs.spawnAsteroidsIfNeeded f over) = [newAsteroid]
  /\ GameJs.spawnAsteroidsIfNeeded f over <> over.
Proof.
  cbv zeta. split; [reflexivity|]. split; [reflexivity|].
  split; [reflexivity|]. split; [discriminate|]. split; [reflexivity|].
  intro H. apply (f_equal asteroids) in H. discriminate H.
Qed.

(** ** The score *)

Section Score.
Context {E : Babylon}.

(** C10.  The score starts at 0; in every reachable state it is
    non-negative and a multiple of 100; no action of the host lowers it,
    and what an action adds is a whole number of rewards of 100; one
    pass of the bullet loop body, the only code that writes [score],
    leaves it or adds exactly 100.  Both scripts. *)
Theorem score_is_rewards (ship : option Ship) :
  score (initialState ship) = 0%Z
  /\ (forall s, Part000.reachable s ->
                (0 <= score s)%Z /\ (score s mod 100 = 0)%Z)
  /\ (forall a s,
         (score s <= score (Part000.perform a s))%Z
         /\ rewarded (score s) (score (Part000.perform a s)))
  /\ (forall i s,
         score (Part000.bulletLoop_body i s) = score s
         \/ score (Part000.bulletLoop_body i s) = (score s + 100)%Z)
  /\ (forall s, GameJs.reachable s ->
                (0 <= score s)%Z /\ (score s mod 100 = 0)%Z)
  /\ (forall a s,
         (score s <= score (GameJs.perform a s))%Z
         /\ rewarded (score s) (score (GameJs.perform a s)))
  /\ (forall i s,
         score (GameJs.bulletLoop_body i s) = score s
         \/ score (GameJs.bulletLoop_body i s) = (score s + 100)%Z).
Proof.
  repeat apply conj.
  - reflexivity.
  - intros s Hr. rewrite (Part000_score_stays_zero s Hr). split; [lia|].
    reflexivity.
  - intros a s. pose proof (Part000_perform_score a s) as H.
    split; [now apply rewarded_le|exact H].
  - intros i s. unfold Part000.bulletLoop_body.
    repeat (break_match; simpl); auto.
  - intros s Hr. apply GameJs_reachable_inv in Hr.
    destruct Hr as [_ Hs _]. split.
    + now apply rewarded_le in Hs.
    + now apply rewarded_mod in Hs.
  - intros a s. pose proof (GameJs_perform_score a s) as H.
    split; [now apply rewarded_le|exact H].
  - intros i s. unfold GameJs.bulletLoop_body.
    repeat (break_match; simpl); auto.
Qed.
End Score.

Lemma score_is_rewards_witness :
  let s := @GameJs.perform exampleEngine
             (GameJs.Render (mkFrame 2000 (Some newAsteroid))) freshGame in
  (0 <= score s)%Z /\ (score s mod 100 = 0)%Z.
Proof.
  apply (@score_is_rewards exampleEngine None).
  apply GameJs.reachable_step, GameJs.reachable_init, started_with_ship.
Defined.

(** * Properties of the code around the claims *)

(** ** The play volume *)

Lemma wrapAxis_range (limit c : Q) :
  0 <= limit ->
  - limit <= wrapAxis limit c /\ wrapAxis limit c <= limit.
Proof.
  intro Hpos. unfold wrapAxis.
  destruct (Qgtb c limit) eqn:Hgt; [split; lra|].
  destruct (Qltb c (- limit)) eqn:Hlt; [split; lra|].
  apply Qgtb_false_iff in Hgt.
  unfold Qltb in Hlt. apply negb_false_iff, Qle_bool_iff in Hlt.
  split; assumption.
Qed.

Lemma set_position_same {M : Type} (mesh : Mesh M) :
  set_position (vec3 (vx (position mesh)) (vy (position mesh))
                     (vz (position mesh))) mesh = mesh.
Proof. destruct mesh as [[x y z] r v e d b m]. reflexivity. Qed.

Lemma within_wrapAxis (limit : Q) (p : Vec3) :
  within limit p ->
  vec3 (wrapAxis limit (vx p)) (wrapAxis limit (vy p))
       (wrapAxis limit (vz p)) = vec3 (vx p) (vy p) (vz p).
Proof.
  intro H.
  destruct (H AxisX) as (Hx1 & Hx2). destruct (H AxisY) as (Hy1 & Hy2).
  destruct (H AxisZ) as (Hz1 & Hz2). simpl in *.
  now rewrite !wrapAxis_inside.
Qed.

Lemma Part000_wrapAround_within {M : Type} (mesh : Mesh M) :
  within Part000.wrapLimit (position (Part000.wrapAround mesh)).
Proof.
  intro ax. rewrite Part000_wrapAround_coord.
  apply wrapAxis_range. discriminate.
Qed.

Lemma GameJs_wrapAround_within {M : Type} (mesh : Mesh M) :
  within PLAY_AREA_SIZE (position (GameJs.wrapAround mesh)).
Proof.
  intro ax. rewrite GameJs_wrapAround_coord.
  apply wrapAxis_range. discriminate.
Qed.

Lemma Part000_wrapAround_inside {M : Type} (mesh : Mesh M) :
  within Part000.wrapLimit (position mesh) -> Part000.wrapAround mesh = mesh.
Proof.
  intro H. unfold Part000.wrapAround. cbv zeta.
  rewrite within_wrapAxis by exact H. apply set_position_same.
Qed.

Lemma GameJs_wrapAround_inside {M : Type} (mesh : Mesh M) :
  within PLAY_AREA_SIZE (position mesh) -> GameJs.wrapAround mesh = mesh.
Proof.
  intro H. unfold GameJs.wrapAround. cbv zeta.
  rewrite within_wrapAxis by exact H. apply set_position_same.
Qed.

(** X1.  [wrapAround] keeps a mesh in the play volume and settles at
    once: after it every coordinate lies between minus the limit and the
    limit, a second application changes nothing, a mesh already inside is
    returned as it is, and nothing but the position is ever touched.
    Both scripts. *)
Theorem wrapAround_settles {M : Type} (mesh : Mesh M) :
  let w1 := Part000.wrapAround mesh in
  let w2 := GameJs.wrapAround mesh in
  within Part000.wrapLimit (position w1)
  /\ Part000.wrapAround w1 = w1
  /\ (within Part000.wrapLimit (position mesh) -> w1 = mesh)
  /\ set_position (position mesh) w1 = mesh
  /\ within PLAY_AREA_SIZE (position w2)
  /\ GameJs.wrapAround w2 = w2
  /\ (within PLAY_AREA_SIZE (position mesh) -> w2 = mesh)
  /\ set_position (position mesh) w2 = mesh.
Proof.
  cbv zeta. repeat apply conj.
  - apply Part000_wrapAround_within.
  - apply Part000_wrapAround_inside, Part000_wrapAround_within.
  - apply Part000_wrapAround_inside.
  - destruct mesh as [[x y z] r v e d b m]. reflexivity.
  - apply GameJs_wrapAround_within.
  - apply GameJs_wrapAround_inside, GameJs_wrapAround_within.
  - apply GameJs_wrapAround_inside.
  - destruct mesh as [[x y z] r v e d b m]. reflexivity.
Qed.

Lemma wrapAround_settles_witness :
  Part000.wrapAround (theShip 1) = theShip 1.
Proof.
  apply (proj1 (proj2 (proj2 (wrapAround_settles (theShip 1))))).
  intro ax. destruct ax; split; discriminate.
Defined.

Lemma Qgtb_abs_false (c limit : Q) :
  Qgtb (Qabs c) limit = false <-> - limit <= c /\ c <= limit.
Proof.
  rewrite Qgtb_false_iff. apply Qabs_Qle_condition.
Qed.

Lemma Part000_isOutOfBounds_false (p : Vec3) :
  Part000.isOutOfBounds p = false <-> within (PLAY_AREA_SIZE + 10) p.
Proof.
  unfold Part000.isOutOfBounds. cbv zeta.
  rewrite !orb_false_iff, !Qgtb_abs_false. split.
  - intros ((Hx & Hy) & Hz) ax. destruct ax; assumption.
  - intro H. repeat split; first [apply (H AxisX)|apply (H AxisY)|apply (H AxisZ)].
Qed.

Lemma GameJs_isOutOfBounds_false (p : Vec3) :
  GameJs.isOutOfBounds p = false <-> within (PLAY_AREA_SIZE + 5) p.
Proof.
  unfold GameJs.isOutOfBounds.
  rewrite !orb_false_iff, !Qgtb_abs_false. split.
  - intros ((Hx & Hy) & Hz) ax. destruct ax; assumption.
  - intro H. repeat split; first [apply (H AxisX)|apply (H AxisY)|apply (H AxisZ)].
Qed.

Lemma within_wider (l1 l2 : Q) (p : Vec3) :
  l1 <= l2 -> within l1 p -> within l2 p.
Proof.
  intros Hle H ax. destruct (H ax) as (H1 & H2). split; lra.
Qed.

(** X2.  [isOutOfBounds] is the test that some coordinate has left the
    cube of half side [PLAY_AREA_SIZE + 10] (cockpit variant) or
    [PLAY_AREA_SIZE + 5] ([game.js]), faces included in the cube; that
    cube contains the wrap volume, so what [wrapAround] returns is never
    out of bounds. *)
Theorem isOutOfBounds_outside_wrap {M : Type} (p : Vec3) (mesh : Mesh M) :
  (Part000.isOutOfBounds p = false <-> within (PLAY_AREA_SIZE + 10) p)
  /\ (GameJs.isOutOfBounds p = false <-> within (PLAY_AREA_SIZE + 5) p)
  /\ Part000.isOutOfBounds (position (Part000.wrapAround mesh)) = false
  /\ GameJs.isOutOfBounds (position (GameJs.wrapAround mesh)) = false.
Proof.
  split; [|split; [|split]].
  - apply Part000_isOutOfBounds_false.
  - apply GameJs_isOutOfBounds_false.
  - apply Part000_isOutOfBounds_false.
    apply (within_wider Part000.wrapLimit); [discriminate|].
    apply Part000_wrapAround_within.
  - apply GameJs_isOutOfBounds_false.
    apply (within_wider PLAY_AREA_SIZE); [discriminate|].
    apply GameJs_wrapAround_within.
Qed.
(** ** Bullets in flight *)

Lemma Part000_updateBullets_length (bs : list Bullet) :
  (length (Part000.updateBullets bs) <= length bs)%nat.
Proof.
  rewrite Part000_updateBullets_flat_map.
  induction bs as [|b bs IH]; simpl; [lia|].
  rewrite length_app. unfold Part000_bulletAfter at 1.
  destruct (metadata b); simpl; [|lia].
  destruct (_ || _); simpl; lia.
Qed.

Lemma GameJs_updateBullets_length (bs : list Bullet) :
  (length (GameJs.updateBullets bs) <= length bs)%nat.
Proof.
  rewrite GameJs_updateBullets_flat_map.
  induction bs as [|b bs IH]; simpl; [lia|].
  rewrite length_app. unfold GameJs_bulletAfter at 1.
  destruct (metadata b); simpl; [|lia].
  destruct (_ || _); simpl; lia.
Qed.

(** X3.  What [updateBullets] leaves: each remaining bullet is one of the
    old ones moved by its own velocity, with the same velocity and one
    frame less to live; it has at least one frame left and is not out of
    bounds; the order of the bullets is kept and none is added.  Both
    scripts. *)
Theorem updateBullets_survivors (bs : list Bullet) (b' : Bullet) :
  (In b' (Part000.updateBullets bs) ->
   exists b md,
     In b bs /\ metadata b = Some md
     /\ b' = set_metadata
               (Some (mkBulletMeta (bulletVelocity md) (life md - 1)))
               (set_position (add (position b) (bulletVelocity md)) b)
     /\ (1 <= life md - 1)%Z
     /\ Part000.isOutOfBounds (position b') = false)
  /\ (In b' (GameJs.updateBullets bs) ->
      exists b md,
        In b bs /\ metadata b = Some md
        /\ b' = set_metadata
                  (Some (mkBulletMeta (bulletVelocity md) (life md - 1)))
                  (set_position (add (position b) (bulletVelocity md)) b)
        /\ (1 <= life md - 1)%Z
        /\ GameJs.isOutOfBounds (position b') = false)
  /\ Part000.updateBullets bs = flat_map Part000_bulletAfter bs
  /\ GameJs.updateBullets bs = flat_map GameJs_bulletAfter bs
  /\ (length (Part000.updateBullets bs) <= length bs)%nat
  /\ (length (GameJs.updateBullets bs) <= length bs)%nat.
Proof.
  split; [|split; [|split; [|split; [|split]]]].
  - rewrite Part000_updateBullets_flat_map, in_flat_map.
    intros (b & Hin & Hb'). unfold Part000_bulletAfter in Hb'.
    destruct (metadata b) as [md|] eqn:Hmd; [|contradiction].
    cbv zeta in Hb'.
    destruct (life md - 1 <=? 0)%Z eqn:Hl; [contradiction|].
    destruct (Part000.isOutOfBounds _) eqn:Ho; [contradiction|].
    destruct Hb' as [<-|[]]. exists b, md.
    apply Z.leb_gt in Hl. repeat split; try assumption; lia.
  - rewrite GameJs_updateBullets_flat_map, in_flat_map.
    intros (b & Hin & Hb'). unfold GameJs_bulletAfter in Hb'.
    destruct (metadata b) as [md|] eqn:Hmd; [|contradiction].
    cbv zeta in Hb'.
    destruct (life md - 1 <=? 0)%Z eqn:Hl; [contradiction|].
    destruct (GameJs.isOutOfBounds _) eqn:Ho; [contradiction|].
    destruct Hb' as [<-|[]]. exists b, md.
    apply Z.leb_gt in Hl. repeat split; try assumption; lia.
  - apply Part000_updateBullets_flat_map.
  - apply GameJs_updateBullets_flat_map.
  - apply Part000_updateBullets_length.
  - apply GameJs_updateBullets_length.
Qed.

Lemma updateBullets_survivors_witness :
  exists b md,
    In b [restingBullet 2] /\ metadata b = Some md
    /\ (1 <= life md - 1)%Z.
Proof.
  destruct (proj1 (updateBullets_survivors [restingBullet 2]
                     (restingBullet 1)))
    as (b & md & Hin & Hmd & _ & Hl & _).
  - left. reflexivity.
  - exists b, md. repeat split; assumption.
Defined.

(** Frames a bullet can still be drawn in. *)
Lemma Part000_range_step (n : nat) (bs : list Bullet) :
  (forall b md, In b bs -> metadata b = Some md ->
                (life md <= Z.of_nat (S n))%Z) ->
  forall b md, In b (Part000.updateBullets bs) -> metadata b = Some md ->
               (life md <= Z.of_nat n)%Z.
Proof.
  intros H b' md' Hin Hmd'.
  rewrite Part000_updateBullets_flat_map, in_flat_map in Hin.
  destruct Hin as (b & Hin & Hb'). unfold Part000_bulletAfter in Hb'.
  destruct (metadata b) as [md|] eqn:Hmd; [|contradiction].
  cbv zeta in Hb'. destruct (_ || _); [contradiction|].
  destruct Hb' as [<-|[]]. simpl in Hmd'. injection Hmd' as <-. simpl.
  specialize (H b md Hin Hmd). lia.
Qed.

Lemma GameJs_range_step (n : nat) (bs : list Bullet) :
  (forall b md, In b bs -> metadata b = Some md ->
                (life md <= Z.of_nat (S n))%Z) ->
  forall b md, In b (GameJs.updateBullets bs) -> metadata b = Some md ->
               (life md <= Z.of_nat n)%Z.
Proof.
  intros H b' md' Hin Hmd'.
  rewrite GameJs_updateBullets_flat_map, in_flat_map in Hin.
  destruct Hin as (b & Hin & Hb'). unfold GameJs_bulletAfter in Hb'.
  destruct (metadata b) as [md|] eqn:Hmd; [|contradiction].
  cbv zeta in Hb'. destruct (_ || _); [contradiction|].
  destruct Hb' as [<-|[]]. simpl in Hmd'. injection Hmd' as <-. simpl.
  specialize (H b md Hin Hmd). lia.
Qed.

Lemma Part000_last_pass (bs : list Bullet) :
  (forall b md, In b bs -> metadata b = Some md -> (life md <= 1)%Z) ->
  Part000.updateBullets bs = [].
Proof.
  intro H. rewrite Part000_updateBullets_flat_map.
  induction bs as [|b bs IH]; [reflexivity|]. simpl.
  rewrite IH by (intros; eapply H; [right|]; eassumption).
  unfold Part000_bulletAfter. destruct (metadata b) as [md|] eqn:Hmd;
    [|reflexivity].
  cbv zeta. assert (Hl : (life md - 1 <=? 0)%Z = true).
  { apply Z.leb_le. specialize (H b md (or_introl eq_refl) Hmd). lia. }
  now rewrite Hl.
Qed.

Lemma GameJs_last_pass (bs : list Bullet) :
  (forall b md, In b bs -> metadata b = Some md -> (life md <= 1)%Z) ->
  GameJs.updateBullets bs = [].
Proof.
  intro H. rewrite GameJs_updateBullets_flat_map.
  induction bs as [|b bs IH]; [reflexivity|]. simpl.
  rewrite IH by (intros; eapply H; [right|]; eassumption).
  unfold GameJs_bulletAfter. destruct (metadata b) as [md|] eqn:Hmd;
    [|reflexivity].
  cbv zeta. assert (Hl : (life md - 1 <=? 0)%Z = true).
  { apply Z.leb_le. specialize (H b md (or_introl eq_refl) Hmd). lia. }
  now rewrite Hl.
Qed.

(** X4.  Bullets do not outlive their [life]: when no bullet of an array
    has more than [n] frames left, [n >= 1], then [n] passes of
    [updateBullets] empty the array, wherever the bullets are and however
    they move.  Both scripts. *)
Theorem bullets_expire (n : nat) (bs : list Bullet) :
  (1 <= n)%nat ->
  (forall b md, In b bs -> metadata b = Some md ->
                (life md <= Z.of_nat n)%Z) ->
  Nat.iter n Part000.updateBullets bs = []
  /\ Nat.iter n GameJs.updateBullets bs = [].
Proof.
  intros Hn. destruct n as [|n]; [lia|]. clear Hn. revert bs.
  induction n as [|n IH]; intros bs H.
  - simpl. split; [now apply Part000_last_pass|now apply GameJs_last_pass].
  - rewrite !(Nat.iter_succ_r (S n)). split.
    + apply IH. now apply Part000_range_step.
    + apply IH. now apply GameJs_range_step.
Qed.

Lemma bullets_expire_witness :
  Nat.iter 3 Part000.updateBullets [restingBullet 3; restingBullet 2] = [].
Proof.
  apply (bullets_expire 3 [restingBullet 3; restingBullet 2]); [lia|].
  intros b md [<-|[<-|[]]] Hmd; injection Hmd as <-; simpl; lia.
Defined.
(** ** Asteroids adrift *)

Lemma Part000_updateAsteroids_flat_map (l : list Asteroid) :
  Part000.updateAsteroids l = flat_map Part000_asteroidAfter l.
Proof.
  unfold Part000.updateAsteroids.
  rewrite <- (app_nil_r l) at 2.
  rewrite (forDown_flat_map Part000.updateAsteroids_body
                            Part000_asteroidAfter).
  - apply app_nil_r.
  - intros l1 x l2. unfold Part000.updateAsteroids_body, Part000_asteroidAfter.
    rewrite nth_error_middle.
    destruct (metadata x) as [md|]; [apply store_middle|apply splice_middle].
Qed.

Lemma GameJs_updateAsteroids_flat_map (l : list Asteroid) :
  GameJs.updateAsteroids l = flat_map GameJs_asteroidAfter l.
Proof.
  unfold GameJs.updateAsteroids.
  rewrite <- (app_nil_r l) at 2.
  rewrite (forDown_flat_map GameJs.updateAsteroids_body
                            GameJs_asteroidAfter).
  - apply app_nil_r.
  - intros l1 x l2. unfold GameJs.updateAsteroids_body, GameJs_asteroidAfter.
    rewrite nth_error_middle.
    destruct (metadata x) as [md|]; [apply store_middle|apply splice_middle].
Qed.

Lemma flat_map_singletons {A : Type} (f : A -> list A) (l : list A) :
  (forall x, In x l -> length (f x) = 1%nat) ->
  length (flat_map f l) = length l.
Proof.
  intro H. induction l as [|x l IH]; simpl; [reflexivity|].
  rewrite length_app, IH, H.
  - reflexivity.
  - now left.
  - intros y Hy. apply H. now right.
Qed.

(** X5.  [updateAsteroids] never loses an asteroid that has its metadata:
    each is moved by its velocity and wrapped, so that afterwards it lies
    in the wrap volume, with its metadata (velocity, size, spin) as
    before; only entries without metadata are dropped, and the order is
    kept.  Both scripts. *)
Theorem updateAsteroids_keeps_asteroids (l : list Asteroid) :
  Part000.updateAsteroids l = flat_map Part000_asteroidAfter l
  /\ GameJs.updateAsteroids l = flat_map GameJs_asteroidAfter l
  /\ (forall a', In a' (Part000.updateAsteroids l) ->
        exists a md,
          In a l /\ metadata a = Some md /\ metadata a' = Some md
          /\ within Part000.wrapLimit (position a')
          /\ forall ax, coord ax (position a')
                        = wrapAxis Part000.wrapLimit
                            (coord ax (add (position a)
                                           (asteroidVelocity md))))
  /\ (forall a', In a' (GameJs.updateAsteroids l) ->
        exists a md,
          In a l /\ metadata a = Some md /\ metadata a' = Some md
          /\ within PLAY_AREA_SIZE (position a')
          /\ forall ax, coord ax (position a')
                        = wrapAxis PLAY_AREA_SIZE
                            (coord ax (add (position a)
                                           (asteroidVelocity md))))
  /\ ((forall a, In a l -> metadata a <> None) ->
      length (Part000.updateAsteroids l) = length l
      /\ length (GameJs.updateAsteroids l) = length l).
Proof.
  split; [apply Part000_updateAsteroids_flat_map|].
  split; [apply GameJs_updateAsteroids_flat_map|].
  split; [|split].
  - intro a'. rewrite Part000_updateAsteroids_flat_map, in_flat_map.
    intros (a & Hin & Ha'). unfold Part000_asteroidAfter in Ha'.
    destruct (metadata a) as [md|] eqn:Hmd; [|contradiction].
    destruct Ha' as [<-|[]]. exists a, md.
    split; [exact Hin|]. split; [exact Hmd|]. split; [exact Hmd|].
    split; [apply Part000_wrapAround_within|].
    intro ax. now rewrite Part000_wrapAround_coord.
  - intro a'. rewrite GameJs_updateAsteroids_flat_map, in_flat_map.
    intros (a & Hin & Ha'). unfold GameJs_asteroidAfter in Ha'.
    destruct (metadata a) as [md|] eqn:Hmd; [|contradiction].
    destruct Ha' as [<-|[]]. exists a, md.
    split; [exact Hin|]. split; [exact Hmd|]. split; [exact Hmd|].
    split; [apply GameJs_wrapAround_within|].
    intro ax. now rewrite GameJs_wrapAround_coord.
  - intro H. rewrite Part000_updateAsteroids_flat_map,
      GameJs_updateAsteroids_flat_map.
    split; apply flat_map_singletons; intros a Ha; specialize (H a Ha).
    + unfold Part000_asteroidAfter. now destruct (metadata a).
    + unfold GameJs_asteroidAfter. now destruct (metadata a).
Qed.

Lemma updateAsteroids_keeps_asteroids_witness :
  length (Part000.updateAsteroids [newAsteroid; overlappingAsteroid])
  = 2%nat.
Proof.
  apply (updateAsteroids_keeps_asteroids [newAsteroid; overlappingAsteroid]).
  intros a [<-|[<-|[]]]; discriminate.
Defined.
(** ** The player's motion *)

Lemma lengthSquared_scale (v : Vec3) (k : Q) :
  lengthSquared (scale v k) == k * k * lengthSquared v.
Proof. unfold lengthSquared, scale. simpl. ring. Qed.

Section PlayerMotion.
Context {E : Babylon}.

(** X6.  The player block of the frame.  A ship that is absent or
    disabled is not moved.  An enabled ship is moved by the velocity the
    block leaves and then wrapped, so it ends in the wrap volume, its
    heading untouched.  The cockpit variant first damps the velocity by
    0.98 and, if that is still faster than [PLAYER_MAX_SPEED], replaces it
    by the normalised velocity times [PLAYER_MAX_SPEED]: with an engine
    that normalises to length 1 the speed after the block never exceeds
    [PLAYER_MAX_SPEED].  [game.js] leaves the velocity as it is. *)
Theorem movePlayer_moves (s : State) :
  ((playerShip s = None
    \/ exists ship, playerShip s = Some ship /\ isEnabled ship = false) ->
   Part000.movePlayer s = s /\ GameJs.movePlayer s = s)
  /\ (forall ship,
         playerShip s = Some ship -> isEnabled ship = true ->
         let v1 := scale (playerVelocity s) Part000.PLAYER_DAMPING in
         let top := Part000.PLAYER_MAX_SPEED * Part000.PLAYER_MAX_SPEED in
         let s' := Part000.movePlayer s in
         let v' := playerVelocity s' in
         (lengthSquared v1 <= top -> v' = v1)
         /\ (top < lengthSquared v1 ->
             v' = scale (normalize v1) Part000.PLAYER_MAX_SPEED)
         /\ (lengthSquared (normalize v1) == 1 -> lengthSquared v' <= top)
         /\ playerShip s'
            = Some (Part000.wrapAround
                      (set_position (add (position ship) v') ship))
         /\ (exists ship',
                playerShip s' = Some ship'
                /\ within Part000.wrapLimit (position ship')
                /\ rotation ship' = rotation ship
                /\ isEnabled ship' = true)
         /\ playerVelocity (GameJs.movePlayer s) = playerVelocity s
         /\ playerShip (GameJs.movePlayer s)
            = Some (GameJs.wrapAround
                      (set_position (add (position ship) (playerVelocity s))
                                    ship))
         /\ (exists ship',
                playerShip (GameJs.movePlayer s) = Some ship'
                /\ within PLAY_AREA_SIZE (position ship')
                /\ rotation ship' = rotation ship
                /\ isEnabled ship' = true)).
Proof.
  split.
  - unfold Part000.movePlayer, GameJs.movePlayer.
    intros [Hn|(ship & Hs & He)].
    + now rewrite Hn.
    + now rewrite Hs, He.
  - intros ship Hship Hen. cbv zeta.
    unfold Part000.movePlayer, GameJs.movePlayer. rewrite Hship, Hen.
    set (v1 := scale (playerVelocity s) Part000.PLAYER_DAMPING).
    set (top := Part000.PLAYER_MAX_SPEED * Part000.PLAYER_MAX_SPEED).
    cbn [playerVelocity playerShip set_playerShip set_playerVelocity].
    split; [|split; [|split; [|split; [|split; [|split; [|split]]]]]].
    + intro Hle. apply Qgtb_false_iff in Hle. now rewrite Hle.
    + intro Hlt. apply Qgtb_true_iff in Hlt. now rewrite Hlt.
    + intro Hunit. destruct (Qgtb (lengthSquared v1) top) eqn:Hc.
      * rewrite lengthSquared_scale, Hunit. unfold top. lra.
      * now apply Qgtb_false_iff in Hc.
    + reflexivity.
    + eexists. split; [reflexivity|].
      split; [apply Part000_wrapAround_within|]. split; [reflexivity|].
      exact Hen.
    + reflexivity.
    + reflexivity.
    + eexists. split; [reflexivity|].
      split; [apply GameJs_wrapAround_within|]. split; [reflexivity|].
      exact Hen.
Qed.
End PlayerMotion.

(** A ship flying along X at 2 per frame, faster than the cockpit
    variant allows. *)
Lemma movePlayer_moves_witness :
  let s := set_playerVelocity (vec3 2 0 0) freshGame in
  lengthSquared (playerVelocity (@Part000.movePlayer exampleEngine s))
  <= Part000.PLAYER_MAX_SPEED * Part000.PLAYER_MAX_SPEED.
Proof.
  cbv zeta.
  destruct (proj2 (@movePlayer_moves exampleEngine
                     (set_playerVelocity (vec3 2 0 0) freshGame))
                  (theShip 1) eq_refl eq_refl) as (_ & _ & H & _).
  apply H. reflexivity.
Defined.
(** ** The spawn clock *)

Section SpawnClock.
Context {E : Babylon}.

Lemma Part000_clock_beforeSpawn (s : State) :
  lastAsteroidSpawnTime
    (let s1 := Part000.movePlayer s in
     let s2 := set_bullets (Part000.updateBullets (bullets s1)) s1 in
     set_asteroids (Part000.updateAsteroids (asteroids s2)) s2)
  = lastAsteroidSpawnTime s.
Proof.
  cbv zeta. unfold Part000.movePlayer.
  destruct (playerShip s) as [ship|]; [|reflexivity].
  destruct (isEnabled ship); reflexivity.
Qed.

Lemma GameJs_clock_beforeSpawn (s : State) :
  lastAsteroidSpawnTime
    (let s1 := GameJs.movePlayer s in
     let s2 := set_bullets (GameJs.updateBullets (bullets s1)) s1 in
     set_asteroids (GameJs.updateAsteroids (asteroids s2)) s2)
  = lastAsteroidSpawnTime s.
Proof.
  cbv zeta. unfold GameJs.movePlayer.
  destruct (playerShip s) as [ship|]; [|reflexivity].
  destruct (isEnabled ship); reflexivity.
Qed.

Lemma Part000_early_spawn (f : Frame) (s : State) (t0 : Z) :
  lastAsteroidSpawnTime s = Finite t0 ->
  (now f <= t0 + ASTEROID_SPAWN_INTERVAL)%Z ->
  Part000.spawnAsteroidsIfNeeded f s = s.
Proof.
  intros Hclock Hearly. unfold Part000.spawnAsteroidsIfNeeded, laterThan.
  rewrite Hclock.
  assert (H : (t0 + ASTEROID_SPAWN_INTERVAL <? now f)%Z = false)
    by (apply Z.ltb_ge; lia).
  now rewrite H.
Qed.

Lemma GameJs_early_spawn (f : Frame) (s : State) (t0 : Z) :
  lastAsteroidSpawnTime s = Finite t0 ->
  (now f <= t0 + ASTEROID_SPAWN_INTERVAL)%Z ->
  GameJs.spawnAsteroidsIfNeeded f s = s.
Proof.
  intros Hclock Hearly. unfold GameJs.spawnAsteroidsIfNeeded, laterThan.
  rewrite Hclock.
  assert (H : (t0 + ASTEROID_SPAWN_INTERVAL <? now f)%Z = false)
    by (apply Z.ltb_ge; lia).
  now rewrite H.
Qed.

(** X7.  The spawn is rate limited by the clock [lastAsteroidSpawnTime].
    While the frame's clock is at most [ASTEROID_SPAWN_INTERVAL] = 1000 ms
    past it, [spawnAsteroidsIfNeeded] changes nothing and the whole frame
    adds no asteroid.  Once the clock is past the interval, with room
    left and the game running, the spawn stores the frame's clock even
    when [createAsteroid] built nothing, so a failed creation is retried
    only an interval later.  Both scripts. *)
Theorem spawn_waits_for_the_interval (f : Frame) (s : State) (t0 : Z) :
  lastAsteroidSpawnTime s = Finite t0 ->
  ((now f <= t0 + ASTEROID_SPAWN_INTERVAL)%Z ->
   Part000.spawnAsteroidsIfNeeded f s = s
   /\ GameJs.spawnAsteroidsIfNeeded f s = s
   /\ (length (asteroids (Part000.updateGameLogic f s))
       <= length (asteroids s))%nat
   /\ (length (asteroids (GameJs.updateGameLogic f s))
       <= length (asteroids s))%nat)
  /\ ((t0 + ASTEROID_SPAWN_INTERVAL < now f)%Z ->
      (length (asteroids s) < ASTEROID_MAX_COUNT)%nat ->
      let added := match created f with
                   | Some asteroid => [asteroid]
                   | None => []
                   end in
      (isGameOver s = false ->
       lastAsteroidSpawnTime (Part000.spawnAsteroidsIfNeeded f s)
       = Finite (now f)
       /\ asteroids (Part000.spawnAsteroidsIfNeeded f s)
          = asteroids s ++ added)
      /\ lastAsteroidSpawnTime (GameJs.spawnAsteroidsIfNeeded f s)
         = Finite (now f)
      /\ asteroids (GameJs.spawnAsteroidsIfNeeded f s)
         = asteroids s ++ added).
Proof.
  intro Hclock. split.
  - intro Hearly.
    split; [exact (Part000_early_spawn f s t0 Hclock Hearly)|].
    split; [exact (GameJs_early_spawn f s t0 Hclock Hearly)|].
    split.
    + unfold Part000.updateGameLogic.
      destruct (isGameOver s); [lia|]. cbv zeta.
      pose proof (gentle_count _ _ Part000_beforeSpawn_gentle s) as H1.
      pose proof (Part000_clock_beforeSpawn s) as Hc.
      cbv beta zeta in H1, Hc.
      set (s3 := set_asteroids _ _) in *.
      rewrite (Part000_early_spawn f s3 t0) by congruence.
      pose proof (gentle_count _ _ (Part000_afterSpawn_gentle (now f)) s3)
        as H3.
      cbv beta zeta in H3. lia.
    + unfold GameJs.updateGameLogic.
      destruct (isGameOver s); [lia|]. cbv zeta.
      pose proof (gentle_count _ _ GameJs_beforeSpawn_gentle s) as H1.
      pose proof (GameJs_clock_beforeSpawn s) as Hc.
      cbv beta zeta in H1, Hc.
      set (s3 := set_asteroids _ _) in *.
      rewrite (GameJs_early_spawn f s3 t0) by congruence.
      pose proof (gentle_count _ _ (GameJs_afterSpawn_gentle (now f)) s3)
        as H3.
      cbv beta zeta in H3. lia.
  - intros Hlate Hroom. cbv zeta.
    assert (H1 : laterThan (now f) (lastAsteroidSpawnTime s)
                           ASTEROID_SPAWN_INTERVAL = true).
    { rewrite Hclock. simpl. apply Z.ltb_lt. exact Hlate. }
    assert (H2 : (length (asteroids s) <? ASTEROID_MAX_COUNT)%nat = true)
      by (apply Nat.ltb_lt; exact Hroom).
    unfold Part000.spawnAsteroidsIfNeeded, GameJs.spawnAsteroidsIfNeeded,
      Part000.createAsteroid, GameJs.createAsteroid.
    rewrite H1, H2. simpl.
    split; [intro Hover; rewrite Hover; simpl|];
      destruct (created f); simpl; rewrite ?app_nil_r; auto.
Qed.
End SpawnClock.

(** A second after the session started nothing is spawned yet; a
    millisecond later the first asteroid is. *)
Lemma spawn_waits_for_the_interval_witness :
  let early := mkFrame 1000 (Some newAsteroid) in
  let late := mkFrame 1001 (Some newAsteroid) in
  (length (asteroids (@Part000.updateGameLogic exampleEngine early freshGame))
   <= 0)%nat
  /\ asteroids (Part000.spawnAsteroidsIfNeeded late freshGame)
     = [newAsteroid].
Proof.
  cbv zeta.
  pose proof (@spawn_waits_for_the_interval exampleEngine
                (mkFrame 1000 (Some newAsteroid)) freshGame 0%Z eq_refl)
    as [H _].
  pose proof (@spawn_waits_for_the_interval exampleEngine
                (mkFrame 1001 (Some newAsteroid)) freshGame 0%Z eq_refl)
    as [_ K].
  split.
  - apply H. now vm_compute.
  - assert (L : (0 + ASTEROID_SPAWN_INTERVAL < now (mkFrame 1001 (Some newAsteroid)))%Z)
      by now vm_compute.
    assert (R : (length (asteroids freshGame) < ASTEROID_MAX_COUNT)%nat)
      by (vm_compute; lia).
    destruct (K L R) as [K1 _]. apply (K1 eq_refl).
Defined.
(** ** Finding the asteroid that is hit *)

Lemma nth_error_lt {A : Type} (l : list A) (k : nat) (x : A) :
  nth_error l k = Some x -> (k < length l)%nat.
Proof. intro H. apply nth_error_Some. rewrite H. discriminate. Qed.

Section FindHit.
Context {E : Babylon}.

Lemma Part000_findHit_spec {M : Type} (mesh : Mesh M) (l : list Asteroid)
      (n : nat) :
  match Part000.findHit mesh n l with
  | Some j =>
      (j < n)%nat
      /\ (exists asteroid,
             nth_error l j = Some asteroid /\ live asteroid
             /\ intersectsSphere mesh asteroid = true)
      /\ forall k other,
          (j < k < n)%nat -> nth_error l k = Some other ->
          isDisposed other = true \/ intersectsSphere mesh other = false
  | None =>
      forall k other,
        (k < n)%nat -> nth_error l k = Some other ->
        isDisposed other = true \/ intersectsSphere mesh other = false
  end.
Proof.
  induction n as [|n IH]; simpl.
  - intros k other Hk. lia.
  - assert (Hskip :
      (forall other, nth_error l n = Some other ->
                     isDisposed other = true
                     \/ intersectsSphere mesh other = false) ->
      match Part000.findHit mesh n l with
      | Some j =>
          (j < S n)%nat
          /\ (exists asteroid,
                 nth_error l j = Some asteroid /\ live asteroid
                 /\ intersectsSphere mesh asteroid = true)
          /\ forall k other,
              (j < k < S n)%nat -> nth_error l k = Some other ->
              isDisposed other = true \/ intersectsSphere mesh other = false
      | None =>
          forall k other,
            (k < S n)%nat -> nth_error l k = Some other ->
            isDisposed other = true \/ intersectsSphere mesh other = false
      end).
    { intro Hn. destruct (Part000.findHit mesh n l) as [j|].
      - destruct IH as (Hj & Hex & Hrest).
        split; [lia|]. split; [exact Hex|].
        intros k other Hk Hnth.
        destruct (Nat.eq_dec k n) as [->|Hne]; [now apply Hn|].
        apply (Hrest k); [lia|exact Hnth].
      - intros k other Hk Hnth.
        destruct (Nat.eq_dec k n) as [->|Hne]; [now apply Hn|].
        apply (IH k); [lia|exact Hnth]. }
    destruct (nth_error l n) as [asteroid|] eqn:Hnth.
    + destruct (isDisposed asteroid) eqn:Hd.
      * apply Hskip. intros other [= <-]. now left.
      * destruct (intersectsSphere mesh asteroid) eqn:Hi.
        -- split; [lia|]. split.
           ++ exists asteroid. now repeat split.
           ++ intros k other Hk. lia.
        -- apply Hskip. intros other [= <-]. now right.
    + apply Hskip. intros other [=].
Qed.

Lemma GameJs_findHit_spec {M : Type} (mesh : Mesh M) (l : list Asteroid)
      (n : nat) :
  match GameJs.findHit mesh n l with
  | Some j =>
      (j < n)%nat
      /\ (exists asteroid,
             nth_error l j = Some asteroid
             /\ intersectsMesh mesh asteroid = true)
      /\ forall k other,
          (j < k < n)%nat -> nth_error l k = Some other ->
          intersectsMesh mesh other = false
  | None =>
      forall k other,
        (k < n)%nat -> nth_error l k = Some other ->
        intersectsMesh mesh other = false
  end.
Proof.
  induction n as [|n IH]; simpl.
  - intros k other Hk. lia.
  - assert (Hskip :
      (forall other, nth_error l n = Some other ->
                     intersectsMesh mesh other = false) ->
      match GameJs.findHit mesh n l with
      | Some j =>
          (j < S n)%nat
          /\ (exists asteroid,
                 nth_error l j = Some asteroid
                 /\ intersectsMesh mesh asteroid = true)
          /\ forall k other,
              (j < k < S n)%nat -> nth_error l k = Some other ->
              intersectsMesh mesh other = false
      | None =>
          forall k other,
            (k < S n)%nat -> nth_error l k = Some other ->
            intersectsMesh mesh other = false
      end).
    { intro Hn. destruct (GameJs.findHit mesh n l) as [j|].
      - destruct IH as (Hj & Hex & Hrest).
        split; [lia|]. split; [exact Hex|].
        intros k other Hk Hnth.
        destruct (Nat.eq_dec k n) as [->|Hne]; [now apply Hn|].
        apply (Hrest k); [lia|exact Hnth].
      - intros k other Hk Hnth.
        destruct (Nat.eq_dec k n) as [->|Hne]; [now apply Hn|].
        apply (IH k); [lia|exact Hnth]. }
    destruct (nth_error l n) as [asteroid|] eqn:Hnth.
    + destruct (intersectsMesh mesh asteroid) eqn:Hi.
      * split; [lia|]. split.
        -- exists asteroid. now split.
        -- intros k other Hk. lia.
      * apply Hskip. intros other [= <-]. exact Hi.
    + apply Hskip. intros other [=].
Qed.

(** X8.  The inner loop of [checkCollisions] over a whole list of
    asteroids stops at the last asteroid of the list that the mesh
    collides with: the index it returns holds a colliding asteroid and
    no asteroid behind it collides, and it returns none exactly when no
    asteroid of the list collides.  The cockpit variant tests bounding
    spheres and passes over disposed asteroids; [game.js] asks the
    engine's [intersectsMesh]. *)
Theorem findHit_takes_the_last_hit {M : Type} (mesh : Mesh M)
        (l : list Asteroid) :
  (forall j,
      Part000.findHit mesh (length l) l = Some j ->
      exists before asteroid after,
        l = before ++ asteroid :: after /\ length before = j
        /\ live asteroid /\ intersectsSphere mesh asteroid = true
        /\ Forall (fun other => isDisposed other = true
                                \/ intersectsSphere mesh other = false)
                  after)
  /\ (Part000.findHit mesh (length l) l = None
      <-> Forall (fun other => isDisposed other = true
                               \/ intersectsSphere mesh other = false) l)
  /\ (forall j,
         GameJs.findHit mesh (length l) l = Some j ->
         exists before asteroid after,
           l = before ++ asteroid :: after /\ length before = j
           /\ intersectsMesh mesh asteroid = true
           /\ Forall (fun other => intersectsMesh mesh other = false) after)
  /\ (GameJs.findHit mesh (length l) l = None
      <-> Forall (fun other => intersectsMesh mesh other = false) l).
Proof.
  pose proof (Part000_findHit_spec mesh l (length l)) as HP.
  pose proof (GameJs_findHit_spec mesh l (length l)) as HG.
  split; [|split; [|split]].
  - intros j Hj. rewrite Hj in HP.
    destruct HP as (Hlt & (asteroid & Hnth & Hlive & Hhit) & Hrest).
    destruct (nth_error_split l j Hnth) as (before & after & Hl & Hlen).
    exists before, asteroid, after. repeat split; try assumption.
    apply Forall_forall. intros other Hin.
    destruct (In_nth_error _ _ Hin) as (k & Hk).
    apply (Hrest (S (j + k))).
    + pose proof (nth_error_lt _ _ _ Hk : (k < length after)%nat) as Hlt'.
      rewrite Hl, length_app. simpl. lia.
    + rewrite Hl, <- Hlen.
      replace (S (length before + k)) with (length before + S k)%nat by lia.
      rewrite nth_error_app2 by lia.
      replace (length before + S k - length before)%nat with (S k) by lia.
      exact Hk.
  - split.
    + intro Hnone. rewrite Hnone in HP. apply Forall_forall.
      intros other Hin. destruct (In_nth_error _ _ Hin) as (k & Hk).
      apply (HP k); [|exact Hk].
      exact (nth_error_lt _ _ _ Hk).
    + intro Hall. destruct (Part000.findHit mesh (length l) l) as [j|];
        [|reflexivity].
      destruct HP as (_ & (asteroid & Hnth & Hlive & Hhit) & _).
      rewrite Forall_forall in Hall.
      destruct (Hall asteroid (nth_error_In _ _ Hnth)) as [Hd|Hi].
      * unfold live in Hlive. congruence.
      * congruence.
  - intros j Hj. rewrite Hj in HG.
    destruct HG as (Hlt & (asteroid & Hnth & Hhit) & Hrest).
    destruct (nth_error_split l j Hnth) as (before & after & Hl & Hlen).
    exists before, asteroid, after. repeat split; try assumption.
    apply Forall_forall. intros other Hin.
    destruct (In_nth_error _ _ Hin) as (k & Hk).
    apply (Hrest (S (j + k))).
    + pose proof (nth_error_lt _ _ _ Hk : (k < length after)%nat) as Hlt'.
      rewrite Hl, length_app. simpl. lia.
    + rewrite Hl, <- Hlen.
      replace (S (length before + k)) with (length before + S k)%nat by lia.
      rewrite nth_error_app2 by lia.
      replace (length before + S k - length before)%nat with (S k) by lia.
      exact Hk.
  - split.
    + intro Hnone. rewrite Hnone in HG. apply Forall_forall.
      intros other Hin. destruct (In_nth_error _ _ Hin) as (k & Hk).
      apply (HG k); [|exact Hk].
      exact (nth_error_lt _ _ _ Hk).
    + intro Hall. destruct (GameJs.findHit mesh (length l) l) as [j|];
        [|reflexivity].
      destruct HG as (_ & (asteroid & Hnth & Hhit) & _).
      rewrite Forall_forall in Hall.
      pose proof (Hall asteroid (nth_error_In _ _ Hnth)). congruence.
Qed.
End FindHit.

(** The bullet of [overlapGame] against two asteroids of which it
    overlaps the first only. *)
Lemma findHit_takes_the_last_hit_witness :
  exists before asteroid after,
    [overlappingAsteroid; newAsteroid] = before ++ asteroid :: after
    /\ length before = 0%nat
    /\ live asteroid
    /\ intersectsSphere overlappingBullet asteroid = true
    /\ Forall (fun other => isDisposed other = true
                            \/ intersectsSphere overlappingBullet other
                               = false) after.
Proof.
  apply (proj1 (@findHit_takes_the_last_hit exampleEngine _
                  overlappingBullet [overlappingAsteroid; newAsteroid])).
  reflexivity.
Defined.
(** ** The player through a frame *)

Section Pilot.
Context {E : Babylon}.

(** The frame is the player block, phases that leave the player's
    globals alone, the player loop, the end of the game and the
    invincibility block. *)
Lemma Part000_frame_shape (f : Frame) (s : State) :
  isGameOver s = false ->
  exists s4,
    samePlayer (Part000.movePlayer s) s4
    /\ playerVelocity s4 = playerVelocity (Part000.movePlayer s)
    /\ (length (bullets s4) <= length (bullets s))%nat
    /\ Part000.updateGameLogic f s
       = Part000.updateInvincibility (now f)
           (let s5 := Part000.playerLoop (now f) s4 in
            if (lives s5 <=? 0)%Z && negb (isGameOver s5)
            then Part000.endGame s5 else s5).
Proof.
  intro Hover. unfold Part000.updateGameLogic. rewrite Hover. cbv zeta.
  set (s1 := Part000.movePlayer s).
  set (s3 := set_asteroids _ (set_bullets _ s1)).
  set (s4 := Part000.spawnAsteroidsIfNeeded f s3).
  exists (forDown (length (bullets s4)) Part000.bulletLoop_body s4).
  assert (H4 : samePlayer s1 s4 /\ playerVelocity s4 = playerVelocity s1).
  { unfold s4, Part000.spawnAsteroidsIfNeeded, Part000.createAsteroid.
    repeat (break_match; simpl); repeat split. }
  destruct H4 as [H4 V4].
  assert (B4 : (length (bullets s4) <= length (bullets s))%nat).
  { assert (B1 : bullets s1 = bullets s).
    { unfold s1, Part000.movePlayer. now repeat (break_match; simpl). }
    assert (B3 : bullets s4 = Part000.updateBullets (bullets s1)).
    { unfold s4, Part000.spawnAsteroidsIfNeeded, Part000.createAsteroid.
      now repeat (break_match; simpl). }
    rewrite B3, B1. apply Part000_updateBullets_length. }
  split; [|split; [|split]].
  - eapply samePlayer_trans; [exact H4|].
    apply Part000_bulletLoop_samePlayer.
  - rewrite <- V4.
    apply (forDown_invariant
             (fun st => playerVelocity st = playerVelocity s4));
      [|reflexivity].
    intros i st Hst. rewrite <- Hst. unfold Part000.bulletLoop_body.
    repeat (break_match; simpl); reflexivity.
  - apply (forDown_invariant
             (fun st => (length (bullets st) <= length (bullets s))%nat));
      [|exact B4].
    intros i st Hst. unfold Part000.bulletLoop_body.
    repeat (break_match; simpl); try exact Hst.
    pose proof (splice_length_le i (bullets st)). lia.
  - reflexivity.
Qed.

Lemma GameJs_frame_shape (f : Frame) (s : State) :
  isGameOver s = false ->
  exists s4,
    samePlayer (GameJs.movePlayer s) s4
    /\ playerVelocity s4 = playerVelocity (GameJs.movePlayer s)
    /\ (length (bullets s4) <= length (bullets s))%nat
    /\ GameJs.updateGameLogic f s
       = GameJs.updateInvincibility (now f)
           (let s5 := GameJs.playerLoop (now f) s4 in
            if (lives s5 <=? 0)%Z && negb (isGameOver s5)
            then GameJs.endGame s5 else s5).
Proof.
  intro Hover. unfold GameJs.updateGameLogic. rewrite Hover. cbv zeta.
  set (s1 := GameJs.movePlayer s).
  set (s3 := set_asteroids _ (set_bullets _ s1)).
  set (s4 := GameJs.spawnAsteroidsIfNeeded f s3).
  exists (forDown (length (bullets s4)) GameJs.bulletLoop_body s4).
  assert (H4 : samePlayer s1 s4 /\ playerVelocity s4 = playerVelocity s1).
  { unfold s4, GameJs.spawnAsteroidsIfNeeded, GameJs.createAsteroid.
    repeat (break_match; simpl); repeat split. }
  destruct H4 as [H4 V4].
  assert (B4 : (length (bullets s4) <= length (bullets s))%nat).
  { assert (B1 : bullets s1 = bullets s).
    { unfold s1, GameJs.movePlayer. now repeat (break_match; simpl). }
    assert (B3 : bullets s4 = GameJs.updateBullets (bullets s1)).
    { unfold s4, GameJs.spawnAsteroidsIfNeeded, GameJs.createAsteroid.
      now repeat (break_match; simpl). }
    rewrite B3, B1. apply GameJs_updateBullets_length. }
  split; [|split; [|split]].
  - eapply samePlayer_trans; [exact H4|].
    apply GameJs_bulletLoop_samePlayer.
  - rewrite <- V4.
    apply (forDown_invariant
             (fun st => playerVelocity st = playerVelocity s4));
      [|reflexivity].
    intros i st Hst. rewrite <- Hst. unfold GameJs.bulletLoop_body.
    repeat (break_match; simpl); reflexivity.
  - apply (forDown_invariant
             (fun st => (length (bullets st) <= length (bullets s))%nat));
      [|exact B4].
    intros i st Hst. unfold GameJs.bulletLoop_body.
    repeat (break_match; simpl); try exact Hst.
    pose proof (splice_length_le i (bullets st)). lia.
  - reflexivity.
Qed.

(** The player loop does nothing, or calls [playerHit] once, for an
    enabled ship that is not invincible. *)
Lemma Part000_playerLoop_cases (t : Z) (s : State) :
  Part000.playerLoop t s = s
  \/ exists ship j,
      playerShip s = Some ship /\ isEnabled ship = true
      /\ playerInvincible s = false
      /\ Part000.findHit ship (length (asteroids s)) (asteroids s) = Some j
      /\ Part000.playerLoop t s
         = Part000.playerHit t
             (set_asteroids (splice j (asteroids s))
                            (console_log "Player hit by asteroid!" s)).
Proof.
  unfold Part000.playerLoop.
  destruct (playerShip s) as [ship|] eqn:Hship; [|now left].
  destruct (isEnabled ship) eqn:Hen; [|now left].
  destruct (playerInvincible s) eqn:Hinv; [now left|]. simpl.
  destruct (Part000.findHit ship _ _) as [j|] eqn:Hhit; [|now left].
  right. exists ship, j. now repeat split.
Qed.

Lemma GameJs_playerLoop_cases (t : Z) (s : State) :
  GameJs.playerLoop t s = s
  \/ exists ship j,
      playerShip s = Some ship /\ isEnabled ship = true
      /\ playerInvincible s = false
      /\ GameJs.findHit ship (length (asteroids s)) (asteroids s) = Some j
      /\ GameJs.playerLoop t s
         = (let s2 := GameJs.playerHit t
                        (console_log "Player hit by asteroid!" s) in
            set_asteroids (splice j (asteroids s2)) s2).
Proof.
  unfold GameJs.playerLoop.
  destruct (playerShip s) as [ship|] eqn:Hship; [|now left].
  destruct (isEnabled ship) eqn:Hen; [|now left].
  destruct (playerInvincible s) eqn:Hinv; [now left|]. simpl.
  destruct (GameJs.findHit ship _ _) as [j|] eqn:Hhit; [|now left].
  right. exists ship, j. now repeat split.
Qed.

(** What [playerHit] does to the lives and the velocity, in any state. *)
Lemma Part000_playerHit_lives (t : Z) (s : State) :
  lives (Part000.playerHit t s) = (lives s - 1)%Z
  /\ playerVelocity (Part000.playerHit t s) = Vector3_Zero.
Proof.
  unfold Part000.playerHit, Part000.endGame. cbv zeta. simpl.
  repeat (break_match; simpl); split; reflexivity.
Qed.

Lemma GameJs_playerHit_lives (t : Z) (s : State) :
  lives (GameJs.playerHit t s) = (lives s - 1)%Z
  /\ playerVelocity (GameJs.playerHit t s) = Vector3_Zero.
Proof.
  unfold GameJs.playerHit. cbv zeta. simpl.
  repeat (break_match; simpl); split; reflexivity.
Qed.

Lemma Part000_tail_lives (t : Z) (s : State) :
  let s' := Part000.updateInvincibility t
              (if (lives s <=? 0)%Z && negb (isGameOver s)
               then Part000.endGame s else s) in
  lives s' = lives s /\ playerVelocity s' = playerVelocity s.
Proof.
  cbv zeta. unfold Part000.updateInvincibility, Part000.endGame.
  repeat (break_match; simpl); split; reflexivity.
Qed.

Lemma GameJs_tail_lives (t : Z) (s : State) :
  let s' := GameJs.updateInvincibility t
              (if (lives s <=? 0)%Z && negb (isGameOver s)
               then GameJs.endGame s else s) in
  lives s' = lives s /\ playerVelocity s' = playerVelocity s.
Proof.
  cbv zeta. unfold GameJs.updateInvincibility, GameJs.endGame.
  repeat (break_match; simpl); split; reflexivity.
Qed.

Lemma Part000_movePlayer_lives (s : State) :
  lives (Part000.movePlayer s) = lives s.
Proof. unfold Part000.movePlayer. now repeat (break_match; simpl). Qed.

Lemma GameJs_movePlayer_lives (s : State) :
  lives (GameJs.movePlayer s) = lives s.
Proof. unfold GameJs.movePlayer. now repeat (break_match; simpl). Qed.

Lemma Part000_frame_lives (f : Frame) (s : State) :
  let s' := Part000.updateGameLogic f s in
  lives s' = lives s
  \/ (lives s' = (lives s - 1)%Z /\ playerVelocity s' = Vector3_Zero).
Proof.
  cbv zeta. destruct (isGameOver s) eqn:Hover.
  - unfold Part000.updateGameLogic. rewrite Hover. now left.
  - destruct (Part000_frame_shape f s Hover) as (s4 & Hsame & _ & _ & ->).
    destruct Hsame as (_ & _ & _ & Hl & _).
    rewrite Part000_movePlayer_lives in Hl. cbv zeta.
    destruct (Part000_tail_lives (now f) (Part000.playerLoop (now f) s4))
      as [-> ->].
    destruct (Part000_playerLoop_cases (now f) s4)
      as [->|(ship & j & _ & _ & _ & _ & ->)].
    + now left.
    + right.
      destruct (Part000_playerHit_lives (now f)
                  (set_asteroids (splice j (asteroids s4))
                     (console_log "Player hit by asteroid!" s4)))
        as [-> ->].
      simpl. now rewrite Hl.
Qed.

Lemma GameJs_frame_lives (f : Frame) (s : State) :
  let s' := GameJs.updateGameLogic f s in
  lives s' = lives s
  \/ (lives s' = (lives s - 1)%Z /\ playerVelocity s' = Vector3_Zero).
Proof.
  cbv zeta. destruct (isGameOver s) eqn:Hover.
  - unfold GameJs.updateGameLogic. rewrite Hover. now left.
  - destruct (GameJs_frame_shape f s Hover) as (s4 & Hsame & _ & _ & ->).
    destruct Hsame as (_ & _ & _ & Hl & _).
    rewrite GameJs_movePlayer_lives in Hl. cbv zeta.
    destruct (GameJs_tail_lives (now f) (GameJs.playerLoop (now f) s4))
      as [-> ->].
    destruct (GameJs_playerLoop_cases (now f) s4)
      as [->|(ship & j & _ & _ & _ & _ & ->)].
    + now left.
    + right. cbv zeta. simpl.
      destruct (GameJs_playerHit_lives (now f)
                  (console_log "Player hit by asteroid!" s4))
        as [-> ->].
      simpl. now rewrite Hl.
Qed.

Lemma Part000_input_lives (s : State) :
  (forall pressed, lives (Part000.onTrigger pressed s) = lives s)
  /\ (forall x y, lives (Part000.onThumbstick x y s) = lives s).
Proof.
  split; intros; unfold Part000.onTrigger, Part000.onThumbstick,
    Part000.fireBullet; now repeat (break_match; simpl).
Qed.

Lemma GameJs_input_lives (s : State) :
  (forall pressed, lives (GameJs.onTrigger pressed s) = lives s)
  /\ (forall x y, lives (GameJs.onThumbstick x y s) = lives s).
Proof.
  split; intros; unfold GameJs.onTrigger, GameJs.onThumbstick,
    GameJs.fireBullet; now repeat (break_match; simpl).
Qed.

(** X9.  No action of the host gives a life, and none takes more than
    one: a frame leaves the lives or calls [playerHit] once, which takes
    one life and leaves the player without velocity; the input callbacks
    never touch the lives.  In every state, both scripts. *)
Theorem a_frame_takes_at_most_one_life (s : State) :
  (forall a,
      let s' := Part000.perform a s in
      (lives s - 1 <= lives s' <= lives s)%Z
      /\ (lives s' <> lives s -> playerVelocity s' = Vector3_Zero))
  /\ (forall pressed x y,
         lives (Part000.onTrigger pressed s) = lives s
         /\ lives (Part000.onThumbstick x y s) = lives s)
  /\ (forall a,
         let s' := GameJs.perform a s in
         (lives s - 1 <= lives s' <= lives s)%Z
         /\ (lives s' <> lives s -> playerVelocity s' = Vector3_Zero))
  /\ (forall pressed x y,
         lives (GameJs.onTrigger pressed s) = lives s
         /\ lives (GameJs.onThumbstick x y s) = lives s).
Proof.
  destruct (Part000_input_lives s) as [PT PS].
  destruct (GameJs_input_lives s) as [GT GS].
  split; [|split; [|split]].
  - intros [f|pressed|x y]; cbv zeta; simpl.
    + destruct (Part000_frame_lives f s) as [H|[H V]]; cbv zeta in *.
      * split; [lia|congruence].
      * split; [lia|auto].
    + rewrite PT. split; [lia|congruence].
    + rewrite PS. split; [lia|congruence].
  - intros. split; [apply PT|apply PS].
  - intros [f|pressed|x y]; cbv zeta; simpl.
    + destruct (GameJs_frame_lives f s) as [H|[H V]]; cbv zeta in *.
      * split; [lia|congruence].
      * split; [lia|auto].
    + rewrite GT. split; [lia|congruence].
    + rewrite GS. split; [lia|congruence].
  - intros. split; [apply GT|apply GS].
Qed.
End Pilot.

(** The ship of [freshGame] among asteroids, one of them on top of it:
    the frame takes one life of three. *)
Lemma a_frame_takes_at_most_one_life_witness :
  let s := set_asteroids [newAsteroid; restingAsteroid] freshGame in
  let s' := @Part000.perform exampleEngine
              (Part000.Render (mkFrame 16 None)) s in
  lives s' = 2%Z /\ playerVelocity s' = Vector3_Zero.
Proof.
  cbv zeta. split; [reflexivity|].
  apply (proj1 (@a_frame_takes_at_most_one_life exampleEngine
                  (set_asteroids [newAsteroid; restingAsteroid] freshGame))
               (Part000.Render (mkFrame 16 None))).
  now vm_compute.
Defined.
(** ** What holds of the player in every reachable state *)

Lemma within_origin (limit : Q) : 0 <= limit -> within limit Vector3_Zero.
Proof. intros H [| |]; simpl; lra. Qed.

Lemma Pilot_Inv_same (limit : Q) (s s' : State) :
  samePlayer s s' -> playerVelocity s' = playerVelocity s ->
  Pilot_Inv limit s -> Pilot_Inv limit s'.
Proof.
  intros (H1 & H2 & H3 & H4 & H5 & H6) HV [Il Io Ir Ie Ib].
  constructor; rewrite ?H1, ?H2, ?H4, ?H5, ?HV; assumption.
Qed.

Lemma Pilot_Inv_started (limit : Q) (s : State) :
  0 <= limit -> started s -> Pilot_Inv limit s.
Proof.
  intros Hl [radius|]; constructor; simpl; unfold INITIAL_LIVES;
    try discriminate; try lia; try (split; [discriminate|lia]).
  - now intros ship [= <-].
  - intros ship [= <-]. now apply within_origin.
Qed.

Section PilotInvariant.
Context {E : Babylon}.

Lemma Part000_movePlayer_pilot (s : State) :
  Pilot_Inv Part000.wrapLimit s -> Pilot_Inv Part000.wrapLimit (Part000.movePlayer s).
Proof.
  intros H. unfold Part000.movePlayer.
  destruct (playerShip s) as [ship|] eqn:Hship; [|exact H].
  destruct (isEnabled ship) eqn:Hen; [|exact H].
  destruct H as [Il Io Ir Ie Ib].
  assert (Hinv : playerInvincible s = false).
  { destruct (playerInvincible s); [|reflexivity].
    destruct (Ir eq_refl) as (_ & _ & ship' & Hs & _ & _ & Hd). congruence. }
  constructor; simpl; try assumption.
  - congruence.
  - now intros ship' [= <-].
  - intros ship' [= <-]. apply Part000_wrapAround_within.
Qed.

Lemma GameJs_movePlayer_pilot (s : State) :
  Pilot_Inv PLAY_AREA_SIZE s -> Pilot_Inv PLAY_AREA_SIZE (GameJs.movePlayer s).
Proof.
  intros H. unfold GameJs.movePlayer.
  destruct (playerShip s) as [ship|] eqn:Hship; [|exact H].
  destruct (isEnabled ship) eqn:Hen; [|exact H].
  destruct H as [Il Io Ir Ie Ib].
  assert (Hinv : playerInvincible s = false).
  { destruct (playerInvincible s); [|reflexivity].
    destruct (Ir eq_refl) as (_ & _ & ship' & Hs & _ & _ & Hd). congruence. }
  constructor; simpl; try assumption.
  - congruence.
  - now intros ship' [= <-].
  - intros ship' [= <-]. apply GameJs_wrapAround_within.
Qed.

Lemma Part000_updateInvincibility_pilot (t : Z) (s : State) :
  Pilot_Inv Part000.wrapLimit s ->
  Pilot_Inv Part000.wrapLimit (Part000.updateInvincibility t s).
Proof.
  intros H. unfold Part000.updateInvincibility.
  destruct (playerShip s) as [ship|] eqn:Hship; [|exact H].
  destruct (playerInvincible s) eqn:Hinv; [|exact H].
  destruct H as [Il Io Ir Ie Ib].
  destruct (Ir Hinv) as (Hover & Hv & ship' & Hs' & Hp & Hr & Hd).
  assert (ship' = ship) by congruence. subst ship'.
  destruct (_ <? _)%Z; constructor; simpl; try assumption;
    try discriminate.
  - now intros ship' [= <-].
  - intros ship' [= <-]. simpl. now apply Ib.
  - rewrite Hinv. intros _. split; [exact Hover|]. split; [exact Hv|].
    eexists. split; [reflexivity|]. now repeat split.
  - rewrite Hinv. discriminate.
  - intros ship' [= <-]. simpl. now apply Ib.
Qed.

Lemma GameJs_updateInvincibility_pilot (t : Z) (s : State) :
  Pilot_Inv PLAY_AREA_SIZE s ->
  Pilot_Inv PLAY_AREA_SIZE (GameJs.updateInvincibility t s).
Proof.
  intros H. unfold GameJs.updateInvincibility.
  destruct (playerShip s) as [ship|] eqn:Hship; [|exact H].
  destruct (playerInvincible s) eqn:Hinv; [|exact H].
  destruct H as [Il Io Ir Ie Ib].
  destruct (Ir Hinv) as (Hover & Hv & ship' & Hs' & Hp & Hr & Hd).
  assert (ship' = ship) by congruence. subst ship'.
  destruct (_ <? _)%Z; constructor; simpl; try assumption;
    try discriminate.
  - now intros ship' [= <-].
  - intros ship' [= <-]. simpl. now apply Ib.
  - rewrite Hinv. intros _. split; [exact Hover|]. split; [exact Hv|].
    eexists. split; [reflexivity|]. now repeat split.
  - rewrite Hinv. discriminate.
  - intros ship' [= <-]. simpl. now apply Ib.
Qed.

Lemma Part000_playerHit_over (t : Z) (s : State) :
  lives s = 1%Z -> isGameOver s = false ->
  let r := Part000.playerHit t s in
  lives r = 0%Z /\ isGameOver r = true
  /\ playerInvincible r = playerInvincible s
  /\ (playerShip r = None \/ playerShip r = playerShip s).
Proof.
  intros Hone Hover. cbv zeta.
  unfold Part000.playerHit, Part000.endGame. cbv zeta. simpl.
  rewrite Hone. simpl.
  destruct (playerShip s) as [ship|] eqn:Hship;
    [destruct (isDisposed ship) eqn:Hd|];
    repeat (simpl; rewrite ?Hship, ?Hd, ?Hover); simpl; auto.
Qed.

Lemma Part000_collide_pilot (t : Z) (s : State) :
  Pilot_Inv Part000.wrapLimit s -> isGameOver s = false ->
  Pilot_Inv Part000.wrapLimit
    (let s5 := Part000.playerLoop t s in
     if (lives s5 <=? 0)%Z && negb (isGameOver s5)
     then Part000.endGame s5 else s5).
Proof.
  intros H Hover. cbv zeta.
  assert (Hpos : (0 < lives s)%Z).
  { destruct H as [Il Io _ _ _].
    destruct (Z_lt_le_dec 0 (lives s)) as [Hp|Hn]; [exact Hp|].
    apply Io in Hn. congruence. }
  destruct (Part000_playerLoop_cases t s)
    as [->|(ship & j & Hship & Hen & Hinv & _ & ->)].
  - assert (Hl : (lives s <=? 0)%Z = false) by (apply Z.leb_gt; lia).
    rewrite Hl. exact H.
  - destruct H as [Il Io Ir Ie Ib].
    set (s2 := set_asteroids _ _).
    destruct (Z_lt_le_dec 1 (lives s)) as [Hmany|Hlast].
    + rewrite (Part000_playerHit_respawn t s2 ship) by assumption.
      simpl.
      assert (Hl : (lives s - 1 <=? 0)%Z = false) by (apply Z.leb_gt; lia).
      rewrite Hl. simpl.
      constructor; simpl.
      * lia.
      * rewrite Hover. split; [discriminate|lia].
      * intros _. split; [exact Hover|]. split; [reflexivity|].
        eexists. split; [reflexivity|]. now repeat split.
      * discriminate.
      * intros ship' [= <-]. simpl. apply within_origin.
        unfold Part000.wrapLimit, PLAY_AREA_SIZE. lra.
    + assert (Hone : lives s2 = 1%Z) by (simpl; lia).
      destruct (Part000_playerHit_over t s2 Hone Hover)
        as (Rl & Ro & Ri & Rs).
      set (r := Part000.playerHit t s2) in *.
      rewrite Ro, andb_false_r.
      constructor; rewrite ?Rl, ?Ro, ?Ri.
      * unfold INITIAL_LIVES. lia.
      * split; [lia|reflexivity].
      * simpl. rewrite Hinv. discriminate.
      * intros ship' Hs' _. destruct Rs as [Rs|Rs]; [congruence|].
        rewrite Rs in Hs'. simpl in Hs'. congruence.
      * intros ship' Hs'. destruct Rs as [Rs|Rs]; [congruence|].
        rewrite Rs in Hs'. simpl in Hs'. now apply Ib.
Qed.

Lemma GameJs_collide_pilot (t : Z) (s : State) :
  Pilot_Inv PLAY_AREA_SIZE s -> isGameOver s = false ->
  Pilot_Inv PLAY_AREA_SIZE
    (let s5 := GameJs.playerLoop t s in
     if (lives s5 <=? 0)%Z && negb (isGameOver s5)
     then GameJs.endGame s5 else s5).
Proof.
  intros H Hover. cbv zeta.
  assert (Hpos : (0 < lives s)%Z).
  { destruct H as [Il Io _ _ _].
    destruct (Z_lt_le_dec 0 (lives s)) as [Hp|Hn]; [exact Hp|].
    apply Io in Hn. congruence. }
  destruct (GameJs_playerLoop_cases t s)
    as [->|(ship & j & Hship & Hen & Hinv & _ & ->)].
  - assert (Hl : (lives s <=? 0)%Z = false) by (apply Z.leb_gt; lia).
    rewrite Hl. exact H.
  - destruct H as [Il Io Ir Ie Ib]. cbv zeta.
    set (s1 := console_log _ s).
    destruct (Z_lt_le_dec 1 (lives s)) as [Hmany|Hlast].
    + rewrite (GameJs_playerHit_respawn t s1 ship) by assumption.
      simpl.
      assert (Hl : (lives s - 1 <=? 0)%Z = false) by (apply Z.leb_gt; lia).
      rewrite Hl. simpl.
      constructor; simpl.
      * lia.
      * rewrite Hover. split; [discriminate|lia].
      * intros _. split; [exact Hover|]. split; [reflexivity|].
        eexists. split; [reflexivity|]. now repeat split.
      * discriminate.
      * intros ship' [= <-]. simpl. apply within_origin.
        unfold PLAY_AREA_SIZE. lra.
    + assert (Hone : lives s = 1%Z) by lia.
      rewrite (GameJs_playerHit_last t s1 ship) by assumption.
      simpl. rewrite Hover. simpl. unfold GameJs.endGame. cbv zeta.
      constructor; simpl.
      * unfold INITIAL_LIVES. lia.
      * split; [lia|reflexivity].
      * rewrite Hinv. discriminate.
      * discriminate.
      * discriminate.
Qed.

Lemma Part000_frame_pilot (f : Frame) (s : State) :
  Pilot_Inv Part000.wrapLimit s ->
  Pilot_Inv Part000.wrapLimit (Part000.updateGameLogic f s).
Proof.
  intro H. destruct (isGameOver s) eqn:Hover.
  - unfold Part000.updateGameLogic. now rewrite Hover.
  - destruct (Part000_frame_shape f s Hover) as (s4 & Hsame & HV & _ & ->).
    apply Part000_updateInvincibility_pilot, Part000_collide_pilot.
    + apply (Pilot_Inv_same _ (Part000.movePlayer s)); try assumption.
      now apply Part000_movePlayer_pilot.
    + destruct Hsame as (_ & _ & _ & _ & Ho & _). rewrite Ho.
      unfold Part000.movePlayer.
      now repeat (break_match; simpl).
Qed.

Lemma GameJs_frame_pilot (f : Frame) (s : State) :
  Pilot_Inv PLAY_AREA_SIZE s ->
  Pilot_Inv PLAY_AREA_SIZE (GameJs.updateGameLogic f s).
Proof.
  intro H. destruct (isGameOver s) eqn:Hover.
  - unfold GameJs.updateGameLogic. now rewrite Hover.
  - destruct (GameJs_frame_shape f s Hover) as (s4 & Hsame & HV & _ & ->).
    apply GameJs_updateInvincibility_pilot, GameJs_collide_pilot.
    + apply (Pilot_Inv_same _ (GameJs.movePlayer s)); try assumption.
      now apply GameJs_movePlayer_pilot.
    + destruct Hsame as (_ & _ & _ & _ & Ho & _). rewrite Ho.
      unfold GameJs.movePlayer.
      now repeat (break_match; simpl).
Qed.

Lemma Part000_onTrigger_pilot (limit : Q) (pressed : bool) (s : State) :
  Pilot_Inv limit s -> Pilot_Inv limit (Part000.onTrigger pressed s).
Proof.
  apply Pilot_Inv_same;
    unfold Part000.onTrigger, Part000.fireBullet;
    repeat (break_match; simpl); repeat split.
Qed.

Lemma GameJs_onTrigger_pilot (limit : Q) (pressed : bool) (s : State) :
  Pilot_Inv limit s -> Pilot_Inv limit (GameJs.onTrigger pressed s).
Proof.
  apply Pilot_Inv_same;
    unfold GameJs.onTrigger, GameJs.fireBullet;
    repeat (break_match; simpl); repeat split.
Qed.

Lemma Part000_onThumbstick_pilot (limit : Q) (x y : Q) (s : State) :
  Pilot_Inv limit s -> Pilot_Inv limit (Part000.onThumbstick x y s).
Proof.
  intro H. unfold Part000.onThumbstick.
  destruct (isGameOver s) eqn:Hover; [exact H|].
  destruct (playerShip s) as [ship|] eqn:Hship; [|exact H].
  destruct (isEnabled ship) eqn:Hen; [|exact H]. simpl.
  destruct H as [Il Io Ir Ie Ib].
  assert (Hinv : playerInvincible s = false).
  { destruct (playerInvincible s); [|reflexivity].
    destruct (Ir eq_refl) as (_ & _ & ship' & Hs & _ & _ & Hd). congruence. }
  assert (Hpos : forall ship' : Ship, position ship' = position ship ->
                               within limit (position ship')).
  { intros ship' ->. now apply Ib. }
  repeat (break_match; simpl);
    (constructor; simpl;
     [ assumption | assumption | rewrite Hinv; discriminate
     | intros ship' [= <-] _; exact Hen
     | intros ship' [= <-]; now apply Hpos ]).
Qed.

Lemma GameJs_onThumbstick_pilot (limit : Q) (x y : Q) (s : State) :
  Pilot_Inv limit s -> Pilot_Inv limit (GameJs.onThumbstick x y s).
Proof.
  intro H. unfold GameJs.onThumbstick.
  destruct (isGameOver s) eqn:Hover; [exact H|].
  destruct (playerShip s) as [ship|] eqn:Hship; [|exact H].
  destruct (isEnabled ship) eqn:Hen; [|exact H]. simpl.
  destruct H as [Il Io Ir Ie Ib].
  assert (Hinv : playerInvincible s = false).
  { destruct (playerInvincible s); [|reflexivity].
    destruct (Ir eq_refl) as (_ & _ & ship' & Hs & _ & _ & Hd). congruence. }
  assert (Hpos : forall ship' : Ship, position ship' = position ship ->
                               within limit (position ship')).
  { intros ship' ->. now apply Ib. }
  repeat (break_match; simpl);
    (constructor; simpl;
     [ assumption | assumption | rewrite Hinv; discriminate
     | intros ship' [= <-] _; exact Hen
     | intros ship' [= <-]; now apply Hpos ]).
Qed.

Lemma Part000_reachable_pilot (s : State) :
  Part000.reachable s -> Pilot_Inv Part000.wrapLimit s.
Proof.
  induction 1 as [s Hs|a s _ IH].
  - apply Pilot_Inv_started; [|exact Hs].
    unfold Part000.wrapLimit, PLAY_AREA_SIZE. lra.
  - destruct a as [f|pressed|x y]; simpl.
    + now apply Part000_frame_pilot.
    + now apply Part000_onTrigger_pilot.
    + now apply Part000_onThumbstick_pilot.
Qed.

Lemma GameJs_reachable_pilot (s : State) :
  GameJs.reachable s -> Pilot_Inv PLAY_AREA_SIZE s.
Proof.
  induction 1 as [s Hs|a s _ IH].
  - apply Pilot_Inv_started; [|exact Hs]. unfold PLAY_AREA_SIZE. lra.
  - destruct a as [f|pressed|x y]; simpl.
    + now apply GameJs_frame_pilot.
    + now apply GameJs_onTrigger_pilot.
    + now apply GameJs_onThumbstick_pilot.
Qed.
End PilotInvariant.
Section Sessions.
Context {E : Babylon}.

Lemma Part000_run_reachable (acts : list Part000.Action) (s : State) :
  Part000.reachable s -> Part000.reachable (Part000.run acts s).
Proof.
  revert s. induction acts as [|a acts IH]; intros s Hs; simpl.
  - exact Hs.
  - apply IH. now apply Part000.reachable_step.
Qed.

Lemma GameJs_run_reachable (acts : list GameJs.Action) (s : State) :
  GameJs.reachable s -> GameJs.reachable (GameJs.run acts s).
Proof.
  revert s. induction acts as [|a acts IH]; intros s Hs; simpl.
  - exact Hs.
  - apply IH. now apply GameJs.reachable_step.
Qed.

(** X10.  In every state a script reaches the lives lie between 0 and
    [INITIAL_LIVES], and the game is over exactly when no life is
    left. *)
Theorem game_is_over_when_lives_run_out (s : State) :
  (Part000.reachable s ->
   (0 <= lives s <= INITIAL_LIVES)%Z
   /\ (isGameOver s = true <-> lives s = 0%Z))
  /\ (GameJs.reachable s ->
      (0 <= lives s <= INITIAL_LIVES)%Z
      /\ (isGameOver s = true <-> lives s = 0%Z)).
Proof.
  split; intro Hr.
  - destruct (Part000_reachable_pilot s Hr) as [Il Io _ _ _].
    split; [exact Il|]. rewrite Io. lia.
  - destruct (GameJs_reachable_pilot s Hr) as [Il Io _ _ _].
    split; [exact Il|]. rewrite Io. lia.
Qed.

(** X11.  In every state a script reaches, an invincible player rests:
    the game is running, the velocity is zero and the ship stands
    disabled at its spawn pose; and a ship that is present is disabled
    exactly while the player is invincible, so the player is Alive or
    Invincible and never Dead while the ship is there. *)
Theorem invincible_player_rests_at_spawn (s : State) :
  (Part000.reachable s ->
   (playerInvincible s = true ->
    isGameOver s = false /\ playerVelocity s = Vector3_Zero /\ atSpawn s)
   /\ (forall ship,
          playerShip s = Some ship ->
          isEnabled ship = negb (playerInvincible s)
          /\ playerState s <> Dead))
  /\ (GameJs.reachable s ->
      (playerInvincible s = true ->
       isGameOver s = false /\ playerVelocity s = Vector3_Zero /\ atSpawn s)
      /\ (forall ship,
             playerShip s = Some ship ->
             isEnabled ship = negb (playerInvincible s)
             /\ playerState s <> Dead)).
Proof.
  assert (H : forall limit, Pilot_Inv limit s ->
    (playerInvincible s = true ->
     isGameOver s = false /\ playerVelocity s = Vector3_Zero /\ atSpawn s)
    /\ (forall ship,
           playerShip s = Some ship ->
           isEnabled ship = negb (playerInvincible s)
           /\ playerState s <> Dead)).
  { intros limit [_ _ Ir Ie _]. split.
    - intro Hinv.
      destruct (Ir Hinv) as (Ho & Hv & ship & Hs & Hp & Hrot & _).
      split; [exact Ho|]. split; [exact Hv|]. now exists ship.
    - intros ship Hship. unfold playerState. rewrite Hship.
      destruct (playerInvincible s) eqn:Hinv; simpl.
      + destruct (Ir eq_refl) as (_ & _ & ship' & Hs & _ & _ & Hd).
        split; [congruence|discriminate].
      + rewrite (Ie ship Hship eq_refl). split; [reflexivity|discriminate]. }
  split; intro Hr.
  - exact (H _ (Part000_reachable_pilot s Hr)).
  - exact (H _ (GameJs_reachable_pilot s Hr)).
Qed.

(** X12.  In every state a script reaches the ship is inside the volume
    [wrapAround] keeps it in (32 a side from the centre in the cockpit
    variant, 30 in [game.js]), and so never where [isOutOfBounds] would
    remove a bullet. *)
Theorem ship_stays_in_the_play_volume (s : State) (ship : Ship) :
  playerShip s = Some ship ->
  (Part000.reachable s ->
   within Part000.wrapLimit (position ship)
   /\ Part000.isOutOfBounds (position ship) = false)
  /\ (GameJs.reachable s ->
      within PLAY_AREA_SIZE (position ship)
      /\ GameJs.isOutOfBounds (position ship) = false).
Proof.
  intro Hship. split; intro Hr.
  - destruct (Part000_reachable_pilot s Hr) as [_ _ _ _ Ib].
    pose proof (Ib ship Hship) as Hw. split; [exact Hw|].
    apply Part000_isOutOfBounds_false.
    apply (within_wider Part000.wrapLimit); [|exact Hw].
    unfold Part000.wrapLimit, PLAY_AREA_SIZE. lra.
  - destruct (GameJs_reachable_pilot s Hr) as [_ _ _ _ Ib].
    pose proof (Ib ship Hship) as Hw. split; [exact Hw|].
    apply GameJs_isOutOfBounds_false.
    apply (within_wider PLAY_AREA_SIZE); [|exact Hw].
    unfold PLAY_AREA_SIZE. lra.
Qed.
End Sessions.
(** The lost session: three hits, and the game is over. *)
Lemma game_is_over_when_lives_run_out_witness :
  let s := @Part000.run exampleEngine (map Part000.Render losingFrames)
             freshGame in
  let g := @GameJs.run exampleEngine (map GameJs.Render losingFrames)
             freshGame in
  (lives s = 0%Z /\ isGameOver s = true)
  /\ (lives g = 0%Z /\ isGameOver g = true).
Proof.
  cbv zeta.
  assert (Hs : @Part000.reachable exampleEngine
                 (@Part000.run exampleEngine (map Part000.Render losingFrames) freshGame)).
  { apply Part000_run_reachable, Part000.reachable_init.
    apply started_with_ship. }
  assert (Hg : @GameJs.reachable exampleEngine
                 (@GameJs.run exampleEngine (map GameJs.Render losingFrames) freshGame)).
  { apply GameJs_run_reachable, GameJs.reachable_init.
    apply started_with_ship. }
  destruct (@game_is_over_when_lives_run_out exampleEngine
              (@Part000.run exampleEngine (map Part000.Render losingFrames) freshGame))
    as [HP _].
  destruct (@game_is_over_when_lives_run_out exampleEngine
              (@GameJs.run exampleEngine (map GameJs.Render losingFrames) freshGame))
    as [_ HG].
  destruct (HP Hs) as [_ Ps]. destruct (HG Hg) as [_ Pg].
  split; (split; [now vm_compute|]).
  - apply Ps. now vm_compute.
  - apply Pg. now vm_compute.
Defined.

(** After the first hit of the lost session the player is invincible. *)
Lemma invincible_player_rests_at_spawn_witness :
  let s := @Part000.run exampleEngine (map Part000.Render firstHitFrames)
             freshGame in
  lives s = 2%Z /\ playerVelocity s = Vector3_Zero /\ atSpawn s.
Proof.
  cbv zeta.
  assert (Hs : @Part000.reachable exampleEngine
                 (@Part000.run exampleEngine (map Part000.Render firstHitFrames)
                              freshGame)).
  { apply Part000_run_reachable, Part000.reachable_init.
    apply started_with_ship. }
  destruct (@invincible_player_rests_at_spawn exampleEngine
              (@Part000.run exampleEngine (map Part000.Render firstHitFrames) freshGame))
    as [HP _].
  destruct (HP Hs) as [Hrest _].
  split; [now vm_compute|].
  apply Hrest. now vm_compute.
Defined.

(** After one push of the thumbstick and two frames the ship has left
    its spawn place and is inside the volume. *)
Lemma ship_stays_in_the_play_volume_witness :
  exists ship,
    playerShip (@Part000.run exampleEngine flight freshGame) = Some ship
    /\ within Part000.wrapLimit (position ship).
Proof.
  assert (Hr : @Part000.reachable exampleEngine
                 (@Part000.run exampleEngine flight freshGame)).
  { apply Part000_run_reachable, Part000.reachable_init.
    apply started_with_ship. }
  eexists. split; [reflexivity|].
  exact (proj1 (proj1 (@ship_stays_in_the_play_volume exampleEngine
                         (@Part000.run exampleEngine flight freshGame)
                         _ eq_refl) Hr)).
Defined.
(** ** Bullets are fired by the trigger only *)

Section BulletCount.
Context {E : Babylon}.

Lemma Part000_tail_bullets (t : Z) (s : State) :
  (length (bullets
             (Part000.updateInvincibility t
                (let s5 := Part000.playerLoop t s in
                 if (lives s5 <=? 0)%Z && negb (isGameOver s5)
                 then Part000.endGame s5 else s5)))
   <= length (bullets s))%nat.
Proof.
  cbv zeta.
  assert (H1 : forall st,
             bullets (Part000.updateInvincibility t st) = bullets st).
  { intro st. unfold Part000.updateInvincibility.
    now repeat (break_match; simpl). }
  assert (H2 : forall st,
             (length (bullets (Part000.endGame st)) <= length (bullets st))%nat).
  { intro st. unfold Part000.endGame.
    repeat (break_match; simpl); lia. }
  assert (H3 : forall st,
             (length (bullets (Part000.playerHit t st))
              <= length (bullets st))%nat).
  { intro st. unfold Part000.playerHit. cbv zeta.
    repeat (break_match; simpl); try lia.
    all: match goal with
         | |- (length (bullets (Part000.endGame ?x)) <= _)%nat =>
             pose proof (H2 x) as K; simpl in K; exact K
         end. }
  rewrite H1.
  assert (H4 : (length (bullets (Part000.playerLoop t s))
                <= length (bullets s))%nat).
  { destruct (Part000_playerLoop_cases t s)
      as [->|(ship & j & _ & _ & _ & _ & ->)]; [lia|].
    match goal with
    | |- (length (bullets (Part000.playerHit t ?x)) <= _)%nat =>
        pose proof (H3 x) as K; simpl in K; exact K
    end. }
  destruct (_ && _); [|exact H4].
  pose proof (H2 (Part000.playerLoop t s)). lia.
Qed.

Lemma GameJs_tail_bullets (t : Z) (s : State) :
  (length (bullets
             (GameJs.updateInvincibility t
                (let s5 := GameJs.playerLoop t s in
                 if (lives s5 <=? 0)%Z && negb (isGameOver s5)
                 then GameJs.endGame s5 else s5)))
   <= length (bullets s))%nat.
Proof.
  cbv zeta.
  assert (H1 : forall st,
             bullets (GameJs.updateInvincibility t st) = bullets st).
  { intro st. unfold GameJs.updateInvincibility.
    now repeat (break_match; simpl). }
  assert (H3 : forall st,
             bullets (GameJs.playerHit t st) = bullets st).
  { intro st. unfold GameJs.playerHit. cbv zeta.
    now repeat (break_match; simpl). }
  rewrite H1.
  assert (H4 : bullets (GameJs.playerLoop t s) = bullets s).
  { destruct (GameJs_playerLoop_cases t s)
      as [->|(ship & j & _ & _ & _ & _ & ->)]; [reflexivity|].
    cbv zeta. simpl. now rewrite H3. }
  destruct (_ && _); [|now rewrite H4].
  unfold GameJs.endGame. simpl. lia.
Qed.

(** X13.  Only the trigger adds a bullet.  A frame never leaves more
    bullets than it found, the thumbstick leaves the bullets as they
    are, and one trigger event leaves them or appends exactly one.  In
    every state, both scripts. *)
Theorem only_the_trigger_adds_bullets (s : State) :
  (forall f,
      (length (bullets (Part000.updateGameLogic f s))
       <= length (bullets s))%nat)
  /\ (forall x y, bullets (Part000.onThumbstick x y s) = bullets s)
  /\ (forall pressed,
         bullets (Part000.onTrigger pressed s) = bullets s
         \/ exists bullet,
             bullets (Part000.onTrigger pressed s) = bullets s ++ [bullet])
  /\ (forall f,
         (length (bullets (GameJs.updateGameLogic f s))
          <= length (bullets s))%nat)
  /\ (forall x y, bullets (GameJs.onThumbstick x y s) = bullets s)
  /\ (forall pressed,
         bullets (GameJs.onTrigger pressed s) = bullets s
         \/ exists bullet,
             bullets (GameJs.onTrigger pressed s) = bullets s ++ [bullet]).
Proof.
  split; [|split; [|split; [|split; [|split]]]].
  - intro f. destruct (isGameOver s) eqn:Hover.
    + unfold Part000.updateGameLogic. rewrite Hover. lia.
    + destruct (Part000_frame_shape f s Hover) as (s4 & _ & _ & Hb & ->).
      pose proof (Part000_tail_bullets (now f) s4). lia.
  - intros x y. unfold Part000.onThumbstick.
    now repeat (break_match; simpl).
  - intro pressed. unfold Part000.onTrigger, Part000.fireBullet.
    repeat (break_match; simpl); try (now left).
    right. eexists. reflexivity.
  - intro f. destruct (isGameOver s) eqn:Hover.
    + unfold GameJs.updateGameLogic. rewrite Hover. lia.
    + destruct (GameJs_frame_shape f s Hover) as (s4 & _ & _ & Hb & ->).
      pose proof (GameJs_tail_bullets (now f) s4). lia.
  - intros x y. unfold GameJs.onThumbstick.
    now repeat (break_match; simpl).
  - intro pressed. unfold GameJs.onTrigger, GameJs.fireBullet.
    repeat (break_match; simpl); try (now left).
    right. eexists. reflexivity.
Qed.
End BulletCount.
(** ** A dead player *)

Lemma playerState_Dead (s : State) :
  playerState s = Dead
  <-> playerShip s = None
      \/ exists ship, playerShip s = Some ship
                      /\ playerInvincible s = false
                      /\ isEnabled ship = false.
Proof.
  unfold playerState. destruct (playerShip s) as [ship|].
  - destruct (playerInvincible s); [|destruct (isEnabled ship) eqn:Hen].
    + split; [discriminate|]. intros [H|(sh & _ & H & _)]; discriminate.
    + split; [discriminate|].
      intros [H|(sh & [= <-] & _ & H)]; congruence.
    + split; [|reflexivity]. intros _. right. now exists ship.
  - split; [now left|reflexivity].
Qed.

Section DeadPlayer.
Context {E : Babylon}.

Lemma Part000_endPhase_ship (s : State) :
  let r := if (lives s <=? 0)%Z && negb (isGameOver s)
           then Part000.endGame s else s in
  (playerShip r = None \/ playerShip r = playerShip s)
  /\ playerInvincible r = playerInvincible s.
Proof.
  cbv zeta. unfold Part000.endGame.
  repeat (break_match; simpl); auto.
Qed.

Lemma GameJs_endPhase_ship (s : State) :
  let r := if (lives s <=? 0)%Z && negb (isGameOver s)
           then GameJs.endGame s else s in
  (playerShip r = None \/ playerShip r = playerShip s)
  /\ playerInvincible r = playerInvincible s.
Proof.
  cbv zeta. unfold GameJs.endGame.
  repeat (break_match; simpl); auto.
Qed.

Lemma Part000_updateInvincibility_idle (t : Z) (s : State) :
  playerShip s = None \/ playerInvincible s = false ->
  Part000.updateInvincibility t s = s.
Proof.
  unfold Part000.updateInvincibility. intros [->| ->]; [reflexivity|].
  now destruct (playerShip s).
Qed.

Lemma GameJs_updateInvincibility_idle (t : Z) (s : State) :
  playerShip s = None \/ playerInvincible s = false ->
  GameJs.updateInvincibility t s = s.
Proof.
  unfold GameJs.updateInvincibility. intros [->| ->]; [reflexivity|].
  now destruct (playerShip s).
Qed.

Lemma Part000_dead_step (a : Part000.Action) (s : State) :
  playerState s = Dead ->
  let s' := Part000.perform a s in
  playerState s' = Dead /\ lives s' = lives s
  /\ playerVelocity s' = playerVelocity s
  /\ (length (bullets s') <= length (bullets s))%nat.
Proof.
  intro Hdead. cbv zeta.
  assert (Hmove : Part000.movePlayer s = s).
  { unfold Part000.movePlayer.
    apply playerState_Dead in Hdead.
    destruct Hdead as [->|(ship & -> & _ & ->)]; reflexivity. }
  destruct a as [f|pressed|x y]; simpl.
  - destruct (isGameOver s) eqn:Hover.
    + unfold Part000.updateGameLogic. rewrite Hover.
      repeat split; [assumption|lia].
    + destruct (Part000_frame_shape f s Hover)
        as (s4 & Hsame & HV & HB & ->).
      rewrite Hmove in Hsame, HV.
      destruct Hsame as (K1 & K2 & K3 & K4 & K5 & K6).
      assert (Hloop : Part000.playerLoop (now f) s4 = s4).
      { unfold Part000.playerLoop. rewrite K1, K2.
        apply playerState_Dead in Hdead.
        destruct Hdead as [->|(ship & -> & -> & ->)]; reflexivity. }
      cbv zeta. rewrite Hloop.
      destruct (Part000_tail_lives (now f) s4) as [L V].
      cbv zeta in L, V.
      pose proof (Part000_tail_bullets (now f) s4) as B.
      cbv zeta in B. rewrite Hloop in B.
      split; [|split; [congruence|split; [congruence|lia]]].
      destruct (Part000_endPhase_ship s4) as [Rs Ri]. cbv zeta in Rs, Ri.
      set (r := if (lives s4 <=? 0)%Z && negb (isGameOver s4)
                then Part000.endGame s4 else s4) in *.
      apply playerState_Dead in Hdead.
      assert (Hidle : Part000.updateInvincibility (now f) r = r).
      { apply Part000_updateInvincibility_idle.
        destruct Hdead as [Hn|(ship & Hs & Hi & Hen)].
        - left. destruct Rs as [Rs|Rs]; congruence.
        - right. congruence. }
      rewrite Hidle. apply playerState_Dead.
      destruct Rs as [Rs|Rs]; [now left|].
      destruct Hdead as [Hn|(ship & Hs & Hi & Hen)].
      * left. congruence.
      * right. exists ship. repeat split; congruence.
  - unfold Part000.onTrigger.
    apply playerState_Dead in Hdead as Hd.
    destruct Hd as [->|(ship & -> & _ & ->)];
      rewrite ?andb_false_r; simpl;
      repeat split; [assumption|lia|assumption|lia].
  - unfold Part000.onThumbstick.
    apply playerState_Dead in Hdead as Hd.
    destruct (isGameOver s); [repeat split; [assumption|lia]|].
    destruct Hd as [->|(ship & -> & _ & ->)]; simpl;
      repeat split; [assumption|lia|assumption|lia].
Qed.

Lemma GameJs_dead_step (a : GameJs.Action) (s : State) :
  playerState s = Dead ->
  let s' := GameJs.perform a s in
  playerState s' = Dead /\ lives s' = lives s
  /\ playerVelocity s' = playerVelocity s
  /\ (length (bullets s') <= length (bullets s))%nat.
Proof.
  intro Hdead. cbv zeta.
  assert (Hmove : GameJs.movePlayer s = s).
  { unfold GameJs.movePlayer.
    apply playerState_Dead in Hdead.
    destruct Hdead as [->|(ship & -> & _ & ->)]; reflexivity. }
  destruct a as [f|pressed|x y]; simpl.
  - destruct (isGameOver s) eqn:Hover.
    + unfold GameJs.updateGameLogic. rewrite Hover.
      repeat split; [assumption|lia].
    + destruct (GameJs_frame_shape f s Hover)
        as (s4 & Hsame & HV & HB & ->).
      rewrite Hmove in Hsame, HV.
      destruct Hsame as (K1 & K2 & K3 & K4 & K5 & K6).
      assert (Hloop : GameJs.playerLoop (now f) s4 = s4).
      { unfold GameJs.playerLoop. rewrite K1, K2.
        apply playerState_Dead in Hdead.
        destruct Hdead as [->|(ship & -> & -> & ->)]; reflexivity. }
      cbv zeta. rewrite Hloop.
      destruct (GameJs_tail_lives (now f) s4) as [L V].
      cbv zeta in L, V.
      pose proof (GameJs_tail_bullets (now f) s4) as B.
      cbv zeta in B. rewrite Hloop in B.
      split; [|split; [congruence|split; [congruence|lia]]].
      destruct (GameJs_endPhase_ship s4) as [Rs Ri]. cbv zeta in Rs, Ri.
      set (r := if (lives s4 <=? 0)%Z && negb (isGameOver s4)
                then GameJs.endGame s4 else s4) in *.
      apply playerState_Dead in Hdead.
      assert (Hidle : GameJs.updateInvincibility (now f) r = r).
      { apply GameJs_updateInvincibility_idle.
        destruct Hdead as [Hn|(ship & Hs & Hi & Hen)].
        - left. destruct Rs as [Rs|Rs]; congruence.
        - right. congruence. }
      rewrite Hidle. apply playerState_Dead.
      destruct Rs as [Rs|Rs]; [now left|].
      destruct Hdead as [Hn|(ship & Hs & Hi & Hen)].
      * left. congruence.
      * right. exists ship. repeat split; congruence.
  - unfold GameJs.onTrigger.
    apply playerState_Dead in Hdead as Hd.
    destruct Hd as [->|(ship & -> & _ & ->)];
      rewrite ?andb_false_r; simpl;
      repeat split; [assumption|lia|assumption|lia].
  - unfold GameJs.onThumbstick.
    apply playerState_Dead in Hdead as Hd.
    destruct (isGameOver s); [repeat split; [assumption|lia]|].
    destruct Hd as [->|(ship & -> & _ & ->)]; simpl;
      repeat split; [assumption|lia|assumption|lia].
Qed.

(** X14.  Dead is final.  From a state in which the player is Dead (no
    ship, or a disabled ship that is not invincible), whatever the host
    does, the player stays Dead, the lives and the velocity stay as they
    are, and no bullet is added.  In every state, both scripts. *)
Theorem dead_player_stays_dead (s : State) :
  playerState s = Dead ->
  (forall acts,
      let s' := Part000.run acts s in
      playerState s' = Dead /\ lives s' = lives s
      /\ playerVelocity s' = playerVelocity s
      /\ (length (bullets s') <= length (bullets s))%nat)
  /\ (forall acts,
         let s' := GameJs.run acts s in
         playerState s' = Dead /\ lives s' = lives s
         /\ playerVelocity s' = playerVelocity s
         /\ (length (bullets s') <= length (bullets s))%nat).
Proof.
  intro Hdead. split; intro acts; cbv zeta.
  - revert s Hdead. induction acts as [|a acts IH]; intros s Hdead; simpl.
    + repeat split; [assumption|lia].
    + destruct (Part000_dead_step a s Hdead) as (D & L & V & B).
      cbv zeta in *.
      destruct (IH _ D) as (D' & L' & V' & B').
      split; [exact D'|]. split; [congruence|]. split; [congruence|lia].
  - revert s Hdead. induction acts as [|a acts IH]; intros s Hdead; simpl.
    + repeat split; [assumption|lia].
    + destruct (GameJs_dead_step a s Hdead) as (D & L & V & B).
      cbv zeta in *.
      destruct (IH _ D) as (D' & L' & V' & B').
      split; [exact D'|]. split; [congruence|]. split; [congruence|lia].
Qed.
End DeadPlayer.

(** A session that started without a ship mesh: the trigger fires
    nothing. *)
Lemma dead_player_stays_dead_witness :
  let s' := @Part000.run exampleEngine
              [Part000.TriggerChanged true;
               Part000.Render (mkFrame 1001 (Some restingAsteroid))]
              (initialState None) in
  playerState s' = Dead /\ lives s' = INITIAL_LIVES.
Proof.
  cbv zeta.
  destruct (proj1 (@dead_player_stays_dead exampleEngine
                     (initialState None) eq_refl)
                  [Part000.TriggerChanged true;
                   Part000.Render (mkFrame 1001 (Some restingAsteroid))])
    as (D & L & _).
  split; [exact D|exact L].
Defined.
(** ** The controller *)

Lemma set_bullets_same (s : State) (l : list Bullet) :
  l = bullets s -> set_bullets l s = s.
Proof. intros ->. now destruct s. Qed.

Lemma set_bullets_twice (s : State) (l l' : list Bullet) :
  set_bullets l' (set_bullets l s) = set_bullets l' s.
Proof. reflexivity. Qed.

Section Controller.
Context {E : Babylon}.

(** X15.  The trigger has no cooldown.  While the game runs, the ship
    is enabled and the engine has its sphere builder, [k] trigger
    presses between two frames append [k] bullets, all the same, and
    change nothing else; a trigger release changes nothing, and neither
    does a press once the game is over or while the ship is disabled.
    Both scripts. *)
Theorem trigger_has_no_cooldown (s : State) (ship : Ship) (k : nat) :
  playerShip s = Some ship ->
  (isGameOver s = false -> isEnabled ship = true ->
   hasCreateSphere = true ->
   Nat.iter k (Part000.onTrigger true) s
   = set_bullets (bullets s ++ repeat (Part000_bulletOf ship) k) s
   /\ Nat.iter k (GameJs.onTrigger true) s
      = set_bullets (bullets s ++ repeat (GameJs_bulletOf ship) k) s)
  /\ (Part000.onTrigger false s = s /\ GameJs.onTrigger false s = s)
  /\ (isGameOver s = true \/ isEnabled ship = false ->
      Part000.onTrigger true s = s /\ GameJs.onTrigger true s = s).
Proof.
  intro Hship. split; [|split].
  - intros Hover Hen Hsphere. split.
    + induction k as [|k IH].
      * simpl. symmetry. apply set_bullets_same. apply app_nil_r.
      * rewrite Nat.iter_succ, IH.
        unfold Part000.onTrigger, Part000.fireBullet. simpl.
        rewrite Hship, Hover, Hen, Hsphere. simpl.
        rewrite <- app_assoc, set_bullets_twice. do 2 f_equal.
        symmetry. apply (repeat_cons k (Part000_bulletOf ship)).
    + induction k as [|k IH].
      * simpl. symmetry. apply set_bullets_same. apply app_nil_r.
      * rewrite Nat.iter_succ, IH.
        unfold GameJs.onTrigger, GameJs.fireBullet. simpl.
        rewrite Hship, Hover, Hen, Hsphere. simpl.
        rewrite <- app_assoc, set_bullets_twice. do 2 f_equal.
        symmetry. apply (repeat_cons k (GameJs_bulletOf ship)).
  - unfold Part000.onTrigger, GameJs.onTrigger. now rewrite Hship.
  - unfold Part000.onTrigger, GameJs.onTrigger. rewrite Hship.
    intros [-> | ->]; simpl; rewrite ?andb_false_r; now split.
Qed.
End Controller.

(** Five presses in the fresh game. *)
Lemma trigger_has_no_cooldown_witness :
  length (bullets (Nat.iter 5 (@Part000.onTrigger exampleEngine true)
                            freshGame)) = 5%nat.
Proof.
  destruct (proj1 (@trigger_has_no_cooldown exampleEngine freshGame
                     (theShip 1) 5 eq_refl) eq_refl eq_refl eq_refl)
    as [-> _].
  reflexivity.
Defined.
Lemma set_playerShip_same (s : State) (ship : Ship) :
  playerShip s = Some ship -> set_playerShip (Some ship) s = s.
Proof. intros H. destruct s. simpl in *. now rewrite H. Qed.

Section Thumbstick.
Context {E : Babylon}.

(** X16.  The thumbstick.  An event inside the dead zone (x between
    -0.1 and 0.1, y not below -0.1) changes nothing, and neither does
    any event once the game is over or while the ship is disabled.  An
    event never moves the ship and turns it about Y only, by
    [PLAYER_ROTATION_SPEED] to the left of the dead zone and to the
    right of it; and it changes the velocity only when the stick is
    pushed forward (y below -0.1), so pulling the stick back never
    brakes.  Both scripts. *)
Theorem thumbstick_turns_and_thrusts (s : State) (ship : Ship) (x y : Q) :
  playerShip s = Some ship ->
  (isGameOver s = true \/ isEnabled ship = false ->
   Part000.onThumbstick x y s = s /\ GameJs.onThumbstick x y s = s)
  /\ (- (1 # 10) <= x -> x <= 1 # 10 -> - (1 # 10) <= y ->
      Part000.onThumbstick x y s = s /\ GameJs.onThumbstick x y s = s)
  /\ (isGameOver s = false -> isEnabled ship = true ->
      let r := rotation ship in
      let turned :=
        if Qltb x (- (1 # 10))
        then set_rotation (vec3 (vx r) (vy r - PLAYER_ROTATION_SPEED) (vz r))
                          ship
        else if Qgtb x (1 # 10)
        then set_rotation (vec3 (vx r) (vy r + PLAYER_ROTATION_SPEED) (vz r))
                          ship
        else ship in
      position turned = position ship
      /\ playerShip (Part000.onThumbstick x y s) = Some turned
      /\ playerShip (GameJs.onThumbstick x y s) = Some turned
      /\ (- (1 # 10) <= y ->
          playerVelocity (Part000.onThumbstick x y s) = playerVelocity s
          /\ playerVelocity (GameJs.onThumbstick x y s) = playerVelocity s)
      /\ (y < - (1 # 10) ->
          playerVelocity (Part000.onThumbstick x y s)
          = add (playerVelocity s)
                (scale (normalize (scale (forward (rotation turned)) (-1)))
                       (- y * PLAYER_SPEED))
          /\ playerVelocity (GameJs.onThumbstick x y s)
             = scale (add (playerVelocity s)
                          (scale (forward (rotation turned))
                                 (- PLAYER_SPEED)))
                     (98 # 100))).
Proof.
  intro Hship. split; [|split].
  - unfold Part000.onThumbstick, GameJs.onThumbstick. rewrite Hship.
    intros [-> | ->]; [|destruct (isGameOver s)]; now split.
  - intros Hx1 Hx2 Hy.
    assert (X1 : Qltb x (- (1 # 10)) = false).
    { destruct (Qltb x (- (1 # 10))) eqn:Hc; [|reflexivity].
      apply Qltb_true_iff in Hc. lra. }
    assert (X2 : Qgtb x (1 # 10) = false) by now apply Qgtb_false_iff.
    assert (Y1 : Qltb y (- (1 # 10)) = false).
    { destruct (Qltb y (- (1 # 10))) eqn:Hc; [|reflexivity].
      apply Qltb_true_iff in Hc. lra. }
    unfold Part000.onThumbstick, GameJs.onThumbstick.
    rewrite Hship, X1, X2, Y1.
    destruct (isGameOver s); [now split|].
    destruct (negb (isEnabled ship)); [now split|].
    cbv beta iota zeta. split; apply set_playerShip_same; exact Hship.
  - intros Hover Hen. cbv zeta.
    unfold Part000.onThumbstick, GameJs.onThumbstick.
    rewrite Hship, Hover, Hen. simpl.
    split; [|split; [|split; [|split]]].
    + now repeat (break_match; simpl).
    + now destruct (Qltb y (- (1 # 10))).
    + now destruct (Qltb y (- (1 # 10))).
    + intro Hy.
      assert (Y1 : Qltb y (- (1 # 10)) = false).
      { destruct (Qltb y (- (1 # 10))) eqn:Hc; [|reflexivity].
        apply Qltb_true_iff in Hc. lra. }
      rewrite Y1. now split.
    + intro Hy. apply Qltb_true_iff in Hy. rewrite Hy. now split.
Qed.
End Thumbstick.

(** The stick pushed to the upper right in the fresh game: the ship
    turns right where it stands, and gains velocity. *)
Lemma thumbstick_turns_and_thrusts_witness :
  let s' := @Part000.onThumbstick exampleEngine (1 # 2) (- (1 # 2))
              freshGame in
  playerShip s'
  = Some (set_rotation
            (vec3 (Math_PI / 2) (0 + PLAYER_ROTATION_SPEED) 0) (theShip 1))
  /\ playerVelocity s'
     = add Vector3_Zero
           (scale (exampleNormalize
                     (scale (exampleForward
                               (vec3 (Math_PI / 2)
                                     (0 + PLAYER_ROTATION_SPEED) 0))
                            (-1)))
                  (- - (1 # 2) * PLAYER_SPEED)).
Proof.
  cbv zeta.
  destruct (proj2 (proj2 (@thumbstick_turns_and_thrusts exampleEngine
                            freshGame (theShip 1) (1 # 2) (- (1 # 2))
                            eq_refl))
                  eq_refl eq_refl)
    as (_ & HP & _ & _ & HV).
  split; [exact HP|]. apply HV. reflexivity.
Defined.
(** ** Hits *)

Section Hits.
Context {E : Babylon}.




End Hits.
(** ** Building an asteroid *)

Lemma bind_Some {A B : Type} (m : Random A) (k : A -> Random B)
      (draws rest : list Q) (b : B) :
  bind m k draws = Some (b, rest) ->
  exists a mid, m draws = Some (a, mid) /\ k a mid = Some (b, rest).
Proof.
  unfold bind. destruct (m draws) as [[a mid]|]; [|discriminate].
  intro H. now exists a, mid.
Qed.

Lemma Math_random_Some (draws rest : list Q) (d : Q) :
  Math_random draws = Some (d, rest) -> draws = d :: rest.
Proof. destruct draws; simpl; [discriminate|]. now intros [= -> ->]. Qed.

Lemma ret_Some {A : Type} (a b : A) (draws rest : list Q) :
  ret a draws = Some (b, rest) -> b = a /\ rest = draws.
Proof. unfold ret. now intros [= -> ->]. Qed.

Lemma randomVector_Some (f : Q -> Q) (draws rest : list Q) (v : Vec3) :
  randomVector f draws = Some (v, rest) ->
  exists rx ry rz,
    draws = rx :: ry :: rz :: rest /\ v = vec3 (f rx) (f ry) (f rz).
Proof.
  destruct draws as [|rx [|ry [|rz tail]]]; try discriminate.
  unfold randomVector, bind, Math_random, ret. intros [= <- <-].
  now exists rx, ry, rz.
Qed.

Lemma randomSpeed_Some (draws rest : list Q) (speed : Q) :
  randomSpeed draws = Some (speed, rest) ->
  exists r,
    draws = r :: rest
    /\ speed = ASTEROID_MIN_SPEED
               + r * (ASTEROID_MAX_SPEED - ASTEROID_MIN_SPEED).
Proof.
  destruct draws as [|r tail]; try discriminate.
  unfold randomSpeed, bind, Math_random, ret. intros [= <- <-].
  now exists r.
Qed.

Lemma randomSpeed_range (r : Q) :
  0 <= r -> r < 1 ->
  let speed := ASTEROID_MIN_SPEED
               + r * (ASTEROID_MAX_SPEED - ASTEROID_MIN_SPEED) in
  ASTEROID_MIN_SPEED <= speed /\ speed < ASTEROID_MAX_SPEED.
Proof.
  intros H0 H1. cbv zeta. unfold ASTEROID_MIN_SPEED, ASTEROID_MAX_SPEED.
  split; lra.
Qed.

(** [Math.floor(Math.random() * n)] is one of 0, ..., n - 1. *)
Lemma Math_floor_range (r : Q) (n : Z) :
  0 <= r -> r < 1 -> (0 < n)%Z ->
  (0 <= Math_floor (r * inject_Z n) < n)%Z.
Proof.
  intros H0 H1 Hn. unfold Math_floor.
  assert (Hq : 0 < inject_Z n).
  { change 0 with (inject_Z 0). now rewrite <- Zlt_Qlt. }
  split.
  - change 0%Z with (Qfloor 0). apply Qfloor_resp_le.
    apply Qmult_le_0_compat; [exact H0|]. now apply Qlt_le_weak.
  - rewrite Zlt_Qlt.
    apply Qle_lt_trans with (r * inject_Z n); [apply Qfloor_le|].
    setoid_replace (inject_Z n) with (1 * inject_Z n) at 2 by ring.
    apply Qmult_lt_compat_r; assumption.
Qed.

Lemma within_set_coord (limit : Q) (ax : Axis) (c : Q) (p : Vec3) :
  - limit <= c -> c <= limit -> within limit p ->
  within limit (set_coord ax c p).
Proof.
  intros H1 H2 Hp a.
  destruct (Hp AxisX), (Hp AxisY), (Hp AxisZ).
  destruct ax, a; simpl in *; split; assumption.
Qed.

Lemma coord_set_coord (ax : Axis) (c : Q) (p : Vec3) :
  coord ax (set_coord ax c p) = c.
Proof. now destruct ax. Qed.

Lemma GameJs_placeOnEdge_onFace (edge : Z) (p : Vec3) :
  (0 <= edge < 6)%Z -> within PLAY_AREA_SIZE p ->
  onFace (GameJsSpawn.placeOnEdge edge p).
Proof.
  intros Hedge Hp.
  assert (H30 : - PLAY_AREA_SIZE <= PLAY_AREA_SIZE)
    by (unfold PLAY_AREA_SIZE; lra).
  assert (Hcases : edge = 0%Z \/ edge = 1%Z \/ edge = 2%Z \/ edge = 3%Z
                   \/ edge = 4%Z \/ edge = 5%Z) by lia.
  destruct Hcases as [->|[->|[->|[->|[->| ->]]]]];
    unfold GameJsSpawn.placeOnEdge; cbv beta iota; split;
    try (apply within_set_coord; try assumption; lra);
    rewrite ?coord_set_coord.
  - exists AxisX. left. apply coord_set_coord.
  - exists AxisX. right. apply coord_set_coord.
  - exists AxisY. left. apply coord_set_coord.
  - exists AxisY. right. apply coord_set_coord.
  - exists AxisZ. left. apply coord_set_coord.
  - exists AxisZ. right. apply coord_set_coord.
Qed.

Lemma wrapAxis_fixed (limit c : Q) :
  - limit <= c -> c <= limit -> wrapAxis limit c = c.
Proof.
  intros H1 H2. unfold wrapAxis.
  assert (G : Qgtb c limit = false) by now apply Qgtb_false_iff.
  assert (L : Qltb c (- limit) = false) by now apply Qgtb_false_iff.
  now rewrite G, L.
Qed.

Lemma GameJs_wrapAround_fixed {M : Type} (mesh : Mesh M) :
  within PLAY_AREA_SIZE (position mesh) -> GameJs.wrapAround mesh = mesh.
Proof.
  intro H. unfold GameJs.wrapAround. cbv zeta.
  destruct (H AxisX), (H AxisY), (H AxisZ). simpl in *.
  rewrite !wrapAxis_fixed by assumption.
  destruct mesh as [[x y z] r v e d b m]. reflexivity.
Qed.

Lemma Part000_wrapAround_fixed {M : Type} (mesh : Mesh M) :
  within Part000.wrapLimit (position mesh) ->
  Part000.wrapAround mesh = mesh.
Proof.
  intro H. unfold Part000.wrapAround. cbv zeta.
  destruct (H AxisX), (H AxisY), (H AxisZ). simpl in *.
  rewrite !wrapAxis_fixed by assumption.
  destruct mesh as [[x y z] r v e d b m]. reflexivity.
Qed.

Lemma unitDraws_skipn (n : nat) (draws : list Q) :
  unitDraws draws -> unitDraws (skipn n draws).
Proof.
  unfold unitDraws. rewrite !Forall_forall. intros H d Hin.
  apply H. rewrite <- (firstn_skipn n draws). apply in_or_app. now right.
Qed.

Section GameJsAsteroid.
Context {E : Babylon}.

(** X18.  [createAsteroid] of [game.js], with a mesh builder: it draws
    nine numbers and builds an asteroid of a size in [1, 3) that lies on
    a face of the play cube, so inside the volume, where [wrapAround]
    leaves it and [isOutOfBounds] does not hold; its velocity is a
    normalised direction times a speed in
    [ASTEROID_MIN_SPEED, ASTEROID_MAX_SPEED), so with an engine that
    normalises to length 1 it is slower than [ASTEROID_MAX_SPEED]; the
    mesh is otherwise as the builder made it.  Without a builder nothing
    is built and nothing drawn. *)
Theorem createAsteroid_places_on_a_face (build : Q -> Asteroid)
        (draws : list Q) :
  unitDraws draws -> (9 <= length draws)%nat ->
  GameJsSpawn.createAsteroid None draws = Some (None, draws)
  /\ exists made md direction speed,
      GameJsSpawn.createAsteroid (Some build) draws
      = Some (Some made, skipn 9 draws)
      /\ onFace (position made)
      /\ GameJs.wrapAround made = made
      /\ GameJs.isOutOfBounds (position made) = false
      /\ metadata made = Some md
      /\ 1 <= size md /\ size md < 3
      /\ asteroidVelocity md = scale (normalize direction) speed
      /\ ASTEROID_MIN_SPEED <= speed /\ speed < ASTEROID_MAX_SPEED
      /\ (lengthSquared (normalize direction) == 1 ->
          lengthSquared (asteroidVelocity md)
          < ASTEROID_MAX_SPEED * ASTEROID_MAX_SPEED)
      /\ made = set_metadata (Some md)
                  (set_position (position made) (build (size md))).
Proof.
  intros Hunit Hlen. split; [reflexivity|].
  destruct draws as [|r0 [|r1 [|r2 [|r3 [|r4 [|r5 [|r6 [|r7 [|r8 rest
    ]]]]]]]]]; simpl in Hlen; try lia.
  unfold unitDraws in Hunit. rewrite Forall_forall in Hunit.
  destruct (Hunit r0 ltac:(simpl; auto 20)) as [A0 B0].
  destruct (Hunit r1 ltac:(simpl; auto 20)) as [A1 B1].
  destruct (Hunit r2 ltac:(simpl; auto 20)) as [A2 B2].
  destruct (Hunit r3 ltac:(simpl; auto 20)) as [A3 B3].
  destruct (Hunit r4 ltac:(simpl; auto 20)) as [A4 B4].
  destruct (Hunit r5 ltac:(simpl; auto 20)) as [A5 B5].
  destruct (Math_floor_range r1 6 A1 B1 eq_refl) as [F0 F6].
  change (inject_Z 6) with 6 in F0, F6.
  set (p := vec3 ((r2 * 2 - 1) * PLAY_AREA_SIZE)
                 ((r3 * 2 - 1) * PLAY_AREA_SIZE)
                 ((r4 * 2 - 1) * PLAY_AREA_SIZE)).
  assert (Hp : within PLAY_AREA_SIZE p).
  { intro ax. unfold p, PLAY_AREA_SIZE.
    destruct ax; cbn [coord vx vy vz]; split; lra. }
  pose proof (GameJs_placeOnEdge_onFace _ p (conj F0 F6) Hp) as Hface.
  destruct (randomSpeed_range r5 A5 B5) as [S1 S2].
  cbv zeta in S1, S2.
  set (speed := ASTEROID_MIN_SPEED
                + r5 * (ASTEROID_MAX_SPEED - ASTEROID_MIN_SPEED)) in *.
  set (direction := vec3 (r6 - (1 # 2)) (r7 - (1 # 2)) (r8 - (1 # 2))).
  exists (set_metadata
            (Some (mkAsteroidMeta (scale (normalize direction) speed)
                                  (1 + r0 * 2) 0))
            (set_position (GameJsSpawn.placeOnEdge (Math_floor (r1 * 6)) p)
                          (build (1 + r0 * 2)))),
    (mkAsteroidMeta (scale (normalize direction) speed) (1 + r0 * 2) 0),
    direction, speed.
  split; [reflexivity|]. split; [exact Hface|].
  split; [apply GameJs_wrapAround_fixed; exact (proj1 Hface)|].
  split.
  { apply GameJs_isOutOfBounds_false.
    apply (within_wider PLAY_AREA_SIZE); [|exact (proj1 Hface)].
    unfold PLAY_AREA_SIZE. lra. }
  split; [reflexivity|]. simpl.
  split; [lra|]. split; [lra|]. split; [reflexivity|].
  split; [exact S1|]. split; [exact S2|]. split; [|reflexivity].
  intro Hone. rewrite lengthSquared_scale, Hone.
  unfold ASTEROID_MIN_SPEED, ASTEROID_MAX_SPEED in *. nra.
Qed.
End GameJsAsteroid.

(** Of [exampleDraws] the first is used for the size and the second
    for the face; five are left. *)
Lemma createAsteroid_places_on_a_face_witness :
  exists made,
    @GameJsSpawn.createAsteroid exampleEngine (Some exampleIcosahedron)
                                exampleDraws
    = Some (Some made, skipn 9 exampleDraws)
    /\ onFace (position made).
Proof.
  assert (U : unitDraws exampleDraws).
  { unfold exampleDraws. repeat constructor; now vm_compute. }
  assert (L : (9 <= length exampleDraws)%nat)
    by (unfold exampleDraws; simpl; lia).
  destruct (@createAsteroid_places_on_a_face exampleEngine
              exampleIcosahedron exampleDraws U L)
    as (_ & made & md & direction & speed & Hmade & Hface & _).
  exists made. split; [exact Hmade|exact Hface].
Defined.
Lemma unitDraws_cons (d : Q) (draws : list Q) :
  unitDraws (d :: draws) <-> (0 <= d /\ d < 1) /\ unitDraws draws.
Proof. apply Forall_cons_iff. Qed.

(** One pass of the sampling loop of the cockpit variant draws five
    numbers and yields a point on a face. *)
Lemma Part000_samplePosition_Some (draws rest : list Q) (p : Vec3) :
  unitDraws draws ->
  Part000Spawn.samplePosition draws = Some (p, rest) ->
  onFace p /\ unitDraws rest /\ skipn 5 draws = rest
  /\ (5 <= length draws)%nat.
Proof.
  intros Hunit Hsome.
  destruct draws as [|r1 [|r2 [|r3 [|r4 [|r5 tail]]]]]; try discriminate.
  apply unitDraws_cons in Hunit. destruct Hunit as [[A1 B1] Hunit].
  apply unitDraws_cons in Hunit. destruct Hunit as [[A2 B2] Hunit].
  apply unitDraws_cons in Hunit. destruct Hunit as [[A3 B3] Hunit].
  apply unitDraws_cons in Hunit. destruct Hunit as [[A4 B4] Hunit].
  apply unitDraws_cons in Hunit. destruct Hunit as [[A5 B5] Hunit].
  unfold Part000Spawn.samplePosition, randomVector, bind, Math_random, ret
    in Hsome.
  cbv zeta in Hsome. injection Hsome as Hp Hrest. subst rest.
  split; [|split; [exact Hunit|split; [reflexivity|simpl; lia]]].
  set (q := vec3 ((r1 * 2 - 1) * (PLAY_AREA_SIZE * (8 # 10)))
                 ((r2 * 2 - 1) * (PLAY_AREA_SIZE * (8 # 10)))
                 ((r3 * 2 - 1) * (PLAY_AREA_SIZE * (8 # 10)))) in Hp.
  assert (Hq : within PLAY_AREA_SIZE q).
  { intro ax. unfold q, PLAY_AREA_SIZE.
    destruct ax; cbn [coord vx vy vz]; split; lra. }
  assert (Hside : forall ax,
             onFace (set_coord ax
                       (PLAY_AREA_SIZE
                        * (if Qltb r5 (1 # 2) then - (1) else 1)) q)).
  { intro ax. split.
    - apply within_set_coord; [| |exact Hq];
        destruct (Qltb r5 (1 # 2)); unfold PLAY_AREA_SIZE; lra.
    - exists ax. rewrite coord_set_coord.
      destruct (Qltb r5 (1 # 2)); [right|left]; reflexivity. }
  subst p. destruct (_ =? 0)%Z; [exact (Hside AxisX)|].
  destruct (_ =? 1)%Z; [exact (Hside AxisY)|exact (Hside AxisZ)].
Qed.

Lemma Part000_samplePosition_total (r1 r2 r3 r4 r5 : Q) (rest : list Q) :
  exists p,
    Part000Spawn.samplePosition (r1 :: r2 :: r3 :: r4 :: r5 :: rest)
    = Some (p, rest).
Proof.
  unfold Part000Spawn.samplePosition, randomVector, bind, Math_random, ret.
  eexists. reflexivity.
Qed.

Lemma Part000_sampleLoop_Some (passes : nat) (ship : option Ship)
      (draws rest : list Q) (p : Vec3) :
  unitDraws draws ->
  Part000Spawn.sampleLoop passes ship draws = Some (p, rest) ->
  onFace p /\ Part000Spawn.tooClose ship p = false /\ unitDraws rest.
Proof.
  revert draws. induction passes as [|n IH]; intros draws Hunit Hsome;
    [discriminate|].
  cbn [Part000Spawn.sampleLoop] in Hsome.
  apply bind_Some in Hsome. destruct Hsome as (q & mid & Hq & Hk).
  destruct (Part000_samplePosition_Some draws mid q Hunit Hq)
    as (Hface & Hmid & _).
  destruct (Part000Spawn.tooClose ship q) eqn:Hclose.
  - exact (IH mid Hmid Hk).
  - apply ret_Some in Hk. destruct Hk as [-> ->].
    split; [exact Hface|]. split; [exact Hclose|exact Hmid].
Qed.

Lemma Qsquare_nonneg (q : Q) : 0 <= q * q.
Proof.
  destruct (Qlt_le_dec q 0) as [Hn|Hp].
  - setoid_replace (q * q) with ((- q) * (- q)) by ring.
    apply Qmult_le_0_compat; lra.
  - now apply Qmult_le_0_compat.
Qed.

Lemma Qsquare_far (d : Q) : 10 <= d \/ d <= - (10) -> 100 <= d * d.
Proof.
  intros [H|H].
  - setoid_replace (d * d) with ((d - 10) * (d - 10) + 20 * d - 100)
      by ring.
    pose proof (Qsquare_nonneg (d - 10)). lra.
  - setoid_replace (d * d) with ((d + 10) * (d + 10) - 20 * d - 100)
      by ring.
    pose proof (Qsquare_nonneg (d + 10)). lra.
Qed.

(** A ship within 20 of the centre on every axis is at least 10 away
    from every face of the play cube. *)
Lemma Part000_tooClose_far (ship : option Ship) (p : Vec3) :
  onFace p ->
  (forall sh, ship = Some sh -> within 20 (position sh)) ->
  Part000Spawn.tooClose ship p = false.
Proof.
  intros [Hp (ax & Hax)] Hship. unfold Part000Spawn.tooClose.
  destruct ship as [sh|]; [|reflexivity].
  specialize (Hship sh eq_refl).
  apply Qgtb_false_iff. unfold lengthSquared, subtract. cbn [vx vy vz].
  destruct (Hship AxisX) as [X1 X2], (Hship AxisY) as [Y1 Y2],
    (Hship AxisZ) as [Z1 Z2].
  cbn [coord] in *.
  set (a := vx (position sh)) in *. set (b := vy (position sh)) in *.
  set (c := vz (position sh)) in *.
  pose proof (Qsquare_nonneg (vx p - a)) as Sx.
  pose proof (Qsquare_nonneg (vy p - b)) as Sy.
  pose proof (Qsquare_nonneg (vz p - c)) as Sz.
  unfold PLAY_AREA_SIZE in Hax.
  destruct ax; cbn [coord] in Hax; destruct Hax as [Hax|Hax].
  - assert (100 <= (vx p - a) * (vx p - a))
      by (apply Qsquare_far; rewrite Hax; left; lra).
    lra.
  - assert (100 <= (vx p - a) * (vx p - a))
      by (apply Qsquare_far; rewrite Hax; right; lra).
    lra.
  - assert (100 <= (vy p - b) * (vy p - b))
      by (apply Qsquare_far; rewrite Hax; left; lra).
    lra.
  - assert (100 <= (vy p - b) * (vy p - b))
      by (apply Qsquare_far; rewrite Hax; right; lra).
    lra.
  - assert (100 <= (vz p - c) * (vz p - c))
      by (apply Qsquare_far; rewrite Hax; left; lra).
    lra.
  - assert (100 <= (vz p - c) * (vz p - c))
      by (apply Qsquare_far; rewrite Hax; right; lra).
    lra.
Qed.
Lemma bind_eq {A B : Type} (m : Random A) (k : A -> Random B)
      (draws mid : list Q) (a : A) :
  m draws = Some (a, mid) -> bind m k draws = k a mid.
Proof. unfold bind. now intros ->. Qed.

Section CockpitAsteroid.
Context {E : Babylon}.

Lemma Part000_setupAsteroid_Some (ship : option Ship) (material : bool)
      (asteroid : Asteroid) (size : Q) (draws rest : list Q)
      (made : Asteroid) :
  unitDraws draws ->
  Part000Spawn.setupAsteroid ship material asteroid size draws
  = Some (made, rest) ->
  exists p target speed spin,
    made = set_metadata
             (Some (mkAsteroidMeta
                      (scale (normalize (subtract target p)) speed)
                      size spin))
             (set_position p asteroid)
    /\ onFace p /\ Part000Spawn.tooClose ship p = false
    /\ within (15 # 2) target
    /\ ASTEROID_MIN_SPEED <= speed /\ speed < ASTEROID_MAX_SPEED
    /\ - (5 # 100) <= spin /\ spin < 5 # 100.
Proof.
  intros Hunit Hsome. unfold Part000Spawn.setupAsteroid in Hsome.
  apply bind_Some in Hsome. destruct Hsome as (p & d1 & Hloop & Hsome).
  destruct (Part000_sampleLoop_Some _ _ _ _ _ Hunit Hloop)
    as (Hface & Hclose & U1).
  cbv zeta in Hsome.
  apply bind_Some in Hsome. destruct Hsome as (speed & d2 & Hspeed & Hsome).
  apply randomSpeed_Some in Hspeed. destruct Hspeed as (r & -> & ->).
  apply unitDraws_cons in U1. destruct U1 as [[A B] U2].
  apply bind_Some in Hsome. destruct Hsome as (target & d3 & Htarget & Hsome).
  apply randomVector_Some in Htarget.
  destruct Htarget as (rx & ry & rz & -> & ->).
  apply unitDraws_cons in U2. destruct U2 as [[Ax Bx] U2].
  apply unitDraws_cons in U2. destruct U2 as [[Ay By] U2].
  apply unitDraws_cons in U2. destruct U2 as [[Az Bz] U3].
  apply bind_Some in Hsome. destruct Hsome as (rr & d4 & Hrr & Hsome).
  apply Math_random_Some in Hrr. subst d3.
  apply unitDraws_cons in U3. destruct U3 as [[Ar Br] U4].
  assert (Hmade :
    made = set_metadata
             (Some (mkAsteroidMeta
                      (scale
                         (normalize
                            (subtract
                               (vec3
                                  ((rx - (1 # 2)) * PLAY_AREA_SIZE * (1 # 2))
                                  ((ry - (1 # 2)) * PLAY_AREA_SIZE * (1 # 2))
                                  ((rz - (1 # 2)) * PLAY_AREA_SIZE * (1 # 2)))
                               p))
                         (ASTEROID_MIN_SPEED
                          + r * (ASTEROID_MAX_SPEED - ASTEROID_MIN_SPEED)))
                      size ((rr - (1 # 2)) * (1 # 10))))
             (set_position p asteroid)).
  { destruct material.
    - apply bind_Some in Hsome. destruct Hsome as (c & d5 & _ & Hsome).
      apply ret_Some in Hsome. now destruct Hsome as [-> _].
    - apply ret_Some in Hsome. now destruct Hsome as [-> _]. }
  eexists p, _, _, _. split; [exact Hmade|].
  split; [exact Hface|]. split; [exact Hclose|].
  destruct (randomSpeed_range r A B) as [S1 S2].
  split; [|split; [exact S1|split; [exact S2|split; lra]]].
  intro ax. unfold PLAY_AREA_SIZE.
  destruct ax; cbn [coord vx vy vz]; split; lra.
Qed.

Lemma Part000_setupAsteroid_first_pass (ship : option Ship)
      (material : bool) (asteroid : Asteroid) (size : Q) (draws : list Q) :
  unitDraws draws ->
  (forall sh, ship = Some sh -> within 20 (position sh)) ->
  ((if material then 13 else 10) <= length draws)%nat ->
  exists made,
    Part000Spawn.setupAsteroid ship material asteroid size draws
    = Some (made, skipn (if material then 13 else 10) draws).
Proof.
  intros Hunit Hship Hlen.
  destruct draws as [|r1 [|r2 [|r3 [|r4 [|r5 tail]]]]];
    try (destruct material; simpl in Hlen; lia).
  destruct (Part000_samplePosition_total r1 r2 r3 r4 r5 tail) as (p & Hp).
  destruct (Part000_samplePosition_Some _ _ _ Hunit Hp) as (Hface & _).
  pose proof (Part000_tooClose_far ship p Hface Hship) as Hclose.
  assert (Hloop : forall n,
             Part000Spawn.sampleLoop (S n) ship
               (r1 :: r2 :: r3 :: r4 :: r5 :: tail) = Some (p, tail)).
  { intro n. cbn [Part000Spawn.sampleLoop].
    rewrite (bind_eq _ _ _ _ _ Hp). now rewrite Hclose. }
  unfold Part000Spawn.setupAsteroid. cbn [length].
  rewrite (bind_eq _ _ _ _ _ (Hloop _)). cbv zeta.
  destruct tail as [|r6 [|r7 [|r8 [|r9 [|r10 tail]]]]];
    try (destruct material; simpl in Hlen; lia).
  destruct material.
  - destruct tail as [|r11 [|r12 [|r13 tail]]]; try (simpl in Hlen; lia).
    eexists. reflexivity.
  - eexists. reflexivity.
Qed.

(** X19.  [createAsteroid] of the cockpit variant, with a mesh builder.
    Whenever it returns, the asteroid has a size in [1, 3), lies on a
    face of the play cube, so inside the volume, where [wrapAround]
    leaves it and [isOutOfBounds] does not hold, and is at least 10
    away from the ship, if there is one; it flies towards a point
    within 7.5 of the centre at a speed factor in
    [ASTEROID_MIN_SPEED, ASTEROID_MAX_SPEED), spinning at a rate in
    [-0.05, 0.05).  It does return, from the first pass of the sampling
    loop and having drawn 11 numbers (14 when the material is coloured),
    when there is no ship or the ship is within 20 of the centre on
    every axis.  Without a builder the size is drawn all the same. *)
Theorem createAsteroid_keeps_away_from_the_ship (ship : option Ship)
        (material : bool) (build : Q -> Asteroid) (draws : list Q) :
  unitDraws draws ->
  (forall made rest,
      Part000Spawn.createAsteroid ship material (Some build) draws
      = Some (Some made, rest) ->
      exists md target speed,
        made = set_metadata (Some md)
                 (set_position (position made) (build (size md)))
        /\ 1 <= size md /\ size md < 3
        /\ onFace (position made)
        /\ Part000.wrapAround made = made
        /\ Part000.isOutOfBounds (position made) = false
        /\ (forall sh,
               ship = Some sh ->
               100 <= lengthSquared
                        (subtract (position made) (position sh)))
        /\ asteroidVelocity md
           = scale (normalize (subtract target (position made))) speed
        /\ within (15 # 2) target
        /\ ASTEROID_MIN_SPEED <= speed /\ speed < ASTEROID_MAX_SPEED
        /\ - (5 # 100) <= rotationSpeed md /\ rotationSpeed md < 5 # 100)
  /\ ((forall sh, ship = Some sh -> within 20 (position sh)) ->
      let used := if material then 14%nat else 11%nat in
      (used <= length draws)%nat ->
      exists made,
        Part000Spawn.createAsteroid ship material (Some build) draws
        = Some (Some made, skipn used draws))
  /\ (forall d rest,
         draws = d :: rest ->
         Part000Spawn.createAsteroid ship material None draws
         = Some (None, rest)).
Proof.
  intro Hunit. split; [|split].
  - intros made rest Hsome. unfold Part000Spawn.createAsteroid in Hsome.
    apply bind_Some in Hsome. destruct Hsome as (r & d1 & Hr & Hsome).
    apply Math_random_Some in Hr. subst draws.
    apply unitDraws_cons in Hunit. destruct Hunit as [[A B] U1].
    cbv zeta in Hsome.
    apply bind_Some in Hsome. destruct Hsome as (a & d2 & Hsetup & Hsome).
    apply ret_Some in Hsome. destruct Hsome as [[= ->] ->].
    destruct (Part000_setupAsteroid_Some _ _ _ _ _ _ _ U1 Hsetup)
      as (p & target & speed & spin & -> & Hface & Hclose & Ht & S1 & S2
          & R1 & R2).
    exists (mkAsteroidMeta (scale (normalize (subtract target p)) speed)
                           (1 + r * 2) spin), target, speed.
    cbn [position set_metadata set_position size asteroidVelocity
         rotationSpeed].
    split; [reflexivity|]. split; [lra|]. split; [lra|].
    split; [exact Hface|].
    assert (Hw : within Part000.wrapLimit p).
    { apply (within_wider PLAY_AREA_SIZE); [|exact (proj1 Hface)].
      unfold Part000.wrapLimit, PLAY_AREA_SIZE. lra. }
    split; [now apply Part000_wrapAround_fixed|].
    split.
    { apply Part000_isOutOfBounds_false.
      apply (within_wider PLAY_AREA_SIZE); [|exact (proj1 Hface)].
      unfold PLAY_AREA_SIZE. lra. }
    split.
    { intros sh ->. unfold Part000Spawn.tooClose in Hclose.
      now apply Qgtb_false_iff in Hclose. }
    split; [reflexivity|]. split; [exact Ht|]. split; [exact S1|].
    split; [exact S2|]. split; [exact R1|exact R2].
  - intros Hship used Hlen.
    destruct draws as [|r0 draws]; [destruct material; simpl in Hlen; lia|].
    apply unitDraws_cons in Hunit. destruct Hunit as [_ Hunit].
    destruct (Part000_setupAsteroid_first_pass ship material
                (build (1 + r0 * 2)) (1 + r0 * 2) draws Hunit Hship)
      as (made & Hmade).
    { destruct material; simpl in Hlen |- *; lia. }
    exists made. unfold Part000Spawn.createAsteroid.
    rewrite (bind_eq _ _ _ _ _ (eq_refl : Math_random (r0 :: draws)
                                          = Some (r0, draws))).
    cbv zeta. rewrite (bind_eq _ _ _ _ _ Hmade). unfold ret.
    now destruct material.
  - intros d rest ->. reflexivity.
Qed.
End CockpitAsteroid.

(** The ship of the fresh game at the centre, a coloured material, and
    the fourteen numbers of [exampleDraws]: all are used. *)
Lemma createAsteroid_keeps_away_from_the_ship_witness :
  exists made,
    @Part000Spawn.createAsteroid exampleEngine (Some (theShip 1)) true
      (Some exampleIcosahedron) exampleDraws
    = Some (Some made, [])
    /\ 100 <= lengthSquared (subtract (position made) Vector3_Zero).
Proof.
  assert (U : unitDraws exampleDraws).
  { unfold exampleDraws. repeat constructor; now vm_compute. }
  destruct (@createAsteroid_keeps_away_from_the_ship exampleEngine
              (Some (theShip 1)) true exampleIcosahedron exampleDraws U)
    as (Hsound & Hruns & _).
  assert (Hfar : forall sh, Some (theShip 1) = Some sh ->
                            within 20 (position sh)).
  { intros sh [= <-]. intros [| |]; simpl; split; lra. }
  assert (Hlen : (14 <= length exampleDraws)%nat)
    by (unfold exampleDraws; simpl; lia).
  destruct (Hruns Hfar Hlen) as (made & Hmade).
  destruct (Hsound made _ Hmade)
    as (md & target & speed & _ & _ & _ & _ & _ & _ & Haway & _).
  exists made. split; [exact Hmade|].
  exact (Haway (theShip 1) eq_refl).
Defined.
(** ** Blinking *)

Lemma blink_period (a : Z) :
  (0 <= a)%Z ->
  (Z.rem ((a + 300) / 150) 2 =? 0)%Z = (Z.rem (a / 150) 2 =? 0)%Z.
Proof.
  intro Ha.
  replace (a + 300)%Z with (a + 2 * 150)%Z by lia.
  rewrite Z.div_add by lia.
  assert (H0 : (0 <= a / 150)%Z) by (apply Z.div_pos; lia).
  rewrite !Z.rem_mod_nonneg by lia.
  replace (a / 150 + 2)%Z with (a / 150 + 1 * 2)%Z by lia.
  now rewrite Z.mod_add by lia.
Qed.

Section Blinking.
Context {E : Babylon}.

(** X20.  While the player is invincible a frame only sets the ship's
    visibility: the ship is shown during every other span of 150 ms,
    counted from the hit in the cockpit variant and from the epoch in
    [game.js], so a frame 300 ms later shows the same; the first frame
    past [invincibleUntil] shows and enables the ship where it stands
    and ends the invincibility. *)
Theorem invincible_ship_blinks (f : Frame) (s : State) (ship : Ship) :
  playerShip s = Some ship -> isEnabled ship = false ->
  playerInvincible s = true -> isGameOver s = false -> (0 < lives s)%Z ->
  ((now f <= invincibleUntil s)%Z ->
   playerInvincible (Part000.updateGameLogic f s) = true
   /\ playerShip (Part000.updateGameLogic f s)
      = Some (set_isVisible
                (Z.rem ((now f - playerRespawnTime s) / 150) 2 =? 0)%Z ship)
   /\ playerInvincible (GameJs.updateGameLogic f s) = true
   /\ playerShip (GameJs.updateGameLogic f s)
      = Some (set_isVisible (Z.rem (now f / 150) 2 =? 0)%Z ship)
   /\ forall f',
       now f' = (now f + 300)%Z -> (now f' <= invincibleUntil s)%Z ->
       ((playerRespawnTime s <= now f)%Z ->
        playerShip (Part000.updateGameLogic f' s)
        = playerShip (Part000.updateGameLogic f s))
       /\ ((0 <= now f)%Z ->
           playerShip (GameJs.updateGameLogic f' s)
           = playerShip (GameJs.updateGameLogic f s)))
  /\ ((invincibleUntil s < now f)%Z ->
      playerInvincible (Part000.updateGameLogic f s) = false
      /\ playerShip (Part000.updateGameLogic f s)
         = Some (setEnabled true (set_isVisible true ship))
      /\ playerInvincible (GameJs.updateGameLogic f s) = false
      /\ playerShip (GameJs.updateGameLogic f s)
         = Some (setEnabled true (set_isVisible true ship))).
Proof.
  intros Hship Hen Hinv Hover Hlives.
  assert (HP : forall g,
    playerShip (Part000.updateGameLogic g s)
    = (if (invincibleUntil s <? now g)%Z
       then Some (setEnabled true (set_isVisible true ship))
       else Some (set_isVisible
                    (Z.rem ((now g - playerRespawnTime s) / 150) 2 =? 0)%Z
                    ship))
    /\ playerInvincible (Part000.updateGameLogic g s)
       = negb (invincibleUntil s <? now g)%Z).
  { intro g.
    destruct (Part000_disabled_frame g s ship Hship Hen Hover Hlives)
      as (s6 & -> & K1 & K2 & K3 & _).
    unfold Part000.updateInvincibility, invincibleUntil.
    rewrite K1, K2, K3, Hship, Hinv.
    destruct (_ <? _)%Z; simpl; rewrite ?K2, ?Hinv; now split. }
  assert (HG : forall g,
    playerShip (GameJs.updateGameLogic g s)
    = (if (invincibleUntil s <? now g)%Z
       then Some (setEnabled true (set_isVisible true ship))
       else Some (set_isVisible (Z.rem (now g / 150) 2 =? 0)%Z ship))
    /\ playerInvincible (GameJs.updateGameLogic g s)
       = negb (invincibleUntil s <? now g)%Z).
  { intro g.
    destruct (GameJs_disabled_frame g s ship Hship Hen Hover Hlives)
      as (s6 & -> & K1 & K2 & K3 & _).
    unfold GameJs.updateInvincibility, invincibleUntil.
    rewrite K1, K2, K3, Hship, Hinv.
    destruct (_ <? _)%Z; simpl; rewrite ?K2, ?Hinv; now split. }
  split.
  - intro Hin.
    assert (Hb : (invincibleUntil s <? now f)%Z = false)
      by (apply Z.ltb_ge; lia).
    destruct (HP f) as [P1 P2]. destruct (HG f) as [G1 G2].
    rewrite Hb in P1, P2, G1, G2.
    split; [exact P2|]. split; [exact P1|]. split; [exact G2|].
    split; [exact G1|].
    intros f' Hlater Hin'.
    assert (Hb' : (invincibleUntil s <? now f')%Z = false)
      by (apply Z.ltb_ge; lia).
    destruct (HP f') as [P1' _]. destruct (HG f') as [G1' _].
    rewrite Hb' in P1', G1'. rewrite P1, P1', G1, G1', Hlater.
    split; intro Hpos.
    + replace (now f + 300 - playerRespawnTime s)%Z
        with (now f - playerRespawnTime s + 300)%Z by lia.
      now rewrite blink_period by lia.
    + now rewrite blink_period by lia.
  - intro Hout.
    assert (Hb : (invincibleUntil s <? now f)%Z = true)
      by (apply Z.ltb_lt; lia).
    destruct (HP f) as [P1 P2]. destruct (HG f) as [G1 G2].
    rewrite Hb in P1, P2, G1, G2. now repeat split.
Qed.
End Blinking.

(** The player of the lost session after the first hit, at 1001 ms: the
    frame 160 ms later hides the ship, the frame at 4002 ms ends the
    invincibility. *)
Lemma invincible_ship_blinks_witness :
  let s := @Part000.run exampleEngine (map Part000.Render firstHitFrames)
             freshGame in
  (exists ship',
      playerShip (@Part000.updateGameLogic exampleEngine
                    (mkFrame 1161 None) s) = Some ship'
      /\ isVisible ship' = false /\ isEnabled ship' = false)
  /\ playerInvincible (@Part000.updateGameLogic exampleEngine
                         (mkFrame 4002 None) s) = false.
Proof.
  cbv zeta.
  set (s := @Part000.run exampleEngine (map Part000.Render firstHitFrames)
              freshGame).
  assert (Hship : playerShip s
                  = Some (set_isVisible true (respawnedShip (theShip 1))))
    by now vm_compute.
  pose proof (fun g =>
                @invincible_ship_blinks exampleEngine g s
                  (set_isVisible true (respawnedShip (theShip 1))) Hship
                  eq_refl eq_refl eq_refl eq_refl) as H.
  split.
  - destruct (proj1 (H (mkFrame 1161 None))) as (_ & Hp & _);
      [now vm_compute|].
    eexists. split; [exact Hp|]. now split.
  - destruct (proj2 (H (mkFrame 4002 None))) as (Hi & _);
      [now vm_compute|exact Hi].
Defined.
(** ** Bullets in a session *)

Lemma Forall_splice {A : Type} (P : A -> Prop) (i : nat) (l : list A) :
  Forall P l -> Forall P (splice i l).
Proof.
  intro H. unfold splice. apply Forall_app. split.
  - rewrite Forall_forall in *. intros x Hx. apply H.
    rewrite <- (firstn_skipn i l). apply in_or_app. now left.
  - rewrite Forall_forall in *. intros x Hx. apply H.
    rewrite <- (firstn_skipn (S i) l). apply in_or_app. now right.
Qed.

Lemma Part000_updateBullets_inFlight (bs : list Bullet) :
  Forall (inFlight Part000.BULLET_LIFETIME) bs ->
  Forall (inFlight Part000.BULLET_LIFETIME) (Part000.updateBullets bs).
Proof.
  rewrite !Forall_forall. intros H b' Hin.
  rewrite Part000_updateBullets_flat_map, in_flat_map in Hin.
  destruct Hin as (b & Hin & Hb'). unfold Part000_bulletAfter in Hb'.
  destruct (H b Hin) as (md & Hmd & Hl). rewrite Hmd in Hb'.
  cbv zeta in Hb'.
  destruct (life md - 1 <=? 0)%Z eqn:Hz; [contradiction|].
  destruct (Part000.isOutOfBounds _); [contradiction|].
  destruct Hb' as [<-|[]]. apply Z.leb_gt in Hz.
  eexists. split; [reflexivity|]. simpl. lia.
Qed.

Lemma GameJs_updateBullets_inFlight (bs : list Bullet) :
  Forall (inFlight GameJs.BULLET_LIFETIME) bs ->
  Forall (fun b => inFlight GameJs.BULLET_LIFETIME b
                   /\ GameJs.isOutOfBounds (position b) = false)
         (GameJs.updateBullets bs).
Proof.
  rewrite !Forall_forall. intros H b' Hin.
  rewrite GameJs_updateBullets_flat_map, in_flat_map in Hin.
  destruct Hin as (b & Hin & Hb'). unfold GameJs_bulletAfter in Hb'.
  destruct (H b Hin) as (md & Hmd & Hl). rewrite Hmd in Hb'.
  cbv zeta in Hb'.
  destruct (life md - 1 <=? 0)%Z eqn:Hz; [contradiction|].
  destruct (GameJs.isOutOfBounds _) eqn:Hout; [contradiction|].
  destruct Hb' as [<-|[]]. apply Z.leb_gt in Hz. split.
  - eexists. split; [reflexivity|]. simpl. lia.
  - exact Hout.
Qed.

Section BulletsInFlight.
Context {E : Babylon}.

Lemma Part000_tail_keeps (P : Bullet -> Prop) (t : Z) (s : State) :
  Forall P (bullets s) ->
  Forall P (bullets
              (Part000.updateInvincibility t
                 (let s5 := Part000.playerLoop t s in
                  if (lives s5 <=? 0)%Z && negb (isGameOver s5)
                  then Part000.endGame s5 else s5))).
Proof.
  intro H. cbv zeta.
  assert (H1 : forall st,
             bullets (Part000.updateInvincibility t st) = bullets st).
  { intro st. unfold Part000.updateInvincibility.
    now repeat (break_match; simpl). }
  assert (H2 : forall st,
             Forall P (bullets st) -> Forall P (bullets (Part000.endGame st))).
  { intros st Hst. unfold Part000.endGame.
    repeat (break_match; simpl); auto. }
  assert (H3 : forall st,
             Forall P (bullets st) ->
             Forall P (bullets (Part000.playerHit t st))).
  { intros st Hst. unfold Part000.playerHit. cbv zeta.
    repeat (break_match; simpl); auto.
    all: match goal with
         | |- Forall _ (bullets (Part000.endGame ?x)) => apply (H2 x)
         end; exact Hst. }
  rewrite H1.
  assert (H4 : Forall P (bullets (Part000.playerLoop t s))).
  { destruct (Part000_playerLoop_cases t s)
      as [->|(ship & j & _ & _ & _ & _ & ->)]; [exact H|].
    apply H3. exact H. }
  destruct (_ && _); [now apply H2|exact H4].
Qed.

Lemma GameJs_tail_keeps (P : Bullet -> Prop) (t : Z) (s : State) :
  Forall P (bullets s) ->
  Forall P (bullets
              (GameJs.updateInvincibility t
                 (let s5 := GameJs.playerLoop t s in
                  if (lives s5 <=? 0)%Z && negb (isGameOver s5)
                  then GameJs.endGame s5 else s5))).
Proof.
  intro H. cbv zeta.
  assert (H1 : forall st,
             bullets (GameJs.updateInvincibility t st) = bullets st).
  { intro st. unfold GameJs.updateInvincibility.
    now repeat (break_match; simpl). }
  assert (H3 : forall st, bullets (GameJs.playerHit t st) = bullets st).
  { intro st. unfold GameJs.playerHit. cbv zeta.
    now repeat (break_match; simpl). }
  rewrite H1.
  assert (H4 : bullets (GameJs.playerLoop t s) = bullets s).
  { destruct (GameJs_playerLoop_cases t s)
      as [->|(ship & j & _ & _ & _ & _ & ->)]; [reflexivity|].
    cbv zeta. simpl. now rewrite H3. }
  destruct (_ && _); [constructor|now rewrite H4].
Qed.

(** What holds of every bullet a frame has moved holds of every bullet
    the frame leaves. *)
Lemma Part000_frame_keeps (P : Bullet -> Prop) (f : Frame) (s : State) :
  isGameOver s = false ->
  Forall P (Part000.updateBullets (bullets s)) ->
  Forall P (bullets (Part000.updateGameLogic f s)).
Proof.
  intros Hover H. unfold Part000.updateGameLogic. rewrite Hover. cbv zeta.
  set (s1 := Part000.movePlayer s).
  assert (B1 : bullets s1 = bullets s).
  { unfold s1, Part000.movePlayer. now repeat (break_match; simpl). }
  set (s4 := Part000.spawnAsteroidsIfNeeded f _).
  assert (B4 : bullets s4 = Part000.updateBullets (bullets s1)).
  { unfold s4, Part000.spawnAsteroidsIfNeeded, Part000.createAsteroid.
    now repeat (break_match; simpl). }
  unfold Part000.checkCollisions. apply Part000_tail_keeps.
  apply (forDown_invariant (fun st => Forall P (bullets st))).
  - intros i st Hst. unfold Part000.bulletLoop_body.
    repeat (break_match; simpl); try exact Hst.
    now apply Forall_splice.
  - now rewrite B4, B1.
Qed.

Lemma GameJs_frame_keeps (P : Bullet -> Prop) (f : Frame) (s : State) :
  isGameOver s = false ->
  Forall P (GameJs.updateBullets (bullets s)) ->
  Forall P (bullets (GameJs.updateGameLogic f s)).
Proof.
  intros Hover H. unfold GameJs.updateGameLogic. rewrite Hover. cbv zeta.
  set (s1 := GameJs.movePlayer s).
  assert (B1 : bullets s1 = bullets s).
  { unfold s1, GameJs.movePlayer. now repeat (break_match; simpl). }
  set (s4 := GameJs.spawnAsteroidsIfNeeded f _).
  assert (B4 : bullets s4 = GameJs.updateBullets (bullets s1)).
  { unfold s4, GameJs.spawnAsteroidsIfNeeded, GameJs.createAsteroid.
    now repeat (break_match; simpl). }
  unfold GameJs.checkCollisions. apply GameJs_tail_keeps.
  apply (forDown_invariant (fun st => Forall P (bullets st))).
  - intros i st Hst. unfold GameJs.bulletLoop_body.
    repeat (break_match; simpl); try exact Hst.
    now apply Forall_splice.
  - now rewrite B4, B1.
Qed.

Lemma Part000_reachable_inFlight (s : State) :
  Part000.reachable s ->
  Forall (inFlight Part000.BULLET_LIFETIME) (bullets s).
Proof.
  induction 1 as [s Hs|a s Hr IH].
  - destruct Hs; constructor.
  - destruct a as [f|pressed|x y]; simpl.
    + destruct (isGameOver s) eqn:Hover.
      * unfold Part000.updateGameLogic. now rewrite Hover.
      * apply Part000_frame_keeps; [exact Hover|].
        now apply Part000_updateBullets_inFlight.
    + unfold Part000.onTrigger, Part000.fireBullet.
      repeat (break_match; simpl); try exact IH.
      apply Forall_app. split; [exact IH|]. constructor; [|constructor].
      eexists. split; [reflexivity|]. simpl.
      unfold Part000.BULLET_LIFETIME. lia.
    + unfold Part000.onThumbstick.
      now repeat (break_match; simpl).
Qed.

Lemma GameJs_reachable_inFlight (s : State) :
  GameJs.reachable s ->
  Forall (fun b => inFlight GameJs.BULLET_LIFETIME b
                   /\ GameJs.isOutOfBounds (position b) = false)
         (bullets s).
Proof.
  induction 1 as [s Hs|a s Hr IH].
  - destruct Hs; constructor.
  - destruct a as [f|pressed|x y]; simpl.
    + destruct (isGameOver s) eqn:Hover.
      * unfold GameJs.updateGameLogic. now rewrite Hover.
      * apply GameJs_frame_keeps; [exact Hover|].
        apply GameJs_updateBullets_inFlight.
        eapply Forall_impl; [|exact IH]. now intros b [Hb _].
    + pose proof (GameJs_reachable_pilot s Hr) as [_ _ _ _ Ib].
      unfold GameJs.onTrigger, GameJs.fireBullet.
      destruct (playerShip s) as [ship|] eqn:Hship; [|exact IH].
      repeat (break_match; simpl); try exact IH.
      apply Forall_app. split; [exact IH|]. constructor; [|constructor].
      split.
      * eexists. split; [reflexivity|]. simpl.
        unfold GameJs.BULLET_LIFETIME. lia.
      * simpl. apply GameJs_isOutOfBounds_false.
        apply (within_wider PLAY_AREA_SIZE);
          [unfold PLAY_AREA_SIZE; lra|].
        now apply Ib.
    + unfold GameJs.onThumbstick.
      now repeat (break_match; simpl).
Qed.

Lemma Part000_frames_age (n : nat) :
  forall (fs : list Frame) (s : State),
    Part000.reachable s -> length fs = n ->
    Forall (fun b => forall md, metadata b = Some md ->
                                (life md <= Z.of_nat n)%Z) (bullets s) ->
    bullets (Part000.run (map Part000.Render fs) s) = [].
Proof.
  induction n as [|n IH]; intros fs s Hr Hlen Hage.
  - destruct fs; [|discriminate]. simpl.
    pose proof (Part000_reachable_inFlight s Hr) as Hfl.
    destruct (bullets s) as [|b bs]; [reflexivity|].
    apply Forall_inv in Hage. apply Forall_inv in Hfl.
    destruct Hfl as (md & Hmd & Hl). specialize (Hage md Hmd). lia.
  - destruct fs as [|f fs]; [discriminate|]. simpl.
    apply IH; [now apply (Part000.reachable_step (Part000.Render f))
              |now injection Hlen|].
    destruct (isGameOver s) eqn:Hover.
    + destruct (Part000_reachable_inv s Hr) as [_ _ _ _ _ Ho _].
      destruct (Ho Hover) as (_ & Hb & _).
      unfold Part000.updateGameLogic. rewrite Hover, Hb. constructor.
    + apply Part000_frame_keeps; [exact Hover|].
      rewrite Forall_forall in *. intros b Hin md Hmd.
      exact (Part000_range_step n (bullets s)
               (fun b0 md0 Hin0 => Hage b0 Hin0 md0) b md Hin Hmd).
Qed.

Lemma GameJs_frames_age (n : nat) :
  forall (fs : list Frame) (s : State),
    GameJs.reachable s -> length fs = n ->
    Forall (fun b => forall md, metadata b = Some md ->
                                (life md <= Z.of_nat n)%Z) (bullets s) ->
    bullets (GameJs.run (map GameJs.Render fs) s) = [].
Proof.
  induction n as [|n IH]; intros fs s Hr Hlen Hage.
  - destruct fs; [|discriminate]. simpl.
    pose proof (GameJs_reachable_inFlight s Hr) as Hfl.
    destruct (bullets s) as [|b bs]; [reflexivity|].
    apply Forall_inv in Hage. apply Forall_inv in Hfl.
    destruct Hfl as ((md & Hmd & Hl) & _). specialize (Hage md Hmd). lia.
  - destruct fs as [|f fs]; [discriminate|]. simpl.
    apply IH; [now apply (GameJs.reachable_step (GameJs.Render f))
              |now injection Hlen|].
    destruct (isGameOver s) eqn:Hover.
    + destruct (GameJs_reachable_inv s Hr) as [_ _ _ Ho _].
      destruct (Ho Hover) as (_ & Hb & _).
      unfold GameJs.updateGameLogic. rewrite Hover, Hb. constructor.
    + apply GameJs_frame_keeps; [exact Hover|].
      rewrite Forall_forall in *. intros b Hin md Hmd.
      exact (GameJs_range_step n (bullets s)
               (fun b0 md0 Hin0 => Hage b0 Hin0 md0) b md Hin Hmd).
Qed.

(** X21.  In every state a script reaches, every bullet carries its
    metadata with between 1 and [BULLET_LIFETIME] frames left, and in
    [game.js] lies where [isOutOfBounds] does not hold; so
    [BULLET_LIFETIME] frames without a trigger event, whatever else
    happens in them, leave no bullet. *)
Theorem bullets_in_flight_have_life_left (s : State) :
  (Part000.reachable s ->
   Forall (inFlight Part000.BULLET_LIFETIME) (bullets s)
   /\ forall fs,
       length fs = Z.to_nat Part000.BULLET_LIFETIME ->
       bullets (Part000.run (map Part000.Render fs) s) = [])
  /\ (GameJs.reachable s ->
      Forall (fun b => inFlight GameJs.BULLET_LIFETIME b
                       /\ GameJs.isOutOfBounds (position b) = false)
             (bullets s)
      /\ forall fs,
          length fs = Z.to_nat GameJs.BULLET_LIFETIME ->
          bullets (GameJs.run (map GameJs.Render fs) s) = []).
Proof.
  split; intro Hr.
  - pose proof (Part000_reachable_inFlight s Hr) as Hfl.
    split; [exact Hfl|]. intros fs Hlen.
    apply (Part000_frames_age _ fs s Hr Hlen).
    eapply Forall_impl; [|exact Hfl].
    intros b (md & Hmd & Hl) md' Hmd'.
    assert (md' = md) by congruence. subst md'.
    rewrite Z2Nat.id by (unfold Part000.BULLET_LIFETIME; lia). lia.
  - pose proof (GameJs_reachable_inFlight s Hr) as Hfl.
    split; [exact Hfl|]. intros fs Hlen.
    apply (GameJs_frames_age _ fs s Hr Hlen).
    eapply Forall_impl; [|exact Hfl].
    intros b ((md & Hmd & Hl) & _) md' Hmd'.
    assert (md' = md) by congruence. subst md'.
    rewrite Z2Nat.id by (unfold GameJs.BULLET_LIFETIME; lia). lia.
Qed.
End BulletsInFlight.

(** Three shots in the fresh game, then eighty frames. *)
Lemma bullets_in_flight_have_life_left_witness :
  let s := @Part000.run exampleEngine
             (repeat (Part000.TriggerChanged true) 3) freshGame in
  length (bullets s) = 3%nat
  /\ bullets (@Part000.run exampleEngine
                (map Part000.Render (repeat (mkFrame 16 None) 80)) s) = [].
Proof.
  cbv zeta. split; [reflexivity|].
  assert (Hr : @Part000.reachable exampleEngine
                 (@Part000.run exampleEngine
                    (repeat (Part000.TriggerChanged true) 3) freshGame)).
  { apply Part000_run_reachable, Part000.reachable_init.
    apply started_with_ship. }
  destruct (proj1 (@bullets_in_flight_have_life_left exampleEngine _) Hr)
    as [_ Hexp].
  apply Hexp. reflexivity.
Defined.
(** ** Bullets through a frame *)

Section BulletsThroughAFrame.
Context {E : Babylon}.










End BulletsThroughAFrame.

